(** * Member speech pages: aggregation, paging and text summaries

    A shallow embedding of the browser scripts that render a legislator's
    speech history: the member detail script (current version, with the
    roster merge), its older copy without the roster, and the single-table
    script [hino.js]; and of the grouping, ordering and search of the
    members directory script.

    Conventions of the embedding.
    - A JavaScript string that the scripts take apart character by character
      (the speech text) is a list of UTF-16 code units, [jsstring].  Strings
      that are only compared, concatenated or displayed (dates, names, slugs,
      messages) are [string]s.
    - A property that may be missing from a JSON object is an [opt]:
      [Undefined] (absent), [Null] or [Val v].
    - [Array.prototype.sort] is a stable sort; [sortBy] is the stable
      insertion sort, which is the result of every stable sort whenever the
      comparison function is a consistent comparator ([sortBy_unique]).
    - [String.prototype.localeCompare] is host defined; the functions that
      call it take it as the section variable [localeCompare].  So are the
      directory's [collator.compare] and [toLowerCase].
    - The document maps each element the scripts look up to its state, or
      to [None] when [querySelector] found nothing.  Markup produced from a
      list of items is kept as that list of items. *)

From stdpp Require Import base numbers list strings sorting.
From Stdlib Require Import DecimalString.

Local Open Scope Z_scope.

(** ** JavaScript values *)

Inductive opt (A : Type) : Type :=
| Undefined
| Null
| Val (a : A).
Arguments Undefined {A}.
Arguments Null {A}.
Arguments Val {A} a.

(** [x ?? d] *)
Definition nullish {A} (x : opt A) (d : A) : A :=
  match x with Val a => a | _ => d end.

(** [x || d] on a string-valued property: the empty string is falsy. *)
Definition str_or (x : opt string) (d : string) : string :=
  match x with
  | Val s => if decide (s = "") then d else s
  | _ => d
  end.

(** A string-valued property inside a template literal. *)
Definition template (x : opt string) : string :=
  match x with
  | Undefined => "undefined"
  | Null => "null"
  | Val s => s
  end.

(** Truthiness of a string-valued property. *)
Definition truthy_str (x : opt string) : bool :=
  match x with Val s => negb (bool_decide (s = "")) | _ => false end.

(** [x === s] for a string [s]. *)
Definition strictEq (x : opt string) (s : string) : bool :=
  match x with Val t => bool_decide (t = s) | _ => false end.

(** [Array.isArray(x) ? x : []] and [x ?? []] on a list-valued property. *)
Definition array_or_empty {A} (x : opt (list A)) : list A := nullish x [].

(** Decimal rendering of an integer inside a template literal or by
    [String(n)].  Number-to-string prints every safe integer in full; beyond
    [MAX_SAFE_INTEGER] it may round the last digits, and from 10^21 on it
    switches to exponent notation ([1e+21]), which [show_Z] does not follow.
    A statement about the printed digits of a number taken from the data
    carries the bound [Z.abs n ≤ MAX_SAFE_INTEGER]. *)
Definition show_Z (n : Z) : string := NilZero.string_of_int (Z.to_int n).

(** [Number.MAX_SAFE_INTEGER] *)
Definition MAX_SAFE_INTEGER : Z := 2 ^ 53 - 1.

(** ** Array.prototype.sort

    [cmp a b < 0] puts [a] before [b]; elements that compare equal keep
    their order. *)

Section Sort.
Context {A : Type} (cmp : A → A → Z).

Fixpoint insertBy (x : A) (l : list A) : list A :=
  match l with
  | [] => [x]
  | y :: l' => if 0 <? cmp x y then y :: insertBy x l' else x :: l
  end.

Fixpoint sortBy (l : list A) : list A :=
  match l with
  | [] => []
  | x :: l' => insertBy x (sortBy l')
  end.

(** [a] may stand before [b]. *)
Definition before (a b : A) : Prop := cmp a b ≤ 0.
End Sort.

(** ** Speech text as UTF-16 code units *)

Definition jsstring := list N.

Module Text.
Local Open Scope N_scope.

Definition CIRCLE : N := 9675.             (* U+25CB, the speaker mark *)
Definition IDEOGRAPHIC_SPACE : N := 12288. (* U+3000 *)
Definition SPACE : N := 32.
Definition KUTEN : N := 12290.             (* U+3002, the Japanese period *)
Definition ELLIPSIS : N := 8230.           (* U+2026 *)

(** LineTerminator: LF, CR, LS, PS. *)
Definition isLineTerminator (c : N) : bool :=
  (c =? 10) || (c =? 13) || (c =? 8232) || (c =? 8233).

(** The class [\s], also the characters removed by [trim]: WhiteSpace and
    LineTerminator. *)
Definition isWhiteSpace (c : N) : bool :=
  (c =? 9) || (c =? 10) || (c =? 11) || (c =? 12) || (c =? 13) ||
  (c =? 32) || (c =? 160) || (c =? 5760) ||
  ((8192 <=? c) && (c <=? 8202)) ||
  (c =? 8232) || (c =? 8233) || (c =? 8239) || (c =? 8287) ||
  (c =? 12288) || (c =? 65279).

(** The class [[^　 ]]: anything but U+3000 and U+0020. *)
Definition isNameChar (c : N) : bool :=
  negb ((c =? IDEOGRAPHIC_SPACE) || (c =? SPACE)).

Fixpoint takeWhile (p : N → bool) (s : jsstring) : jsstring :=
  match s with
  | c :: s' => if p c then c :: takeWhile p s' else []
  | [] => []
  end.

Fixpoint dropWhile (p : N → bool) (s : jsstring) : jsstring :=
  match s with
  | c :: s' => if p c then dropWhile p s' else s
  | [] => []
  end.

(** Length of the match of [○[^　 ]+　?] at the head of [s], if any.  The
    quantifiers are greedy and nothing follows them, so the first attempt
    is the match. *)
Definition markerLength (s : jsstring) : option nat :=
  match s with
  | c :: t =>
      if c =? CIRCLE then
        let name := takeWhile isNameChar t in
        match name with
        | [] => None
        | _ :: _ =>
            let n := length name in
            match drop n t with
            | c' :: _ => if c' =? IDEOGRAPHIC_SPACE then Some (S (S n)) else Some (S n)
            | [] => Some (S n)
            end
        end
      else None
  | [] => None
  end.

(** [s.replace(/^○[^　 ]+　?/gm, "")], scanning from the left.  [skip]
    counts the characters of the current match still to drop; [atStart]
    says that the position is the start of the input or follows a line
    terminator (the flag [m]). *)
Fixpoint replaceMarkers (skip : nat) (atStart : bool) (s : jsstring) : jsstring :=
  match s with
  | [] => []
  | c :: rest =>
      match skip with
      | S k => replaceMarkers k (isLineTerminator c) rest
      | O =>
          match (if atStart then markerLength s else None) with
          | Some (S k) => replaceMarkers k (isLineTerminator c) rest
          | _ => c :: replaceMarkers 0 (isLineTerminator c) rest
          end
      end
  end.

Definition stripMarkers (s : jsstring) : jsstring := replaceMarkers 0 true s.

(** [s.replace(/\s+/g, " ")]; [inRun] says that the previous character was
    white space. *)
Fixpoint collapseFrom (inRun : bool) (s : jsstring) : jsstring :=
  match s with
  | [] => []
  | c :: rest =>
      if isWhiteSpace c then
        if inRun then collapseFrom true rest else SPACE :: collapseFrom true rest
      else c :: collapseFrom false rest
  end.

Definition collapseWhitespace (s : jsstring) : jsstring := collapseFrom false s.

Definition trimStart (s : jsstring) : jsstring := dropWhile isWhiteSpace s.
Definition trimEnd (s : jsstring) : jsstring :=
  reverse (dropWhile isWhiteSpace (reverse s)).
Definition trim (s : jsstring) : jsstring := trimEnd (trimStart s).

(** The expression shared by both summarizers:
    [text.replace(/^○[^　 ]+　?/gm, "").replace(/\s+/g, " ").trim()]. *)
Definition cleanText (s : jsstring) : jsstring :=
  trim (collapseWhitespace (stripMarkers s)).

(** [s.split(sep)] for a one-character separator. *)
Fixpoint split (sep : N) (s : jsstring) : list jsstring :=
  match s with
  | [] => [[]]
  | c :: rest =>
      if c =? sep then [] :: split sep rest
      else match split sep rest with
           | seg :: segs => (c :: seg) :: segs
           | [] => [[c]]
           end
  end.

(** [parts.join(sep)] for a one-character separator. *)
Fixpoint join (sep : N) (parts : list jsstring) : jsstring :=
  match parts with
  | [] => []
  | [p] => p
  | p :: ps => p ++ sep :: join sep ps
  end.

(** [Boolean(s)] on a string. *)
Definition nonEmpty (s : jsstring) : bool :=
  match s with [] => false | _ :: _ => true end.


End Text.

(** ** The member detail script: text summary *)

Module Summary.
Import Text.

(** [extractSummary] of the member detail script (both copies). *)
Definition extractSummary (text : opt jsstring) : jsstring :=
  match text with
  | Val ((_ :: _) as s) =>
      let clean := cleanText s in
      take 100 clean ++ (if (100 <? length clean)%nat then [ELLIPSIS] else [])
  | _ => []
  end.
End Summary.

(** ** The single-table script [hino.js]: text summary *)

Module Hino.
Import Text.

Definition extractSummary (text : opt jsstring) : jsstring :=
  match text with
  | Val ((_ :: _) as s) =>
      let clean := cleanText s in
      let parts := List.filter nonEmpty (split KUTEN clean) in
      let firstTwo := join KUTEN (take 2 parts) in
      trim (if nonEmpty firstTwo then firstTwo ++ [KUTEN] else clean)
  | _ => []
  end.
End Hino.

(** ** Data model of the member detail script *)

Record SpeechRecord := {
  sr_date : opt string;
  sr_nameOfMeeting : opt string;
  sr_issue : opt string;
  sr_issueID : opt string;
  sr_session : opt Z;
  sr_speechOrder : opt Z;
  sr_speech : opt jsstring;
  sr_speechURL : opt string;
  sr_meetingURL : opt string;
  sr_speakerGroup : opt string
}.

(** A meeting of the pre-grouped payload, as fetched. *)
Record Meeting := {
  mt_date : opt string;
  mt_meetingName : opt string;
  mt_nameOfMeeting : opt string;
  mt_issue : opt string;
  mt_session : opt Z;
  mt_speeches : opt (list SpeechRecord)
}.

(** A meeting group as held in [meetingGroups]. *)
Record MeetingGroup := {
  mg_date : opt string;
  mg_meetingName : opt string;
  mg_nameOfMeeting : opt string;
  mg_issue : opt string;
  mg_session : opt Z;
  mg_speeches : list SpeechRecord
}.

Record WrittenQuestion := {
  wq_title : opt string;
  wq_session : opt Z;
  wq_number : opt Z;
  wq_status : opt string;
  wq_question_html_url : opt string;
  wq_question_pdf_url : opt string;
  wq_answer_html_url : opt string;
  wq_answer_pdf_url : opt string;
  wq_matched_keywords : opt (list string)
}.

Record MemberProfile := {
  pf_slug : opt string;
  pf_member_name : opt string;
  pf_disability_league_count : opt Z;
  pf_disability_leagues : opt (list string)
}.

(** [data/member_speeches/<slug>.json]: a flat array of speech records, or
    an object with optional [member_name], [meetings], [written_questions]. *)
Inductive Payload :=
| Flat (records : list SpeechRecord)
| Grouped (member_name : opt string) (meetings : opt (list Meeting))
          (written_questions : opt (list WrittenQuestion)).

(** [data/diet_members_socials_enriched.json]: an array of profiles, or an
    object with an optional [members] array. *)
Inductive Roster :=
| RosterArray (entries : list MemberProfile)
| RosterObject (members : opt (list MemberProfile)).

(** ** Fetch outcomes *)

(** Result of [res.json()]: a thrown error with its message, or the value. *)
Inductive Body (A : Type) :=
| Malformed (message : string)
| Json (a : A).
Arguments Malformed {A} message.
Arguments Json {A} a.

(** Result of [fetch(url)]: a rejection with its message, or a response. *)
Inductive Fetched (A : Type) :=
| Rejected (message : string)
| Response (status : Z) (body : Body A).
Arguments Rejected {A} message.
Arguments Response {A} status body.

(** [res.ok] *)
Definition ok (status : Z) : bool := (200 <=? status) && (status <=? 299).

(** ** The document *)

Inductive Content :=
| Static                               (* as delivered by the page markup *)
| Text (s : string)                    (* set through [textContent] *)
| Paragraph (class text : string)      (* [<p class=...>text</p>] *)
| LeagueItems (names : list string)    (* one [<li>] per league *)
| QuestionItems (questions : list WrittenQuestion)
| MeetingCards (groups : list MeetingGroup).

Record Element := {
  hidden : bool;
  content : Content;
  attached : bool                      (* [false] after [remove()] *)
}.

Definition setHidden (h : bool) (e : Element) : Element :=
  {| hidden := h; content := content e; attached := attached e |}.
Definition setContent (c : Content) (e : Element) : Element :=
  {| hidden := hidden e; content := c; attached := attached e |}.
Definition remove (e : Element) : Element :=
  {| hidden := hidden e; content := content e; attached := false |}.

(** The elements the scripts look up, besides [speechList]. *)
Inductive Node :=
| LoadMoreButton | Placeholder | MemberNameEl | MemberMetaEl
| LeagueSection | LeagueList | LeaguePlaceholder
| QuestionsSection | QuestionsPlaceholder | QuestionsList
| SummarySection.

Global Instance Node_eq_dec : EqDecision Node.
Proof. solve_decision. Defined.

(** Script variables and document.  [speechList] is dereferenced without a
    guard by the scripts, so the pages considered contain it; every other
    element may be missing. *)
Record Page := {
  meetingGroups : list MeetingGroup;
  visibleCount : Z;
  speechList : Element;
  nodes : Node → option Element;
  title : option string;               (* [None]: as delivered *)
  console : list string                (* messages of [console.error] *)
}.

Definition setMeetingGroups (v : list MeetingGroup) (p : Page) : Page :=
  {| meetingGroups := v; visibleCount := visibleCount p; speechList := speechList p;
     nodes := nodes p; title := title p; console := console p |}.
Definition setVisibleCount (v : Z) (p : Page) : Page :=
  {| meetingGroups := meetingGroups p; visibleCount := v; speechList := speechList p;
     nodes := nodes p; title := title p; console := console p |}.
Definition setSpeechList (v : Element) (p : Page) : Page :=
  {| meetingGroups := meetingGroups p; visibleCount := visibleCount p; speechList := v;
     nodes := nodes p; title := title p; console := console p |}.
Definition setNodes (v : Node → option Element) (p : Page) : Page :=
  {| meetingGroups := meetingGroups p; visibleCount := visibleCount p;
     speechList := speechList p; nodes := v; title := title p; console := console p |}.
Definition setTitle (v : string) (p : Page) : Page :=
  {| meetingGroups := meetingGroups p; visibleCount := visibleCount p;
     speechList := speechList p; nodes := nodes p; title := Some v; console := console p |}.
Definition consoleError (message : string) (p : Page) : Page :=
  {| meetingGroups := meetingGroups p; visibleCount := visibleCount p;
     speechList := speechList p; nodes := nodes p; title := title p;
     console := console p ++ [message] |}.

(** [if (el) el.x = ...], [el?.remove()]: nothing happens when the element
    is missing. *)
Definition update (n : Node) (f : Element → Element) (p : Page) : Page :=
  setNodes (λ m, if decide (m = n) then f <$> nodes p m else nodes p m) p.

Definition exists_ (n : Node) (p : Page) : bool :=
  match nodes p n with Some _ => true | None => false end.

(** The page before any script has run. *)
Definition initialPage (list : Element) (doc : Node → option Element) : Page :=
  {| meetingGroups := []; visibleCount := 0; speechList := list; nodes := doc;
     title := None; console := [] |}.

(** ** Map, as used by [groupByMeeting]: insertion ordered *)

Definition JsMap (V : Type) := list (string * V).

Fixpoint map_has {V} (k : string) (m : JsMap V) : bool :=
  match m with
  | [] => false
  | (k', _) :: m' => if decide (k' = k) then true else map_has k m'
  end.

(** [map.set(k, v)]: replaces in place, or appends. *)
Fixpoint map_set {V} (k : string) (v : V) (m : JsMap V) : JsMap V :=
  match m with
  | [] => [(k, v)]
  | (k', v') :: m' => if decide (k' = k) then (k, v) :: m' else (k', v') :: map_set k v m'
  end.

(** Mutation of the object returned by [map.get(k)]. *)
Fixpoint map_mutate {V} (k : string) (f : V → V) (m : JsMap V) : JsMap V :=
  match m with
  | [] => []
  | (k', v') :: m' => if decide (k' = k) then (k', f v') :: m' else (k', v') :: map_mutate k f m'
  end.

Definition map_values {V} (m : JsMap V) : list V := m.*2.

Definition PAGE_SIZE : Z := 5.

(** [l.slice(0, e)] *)
Definition slice0 {A} (e : Z) (l : list A) : list A :=
  take (Z.to_nat (if e <? 0 then Z.max 0 (Z.of_nat (length l) + e) else e)) l.

(** ** The member detail script (current version) *)

Module Member.
Section Script.
(** [params.get('slug')] and the host's [a.localeCompare(b)]. *)
Variable slug : option string.
Variable localeCompare : string → string → Z.

(** The comparison function [(a, b) => (b.date || "").localeCompare(a.date || "")]. *)
Definition byDateDesc (a b : MeetingGroup) : Z :=
  localeCompare (str_or (mg_date b) "") (str_or (mg_date a) "").

(** [record.issueID || `${record.date}_${record.nameOfMeeting}_${record.issue}`] *)
Definition keyOf (record : SpeechRecord) : string :=
  str_or (sr_issueID record)
    (template (sr_date record) +:+ "_" +:+ template (sr_nameOfMeeting record)
       +:+ "_" +:+ template (sr_issue record)).

Definition newGroup (record : SpeechRecord) : MeetingGroup :=
  {| mg_date := Val (nullish (sr_date record) "");
     mg_meetingName := Val (nullish (sr_nameOfMeeting record) "会議名不明");
     mg_nameOfMeeting := Undefined;
     mg_issue := Val (nullish (sr_issue record) "");
     mg_session := sr_session record;
     mg_speeches := [] |}.

(** [group.speeches.push(record)] *)
Definition push (record : SpeechRecord) (g : MeetingGroup) : MeetingGroup :=
  {| mg_date := mg_date g; mg_meetingName := mg_meetingName g;
     mg_nameOfMeeting := mg_nameOfMeeting g; mg_issue := mg_issue g;
     mg_session := mg_session g; mg_speeches := mg_speeches g ++ [record] |}.

(** Body of the [forEach] in [groupByMeeting]. *)
Definition addRecord (map : JsMap MeetingGroup) (record : SpeechRecord) : JsMap MeetingGroup :=
  let key := keyOf record in
  let map := if map_has key map then map else map_set key (newGroup record) map in
  map_mutate key (push record) map.

Definition groupByMeeting (records : list SpeechRecord) : list MeetingGroup :=
  sortBy byDateDesc (map_values (fold_left addRecord records [])).

(** [{ ...meeting, speeches: meeting.speeches ?? [] }] *)
Definition toGroup (m : Meeting) : MeetingGroup :=
  {| mg_date := mt_date m; mg_meetingName := mt_meetingName m;
     mg_nameOfMeeting := mt_nameOfMeeting m; mg_issue := mt_issue m;
     mg_session := mt_session m; mg_speeches := nullish (mt_speeches m) [] |}.

(** The comparison function of [renderMeetingCard]:
    [(a, b) => (a.speechOrder ?? 0) - (b.speechOrder ?? 0)]. *)
Definition bySpeechOrder (a b : SpeechRecord) : Z :=
  nullish (sr_speechOrder a) 0 - nullish (sr_speechOrder b) 0.

(** [renderMeetingCard] sorts [group.speeches] in place; the card shows the
    group with its speeches in that order. *)
Definition renderMeetingCard (g : MeetingGroup) : MeetingGroup :=
  {| mg_date := mg_date g; mg_meetingName := mg_meetingName g;
     mg_nameOfMeeting := mg_nameOfMeeting g; mg_issue := mg_issue g;
     mg_session := mg_session g; mg_speeches := sortBy bySpeechOrder (mg_speeches g) |}.

Definition renderVisibleGroups (p : Page) : Page :=
  let slice := slice0 (visibleCount p) (meetingGroups p) in
  let cards := renderMeetingCard <$> slice in
  let p := setMeetingGroups (cards ++ drop (length slice) (meetingGroups p)) p in
  setSpeechList (setContent (MeetingCards cards) (speechList p)) p.

Definition hasMore (p : Page) : bool :=
  visibleCount p <? Z.of_nat (length (meetingGroups p)).

Definition updateLoadMoreButton (p : Page) : Page :=
  if negb (exists_ LoadMoreButton p) then p
  else if Z.of_nat (length (meetingGroups p)) <=? PAGE_SIZE then
    update LoadMoreButton (setHidden true) p
  else
    let p := update LoadMoreButton (setHidden (negb (hasMore p))) p in
    if hasMore p then update LoadMoreButton (setContent (Text "もっと読む")) p else p.

(** The click listener of the load-more button. *)
Definition onLoadMoreClick (p : Page) : Page :=
  if negb (exists_ LoadMoreButton p) then p
  else
    let p := setVisibleCount
               (Z.min (visibleCount p + PAGE_SIZE) (Z.of_nat (length (meetingGroups p)))) p in
    updateLoadMoreButton (renderVisibleGroups p).

Definition renderDisabilityLeagues (leagues : list string) (p : Page) : Page :=
  if negb (exists_ LeagueSection p) || negb (exists_ LeagueList p) then p
  else
    let p := update LeagueSection (setHidden false) p in
    match leagues with
    | [] =>
        let p := update LeaguePlaceholder (setContent (Text "該当する議連はありません。")) p in
        update LeagueList (setHidden true) p
    | _ :: _ =>
        let p := update LeaguePlaceholder remove p in
        let p := update LeagueList (setHidden false) p in
        update LeagueList (setContent (LeagueItems leagues)) p
    end.

(** The comparison function of [renderWrittenQuestions]. *)
Definition byQuestionOrder (a b : WrittenQuestion) : Z :=
  let sessionDiff := nullish (wq_session b) 0 - nullish (wq_session a) 0 in
  if negb (sessionDiff =? 0) then sessionDiff
  else nullish (wq_number b) 0 - nullish (wq_number a) 0.

Definition renderWrittenQuestions (list : list WrittenQuestion) (p : Page) : Page :=
  if negb (exists_ QuestionsSection p) || negb (exists_ QuestionsList p) then p
  else
    match list with
    | [] =>
        let p := update QuestionsPlaceholder
                   (setContent (Text "該当する質問主意書はありません。")) p in
        let p := update QuestionsSection (setHidden false) p in
        update QuestionsList (setHidden true) p
    | _ :: _ =>
        let sorted := sortBy byQuestionOrder list in
        let p := update QuestionsPlaceholder remove p in
        let p := update QuestionsList (setHidden false) p in
        let p := update QuestionsSection (setHidden false) p in
        update QuestionsList (setContent (QuestionItems sorted)) p
    end.

(** [profile?.f] *)
Definition prop {A} (profile : option MemberProfile) (f : MemberProfile → opt A) : opt A :=
  match profile with Some pr => f pr | None => Undefined end.

(** [a ?? b] where [b] may itself be missing. *)
Definition orElse {A} (a b : opt A) : opt A :=
  match a with Val _ => a | _ => b end.

Definition slugValue : opt string :=
  match slug with Some s => Val s | None => Null end.

Definition speechTotal (meetings : list Meeting) : Z :=
  fold_left (λ sum meeting, sum + Z.of_nat (length (array_or_empty (mt_speeches meeting))))
    meetings 0.

(** [Array.isArray(records) ? records : records.meetings ?? []] is empty. *)
Definition noGroups (records : Payload) : bool :=
  match records with
  | Flat rs => bool_decide (rs = [])
  | Grouped _ meetings _ => bool_decide (nullish meetings [] = [])
  end.

(** The value [render] assigns to [meetingGroups]. *)
Definition groupsOf (records : Payload) : list MeetingGroup :=
  match records with
  | Flat rs => groupByMeeting rs
  | Grouped _ meetings _ => sortBy byDateDesc (toGroup <$> nullish meetings [])
  end.

(** The first statement of [render]: name, title, counts, leagues and
    questions for an object payload, the slug as name for an array. *)
Definition renderMember (records : Payload) (profile : option MemberProfile)
    (p : Page) : Page :=
  match records with
  | Grouped member_name meetings written_questions =>
      let groupData := nullish meetings [] in
      let memberName :=
        nullish (orElse member_name (orElse (prop profile pf_member_name) slugValue)) "議員" in
      let p := update MemberNameEl (setContent (Text memberName)) p in
      let p := setTitle (memberName +:+ " 障害福祉関連発言サマリー") p in
      let meetingCount := Z.of_nat (length groupData) in
      let speechCount := speechTotal groupData in
      let writtenQuestions := array_or_empty written_questions in
      let questionCount := Z.of_nat (length writtenQuestions) in
      let metaParts :=
        ["主意書: " +:+ show_Z questionCount;
         "発言数: " +:+ show_Z speechCount;
         "会議: " +:+ show_Z meetingCount]
        ++ match prop profile pf_disability_league_count with
           | Val n => ["議連: " +:+ show_Z n]
           | _ => []
           end in
      let p := update MemberMetaEl (setContent (Text (String.concat " / " metaParts))) p in
      let p := renderDisabilityLeagues
                 (array_or_empty (prop profile pf_disability_leagues)) p in
      renderWrittenQuestions writtenQuestions p
  | Flat _ =>
      match slug with
      | Some s => if decide (s = "") then p else update MemberNameEl (setContent (Text s)) p
      | None => p
      end
  end.

Definition render (records : Payload) (profile : option MemberProfile) (p : Page) : Page :=
  let p := renderMember records profile p in
  if noGroups records then
    let p := update Placeholder (setContent (Text "該当する発言がありませんでした。")) p in
    let p := setMeetingGroups [] p in
    update LoadMoreButton (setHidden true) p
  else
    let p := update Placeholder remove p in
    let p := setSpeechList (setHidden false (speechList p)) p in
    let p := setMeetingGroups (groupsOf records) p in
    let p := setVisibleCount (Z.min PAGE_SIZE (Z.of_nat (length (meetingGroups p)))) p in
    updateLoadMoreButton (renderVisibleGroups p).

Definition renderFallback (profile : option MemberProfile) (p : Page) : Page :=
  let memberName := nullish (orElse (prop profile pf_member_name) slugValue) "議員" in
  let p := update MemberNameEl (setContent (Text memberName)) p in
  let p := setTitle (memberName +:+ " 障害福祉関連サマリー") p in
  let parts :=
    match prop profile pf_disability_league_count with
    | Val n => ["議連: " +:+ show_Z n]
    | _ => []
    end in
  let p := update MemberMetaEl
             (setContent (Text match parts with
                               | [] => "国会発言データが未登録です。"
                               | _ :: _ => String.concat " / " parts
                               end)) p in
  let p := renderDisabilityLeagues (array_or_empty (prop profile pf_disability_leagues)) p in
  let p := update QuestionsSection (setHidden true) p in
  let p := update SummarySection
             (setContent (Paragraph "placeholder"
                "この議員の障害福祉関連発言データはまだ登録されていません。")) p in
  let p := update Placeholder remove p in
  update LoadMoreButton (setHidden true) p.

(** The [catch] block of [loadData]. *)
Definition failed (message : string) (p : Page) : Page :=
  let p := consoleError message p in
  update Placeholder (setContent (Text ("読み込みに失敗しました: " +:+ message))) p.

(** [Array.isArray(rosterPayload) ? rosterPayload : rosterPayload.members ?? []] *)
Definition rosterList (rosterPayload : Roster) : list MemberProfile :=
  match rosterPayload with
  | RosterArray entries => entries
  | RosterObject members => nullish members []
  end.

(** [rosterList.find((entry) => entry.slug === slug)] *)
Definition findProfile (s : string) (rosterPayload : Roster) : option MemberProfile :=
  List.find (λ entry, strictEq (pf_slug entry) s) (rosterList rosterPayload).

(** [loadData], given how the two fetches settle.  The roster fetch carries
    [.catch(() => null)]. *)
Definition loadData (speechRes : Fetched Payload) (rosterRes : Fetched Roster)
    (p : Page) : Page :=
  match slug with
  | None => update Placeholder (setContent (Text "議員が指定されていません。")) p
  | Some s =>
      if decide (s = "") then
        update Placeholder (setContent (Text "議員が指定されていません。")) p
      else
        match speechRes with
        | Rejected message => failed message p
        | Response status body =>
            let memberProfile : Body (option MemberProfile) :=
              match rosterRes with
              | Rejected _ => Json None
              | Response rosterStatus rosterBody =>
                  if ok rosterStatus then
                    match rosterBody with
                    | Malformed message => Malformed message
                    | Json rosterPayload => Json (findProfile s rosterPayload)
                    end
                  else Json None
              end in
            match memberProfile with
            | Malformed message => failed message p
            | Json memberProfile =>
                if status =? 404 then renderFallback memberProfile p
                else if negb (ok status) then failed ("HTTP " +:+ show_Z status) p
                else
                  match body with
                  | Malformed message => failed message p
                  | Json payload => render payload memberProfile p
                  end
            end
        end
  end.
End Script.
End Member.

(** ** The older copy of the member detail script

    It has no roster and no league or question sections.  [groupByMeeting],
    [renderMeetingCard], [renderVisibleGroups] and [extractSummary] have the
    same text in both copies. *)

Module MemberLegacy.
Section Script.
Variable slug : option string.
Variable localeCompare : string → string → Z.

Definition updateLoadMoreButton (p : Page) : Page :=
  if negb (exists_ LoadMoreButton p) then p
  else
    let p := update LoadMoreButton (setHidden (negb (Member.hasMore p))) p in
    if Member.hasMore p then update LoadMoreButton (setContent (Text "もっと読む")) p else p.

Definition onLoadMoreClick (p : Page) : Page :=
  if negb (exists_ LoadMoreButton p) then p
  else
    let p := setVisibleCount
               (Z.min (visibleCount p + PAGE_SIZE) (Z.of_nat (length (meetingGroups p)))) p in
    updateLoadMoreButton (Member.renderVisibleGroups p).

Definition renderMember (records : Payload) (p : Page) : Page :=
  match records with
  | Grouped member_name meetings _ =>
      let groupData := nullish meetings [] in
      let memberName := nullish (Member.orElse member_name (Member.slugValue slug)) "議員" in
      let p := update MemberNameEl (setContent (Text memberName)) p in
      let p := setTitle (memberName +:+ " 障害福祉関連発言サマリー") p in
      let meetingCount := Z.of_nat (length groupData) in
      let speechCount := Member.speechTotal groupData in
      update MemberMetaEl
        (setContent (Text ("発言数: " +:+ show_Z speechCount +:+ " / 会議: "
                             +:+ show_Z meetingCount))) p
  | Flat _ =>
      match slug with
      | Some s => if decide (s = "") then p else update MemberNameEl (setContent (Text s)) p
      | None => p
      end
  end.

Definition render (records : Payload) (p : Page) : Page :=
  let p := renderMember records p in
  if Member.noGroups records then
    update Placeholder (setContent (Text "該当する発言がありませんでした。")) p
  else
    let p := update Placeholder remove p in
    let p := setSpeechList (setHidden false (speechList p)) p in
    let p := setMeetingGroups (Member.groupsOf localeCompare records) p in
    let p := setVisibleCount (Z.min PAGE_SIZE (Z.of_nat (length (meetingGroups p)))) p in
    updateLoadMoreButton (Member.renderVisibleGroups p).

Definition loadData (res : Fetched Payload) (p : Page) : Page :=
  match slug with
  | None => update Placeholder (setContent (Text "議員が指定されていません。")) p
  | Some s =>
      if decide (s = "") then
        update Placeholder (setContent (Text "議員が指定されていません。")) p
      else
        match res with
        | Rejected message => Member.failed message p
        | Response status body =>
            if status =? 404 then
              update Placeholder (setContent (Text "データが見つかりませんでした。")) p
            else if negb (ok status) then Member.failed ("HTTP " +:+ show_Z status) p
            else
              match body with
              | Malformed message => Member.failed message p
              | Json payload => render payload p
              end
        end
  end.
End Script.
End MemberLegacy.

(** ** Page sessions

    [loadData] is started once when the script is evaluated and completes
    later; the click listener is installed at evaluation time.  A session is
    any number of clicks, the completion of [loadData], and again any number
    of clicks. *)

Fixpoint clicks (click : Page → Page) (n : nat) (p : Page) : Page :=
  match n with
  | O => p
  | S n' => clicks click n' (click p)
  end.

Inductive Reachable (slug : option string) (localeCompare : string → string → Z)
    (list : Element) (doc : Node → option Element) : Page → Prop :=
| reach_loading n :
    Reachable slug localeCompare list doc
      (clicks (Member.onLoadMoreClick) n (initialPage list doc))
| reach_loaded n m speechRes rosterRes :
    Reachable slug localeCompare list doc
      (clicks (Member.onLoadMoreClick) m
         (Member.loadData slug localeCompare speechRes rosterRes
            (clicks (Member.onLoadMoreClick) n (initialPage list doc)))).

(** A concrete collation: comparison of the strings byte by byte. *)
Definition compareBytes (a b : string) : Z :=
  match String.compare a b with
  | Lt => -1
  | Eq => 0
  | Gt => 1
  end.

(** A consistent comparator, as [Array.prototype.sort] expects it: swapping
    the arguments flips the sign, and "not after" is transitive. *)
Record Consistent {A} (cmp : A → A → Z) : Prop := {
  consistent_antisym : ∀ a b, Z.sgn (cmp b a) = - Z.sgn (cmp a b);
  consistent_trans : ∀ a b c, cmp a b ≤ 0 → cmp b c ≤ 0 → cmp a c ≤ 0
}.

(** What the scripts rely on from [localeCompare]: it is a consistent
    comparator, and nothing collates before the empty string. *)
Record Collation (localeCompare : string → string → Z) : Prop := {
  collate_consistent : Consistent localeCompare;
  collate_empty : ∀ a, 0 ≤ localeCompare a ""
}.

(** Order of the rendered question list: session descending, then number
    descending, a missing session or number counting as 0. *)
Definition questionOrder (a b : WrittenQuestion) : Prop :=
  nullish (wq_session b) 0 < nullish (wq_session a) 0 ∨
  (nullish (wq_session a) 0 = nullish (wq_session b) 0 ∧
   nullish (wq_number b) 0 ≤ nullish (wq_number a) 0).

(** The map built by [groupByMeeting] after the records [rs]: its keys are
    distinct, they are the keys of [rs], and each entry holds, in input
    order, the records of [rs] that have its key. *)
Definition GroupsOf (m : JsMap MeetingGroup) (rs : list SpeechRecord) : Prop :=
  NoDup m.*1
  ∧ (∀ k, k ∈ m.*1 ↔ ∃ r, r ∈ rs ∧ Member.keyOf r = k)
  ∧ Forall (λ kg, mg_speeches kg.2 = filter (λ r, Member.keyOf r = kg.1) rs) m.

(** [q] has the script variables, the console, the speech list and the set
    of elements of [p]: only the state of the other elements and the title
    may differ. *)
Definition Frame (p q : Page) : Prop :=
  meetingGroups q = meetingGroups p
  ∧ visibleCount q = visibleCount p
  ∧ console q = console p
  ∧ speechList q = speechList p
  ∧ ∀ n, exists_ n q = exists_ n p.

(** The date a group is ordered by: [group.date || ""]. *)
Definition dateKey (g : MeetingGroup) : string := str_or (mg_date g) "".

(** [l] is in date-descending order: each group's date collates at or after
    its successor's, and a group without a date is followed only by groups
    whose date collates like the empty string. *)
Definition DateDescending (localeCompare : string → string → Z)
    (l : list MeetingGroup) : Prop :=
  (∀ i a b, l !! i = Some a → l !! S i = Some b →
     0 ≤ localeCompare (dateKey a) (dateKey b))
  ∧ (∀ i j a b, (i < j)%nat → l !! i = Some a → l !! j = Some b →
       dateKey a = "" → localeCompare (dateKey b) "" = 0).

(** The cards on display are the leading groups. *)
Definition CardsLead (p : Page) : Prop :=
  ∀ cards, content (speechList p) = MeetingCards cards →
    ∃ rest, meetingGroups p = cards ++ rest.

(** A page on which [loadData] has not completed yet. *)
Definition Loading (p : Page) : Prop :=
  meetingGroups p = []
  ∧ visibleCount p = 0
  ∧ ∀ cards, content (speechList p) = MeetingCards cards → cards = [].

(** The messages of the member detail script. *)
Definition NO_SPEECHES : string := "該当する発言がありませんでした。".
Definition NOT_REGISTERED : string :=
  "この議員の障害福祉関連発言データはまだ登録されていません。".
Definition NO_LEAGUES : string := "該当する議連はありません。".

(** ** Properties of summaries *)

Module TextProps.
Import Text.
Local Open Scope N_scope.



(** [s] neither starts nor ends with white space. *)
Definition Trimmed (s : jsstring) : Prop :=
  (∀ c, head s = Some c → isWhiteSpace c = false)
  ∧ (∀ c, last s = Some c → isWhiteSpace c = false).

(** A sentence: a non-empty run without [。]. *)
Definition Sentence (s : jsstring) : Prop := s ≠ [] ∧ KUTEN ∉ s.

(** A run of [。] only. *)
Definition Periods (s : jsstring) : Prop := Forall (λ c, c = KUTEN) s.

(** The sentence variant read word for word: split on [。], keep the first
    two segments, re-join with [。] and a trailing [。]. *)
Definition firstTwoSegments (clean : jsstring) : jsstring :=
  join KUTEN (take 2 (split KUTEN clean)) ++ [KUTEN].

(** The same with empty segments dropped before the first two are taken. *)
Definition firstTwoSentences (clean : jsstring) : jsstring :=
  join KUTEN (take 2 (List.filter nonEmpty (split KUTEN clean))) ++ [KUTEN].
End TextProps.

(** ** Sample data

    The two records of the scenario of the specification, a third record of
    another meeting without a date, and a page whose elements all exist. *)

Module Sample.
(** [○田中　こんにちは。次も。] *)
Definition speech1 : jsstring :=
  [9675; 30000; 20013; 12288; 12371; 12435; 12395; 12385; 12399; 12290;
   27425; 12418; 12290]%N.

(** [最初。] *)
Definition speech2 : jsstring := [26368; 21021; 12290]%N.

Definition record (issueID : opt string) (date : opt string) (order : Z)
    (speech : jsstring) : SpeechRecord :=
  {| sr_date := date; sr_nameOfMeeting := Val "厚生労働委員会"; sr_issue := Val "第3号";
     sr_issueID := issueID; sr_session := Val 213; sr_speechOrder := Val order;
     sr_speech := Val speech; sr_speechURL := Undefined; sr_meetingURL := Undefined;
     sr_speakerGroup := Undefined |}.

Definition records : list SpeechRecord :=
  [record (Val "A") (Val "2024-01-10") 2 speech1;
   record (Val "B") Undefined 1 speech2;
   record (Val "A") (Val "2024-01-10") 1 speech2].

Definition question (session number : opt Z) : WrittenQuestion :=
  {| wq_title := Val "質問"; wq_session := session; wq_number := number;
     wq_status := Undefined; wq_question_html_url := Undefined;
     wq_question_pdf_url := Undefined; wq_answer_html_url := Undefined;
     wq_answer_pdf_url := Undefined; wq_matched_keywords := Undefined |}.

Definition questions : list WrittenQuestion :=
  [question (Val 211) (Val 7); question (Val 213) Undefined; question (Val 213) (Val 12)].

Definition profile : MemberProfile :=
  {| pf_slug := Val "tanaka"; pf_member_name := Val "田中";
     pf_disability_league_count := Val 1;
     pf_disability_leagues := Val ["障害児者問題議員連盟"] |}.

Definition element : Element := {| hidden := false; content := Static; attached := true |}.

Definition page : Page := initialPage element (λ _, Some element).
End Sample.

(** ** Further notions used to state properties of the scripts *)

(** The order a card lists a speech by: [speech.speechOrder ?? 0]. *)
Definition orderOf (s : SpeechRecord) : Z := nullish (sr_speechOrder s) 0.

(** ** Comparing the two copies of the member detail script *)

(** [p'] shows the same list as [p]: the script variables, the speech list,
    the title, the console, the load-more button, the placeholder and the
    name element are the same. *)
Definition SameList (p p' : Page) : Prop :=
  meetingGroups p' = meetingGroups p
  ∧ visibleCount p' = visibleCount p
  ∧ speechList p' = speechList p
  ∧ title p' = title p
  ∧ console p' = console p
  ∧ nodes p' LoadMoreButton = nodes p LoadMoreButton
  ∧ nodes p' Placeholder = nodes p Placeholder
  ∧ nodes p' MemberNameEl = nodes p MemberNameEl.

(** ** The speech items of a card

    [renderSpeechItem] has the same text in both copies of the member detail
    script. *)

Record SpeechItem := {
  si_order : option string;            (* the label of the order link, if shown *)
  si_href : string;
  si_summary : option jsstring         (* [None]: the placeholder 要旨未整備 *)
}.

(** The character [0]. *)
Definition ZERO_DIGIT : Ascii.ascii :=
  Ascii.Ascii false false false false true true false false.

(** [s.padStart(targetLength, fill)] for a one-character [fill]. *)
Fixpoint repeatChar (n : nat) (fill : Ascii.ascii) : string :=
  match n with
  | O => ""
  | S n' => String fill (repeatChar n' fill)
  end.

Definition padStart (targetLength : nat) (fill : Ascii.ascii) (s : string) : string :=
  repeatChar (targetLength - String.length s) fill +:+ s.

Definition renderSpeechItem (speech : SpeechRecord) : SpeechItem :=
  let summary := Summary.extractSummary (sr_speech speech) in
  let order :=
    match sr_speechOrder speech with
    | Val orderValue => Some (padStart 3 ZERO_DIGIT (show_Z orderValue))
    | _ => None
    end in
  {| si_order := match order with
                 | Some label => if decide (label = "") then None else Some label
                 | None => None
                 end;
     si_href := template (sr_speechURL speech);
     si_summary := if Text.nonEmpty summary then Some summary else None |}.

(** ** The single-table script [hino.js]: loading and rendering *)

(** The value of [res.json()]: an array of speech records, or something
    else. *)
Inductive TablePayload :=
| NotArray
| Records (records : list SpeechRecord).

Record TableRow := {
  tr_date : string;
  tr_meeting : string;
  tr_issue : string;
  tr_summary : option jsstring;        (* [None]: the placeholder 要旨未整備 *)
  tr_tags : list string;
  tr_speechURL : string;
  tr_meetingURL : string
}.

(** The table is dereferenced without a guard by the script, so the pages
    considered contain it; the placeholder may be missing. *)
Record TablePage := {
  tp_placeholder : option Element;
  tp_tableHidden : bool;
  tp_rows : option (list TableRow);    (* [None]: the body as delivered *)
  tp_console : list string
}.

Module HinoTable.
Definition buildTagGroup (record : SpeechRecord) : list string :=
  (if truthy_str (sr_speakerGroup record) then [template (sr_speakerGroup record)] else [])
  ++ (if truthy_str (sr_nameOfMeeting record) then [template (sr_nameOfMeeting record)] else [])
  ++ match sr_session record with
     | Val session => if session =? 0 then [] else [show_Z session +:+ "回国会"]
     | _ => []
     end.

Definition renderRow (record : SpeechRecord) : TableRow :=
  let summary := Hino.extractSummary (sr_speech record) in
  {| tr_date := nullish (sr_date record) "—";
     tr_meeting := nullish (sr_nameOfMeeting record) "—";
     tr_issue := nullish (sr_issue record) "";
     tr_summary := if Text.nonEmpty summary then Some summary else None;
     tr_tags := buildTagGroup record;
     tr_speechURL := template (sr_speechURL record);
     tr_meetingURL := template (sr_meetingURL record) |}.

Definition render (records : TablePayload) (p : TablePage) : TablePage :=
  match records with
  | Records ((_ :: _) as records) =>
      {| tp_placeholder := remove <$> tp_placeholder p;
         tp_tableHidden := false;
         tp_rows := Some (renderRow <$> records);
         tp_console := tp_console p |}
  | _ =>
      {| tp_placeholder :=
           setContent (Text "該当する発言がありませんでした。") <$> tp_placeholder p;
         tp_tableHidden := tp_tableHidden p;
         tp_rows := tp_rows p;
         tp_console := tp_console p |}
  end.

(** The [catch] block of [loadData]. *)
Definition failed (message : string) (p : TablePage) : TablePage :=
  {| tp_placeholder :=
       setContent (Text ("読み込みに失敗しました: " +:+ message)) <$> tp_placeholder p;
     tp_tableHidden := tp_tableHidden p;
     tp_rows := tp_rows p;
     tp_console := tp_console p ++ [message] |}.

Definition loadData (res : Fetched TablePayload) (p : TablePage) : TablePage :=
  match res with
  | Rejected message => failed message p
  | Response status body =>
      if negb (ok status) then failed ("HTTP " +:+ show_Z status) p
      else
        match body with
        | Malformed message => failed message p
        | Json records => render records p
        end
  end.
End HinoTable.

(** ** Transcripts: lines that open with a speaker marker *)

Module Transcript.
Import Text.
Definition LINE_FEED : N := 10.

(** A line [○name　content]. *)
Definition speakerLine (name content : jsstring) : jsstring :=
  CIRCLE :: name ++ IDEOGRAPHIC_SPACE :: content.

(** The lines, each with its marker, joined by line feeds. *)
Definition text (lines : list (jsstring * jsstring)) : jsstring :=
  join LINE_FEED ((λ line, speakerLine line.1 line.2) <$> lines).

(** The lines without their markers. *)
Definition contents (lines : list (jsstring * jsstring)) : jsstring :=
  join LINE_FEED (snd <$> lines).

(** A name is not empty and has neither U+3000 nor U+0020; the content has
    no [○]. *)
Definition WellFormed (line : jsstring * jsstring) : Prop :=
  line.1 ≠ [] ∧ Forall (λ c, isNameChar c = true) line.1 ∧ (CIRCLE ∉ line.2).
End Transcript.

(** ** Map with keys of any type, as used by the members directory *)

Section KeyedMap.
Context {K V : Type} `{EqDecision K}.

Fixpoint kmap_has (k : K) (m : list (K * V)) : bool :=
  match m with
  | [] => false
  | (k', _) :: m' => if decide (k' = k) then true else kmap_has k m'
  end.

(** [map.set(k, v)]: replaces in place, or appends. *)
Fixpoint kmap_set (k : K) (v : V) (m : list (K * V)) : list (K * V) :=
  match m with
  | [] => [(k, v)]
  | (k', v') :: m' => if decide (k' = k) then (k, v) :: m' else (k', v') :: kmap_set k v m'
  end.

(** Mutation of the object returned by [map.get(k)]. *)
Fixpoint kmap_mutate (k : K) (f : V → V) (m : list (K * V)) : list (K * V) :=
  match m with
  | [] => []
  | (k', v') :: m' =>
      if decide (k' = k) then (k', f v') :: m' else (k', v') :: kmap_mutate k f m'
  end.

(** [map.get(k)] *)
Fixpoint kmap_get (k : K) (m : list (K * V)) : option V :=
  match m with
  | [] => None
  | (k', v') :: m' => if decide (k' = k) then Some v' else kmap_get k m'
  end.
End KeyedMap.

(** ** The members directory script

    [groupByPartyAndChamber], [sortChambers] and the member order of
    [renderMembers] have the same text in both copies of the script; the
    search filter and the [open] attribute are those of the newer copy. *)

Record DietMember := {
  dm_member_name : opt jsstring;
  dm_kana : opt jsstring;
  dm_party : opt jsstring;
  dm_chamber : opt jsstring;
  dm_profile_url : opt jsstring;
  dm_homepage : opt jsstring;
  dm_slug : opt jsstring;
  dm_socials : opt (list (string * opt jsstring))   (* [{ platform, url }] *)
}.

(** The value of a party in [partyMap]. *)
Record PartyEntry := {
  pe_count : Z;
  pe_chambers : list (jsstring * list DietMember)
}.

(** A chamber table and a party block of the rendered directory. *)
Record ChamberSection := {
  cs_name : jsstring;
  cs_count : Z;                        (* [members.length] in the header *)
  cs_rows : list DietMember            (* one table row per member *)
}.

Record PartySection := {
  ps_name : jsstring;
  ps_count : Z;
  ps_open : bool;
  ps_chambers : list ChamberSection
}.

(** [resultsContainer.innerHTML] *)
Inductive Results :=
| NoMatch                              (* the no-match notice *)
| Sections (sections : list PartySection).

Module Directory.
Definition DEFAULT_PARTY : jsstring := [25152; 23646; 26410; 30906; 35469]%N. (* 所属未確認 *)
Definition NO_CHAMBER : jsstring := [38498; 24773; 22577; 12394; 12375]%N.    (* 院情報なし *)
Definition SHUGIIN : jsstring := [34886; 35696; 38498]%N.                     (* 衆議院 *)
Definition SANGIIN : jsstring := [21442; 35696; 38498]%N.                     (* 参議院 *)

(** [(member.party && member.party.trim()) || DEFAULT_PARTY] *)
Definition partyKey (member : DietMember) : jsstring :=
  match dm_party member with
  | Val ((_ :: _) as party) =>
      match Text.trim party with
      | [] => DEFAULT_PARTY
      | (_ :: _) as trimmed => trimmed
      end
  | _ => DEFAULT_PARTY
  end.

(** [member.chamber ?? '院情報なし'] *)
Definition chamberKey (member : DietMember) : jsstring :=
  nullish (dm_chamber member) NO_CHAMBER.

(** The chamber part of the [forEach] body: the member is pushed to the
    array of its chamber, created on first use. *)
Definition addToChamber (chambers : list (jsstring * list DietMember)) (member : DietMember)
    : list (jsstring * list DietMember)%type :=
  let key := chamberKey member in
  let chambers := if kmap_has key chambers then chambers else kmap_set key [] chambers in
  kmap_mutate key (λ members, members ++ [member]) chambers.

(** Body of the [forEach] in [groupByPartyAndChamber]. *)
Definition addMember (partyMap : list (jsstring * PartyEntry)) (member : DietMember)
    : list (jsstring * PartyEntry) :=
  let key := partyKey member in
  let partyMap :=
    if kmap_has key partyMap then partyMap
    else kmap_set key {| pe_count := 0; pe_chambers := [] |} partyMap in
  kmap_mutate key
    (λ partyEntry, {| pe_count := pe_count partyEntry + 1;
                      pe_chambers := addToChamber (pe_chambers partyEntry) member |})
    partyMap.

(** [a.kana ?? a.member_name ?? ''] *)
Definition sortName (member : DietMember) : jsstring :=
  nullish (Member.orElse (dm_kana member) (dm_member_name member)) [].

(** [rank.has(a) ? rank.get(a) : 99] *)
Definition rank (a : jsstring) : Z :=
  if decide (a = SHUGIIN) then 0 else if decide (a = SANGIIN) then 1 else 99.

(** [Boolean(searchInput?.value.trim())]; [None] when the page has no search
    box. *)
Definition hasSearchTerm (searchValue : option jsstring) : bool :=
  match searchValue with
  | Some value => Text.nonEmpty (Text.trim value)
  | None => false
  end.

(** [s.startsWith(term)] and [s.includes(term)] *)
Fixpoint startsWith (s term : jsstring) : bool :=
  match term, s with
  | [], _ => true
  | a :: term', b :: s' => (a =? b)%N && startsWith s' term'
  | _ :: _, [] => false
  end.

Fixpoint includes (s term : jsstring) : bool :=
  startsWith s term || match s with [] => false | _ :: s' => includes s' term end.

(** [[...].filter(Boolean)] on string-valued properties. *)
Definition truthyStrings (fields : list (opt jsstring)) : list jsstring :=
  omap (λ field, match field with Val ((_ :: _) as s) => Some s | _ => None end) fields.

Section Script.
(** The host's [collator.compare] and [String.prototype.toLowerCase]. *)
Variable compare : jsstring → jsstring → Z.
Variable toLowerCase : jsstring → jsstring.

Definition byPartyName (a b : jsstring * PartyEntry) : Z := compare a.1 b.1.

Definition groupByPartyAndChamber (list : list DietMember) :=
  (λ entry, (entry.1, pe_chambers entry.2, pe_count entry.2))
    <$> sortBy byPartyName (fold_left addMember list []).

(** The comparison function of [sortChambers]. *)
Definition byChamber (a b : jsstring * list DietMember) : Z :=
  let ra := rank a.1 in
  let rb := rank b.1 in
  if negb (ra =? rb) then ra - rb else compare a.1 b.1.

Definition sortChambers (entries : list (jsstring * list DietMember))
    : list (jsstring * list DietMember) :=
  sortBy byChamber entries.

(** The comparison function of the member sort in [renderMembers]. *)
Definition byName (a b : DietMember) : Z := compare (sortName a) (sortName b).

Definition renderChamber (entry : jsstring * list DietMember) : ChamberSection :=
  let sortedMembers := sortBy byName entry.2 in
  {| cs_name := entry.1;
     cs_count := Z.of_nat (length sortedMembers);
     cs_rows := sortedMembers |}.

Definition renderParty (searchValue : option jsstring)
    (group : (jsstring * list (jsstring * list DietMember) * Z)%type) : PartySection :=
  {| ps_name := group.1.1;
     ps_count := group.2;
     ps_open := hasSearchTerm searchValue;
     ps_chambers := renderChamber <$> sortChambers group.1.2 |}.

Definition renderMembers (searchValue : option jsstring) (list : list DietMember) : Results :=
  match list with
  | [] => NoMatch
  | _ :: _ => Sections (renderParty searchValue <$> groupByPartyAndChamber list)
  end.

(** The text a member is searched in. *)
Definition haystack (member : DietMember) : jsstring :=
  toLowerCase
    (Text.join Text.SPACE
       (truthyStrings [dm_member_name member; dm_kana member; dm_party member;
                       dm_profile_url member; dm_slug member])).

(** [filterMembers], the listener of the search box, given its value. *)
Definition filterMembers (searchValue : jsstring) (members : list DietMember) : Results :=
  let term := toLowerCase (Text.trim searchValue) in
  let filtered :=
    List.filter (λ member, if Text.nonEmpty term then includes (haystack member) term
                           else true) members in
  renderMembers (Some searchValue) filtered.
End Script.

(** [Object.fromEntries((member.socials ?? []).map((item) => [item.platform, item.url]))] *)
Definition socialsOf (member : DietMember) : list (string * opt jsstring) :=
  fold_left (λ obj item, kmap_set item.1 item.2 obj) (nullish (dm_socials member) []) [].

(** [socials[column.key]] *)
Definition socialUrl (member : DietMember) (key : string) : opt jsstring :=
  match kmap_get key (socialsOf member) with
  | Some url => url
  | None => Undefined
  end.
End Directory.

(** The members listed by the directory, in display order, and the head
    counts it shows. *)
Definition rowsOfParty (s : PartySection) : list DietMember :=
  concat (cs_rows <$> ps_chambers s).

Definition listedMembers (r : Results) : list DietMember :=
  match r with
  | NoMatch => []
  | Sections sections => concat (rowsOfParty <$> sections)
  end.

(** A concrete collation of code-unit strings: by the first differing code
    unit, a proper prefix first. *)
Fixpoint compareUnits (a b : jsstring) : Z :=
  match a, b with
  | [], [] => 0
  | [], _ :: _ => -1
  | _ :: _, [] => 1
  | x :: a', y :: b' =>
      match (x ?= y)%N with
      | Lt => -1
      | Gt => 1
      | Eq => compareUnits a' b'
      end
  end.

(** A concrete [toLowerCase]: the letters A to Z are lowered, every other
    code unit is kept. *)
Definition lowerUnits (s : jsstring) : jsstring :=
  (λ c, if ((65 <=? c) && (c <=? 90))%N then (c + 32)%N else c) <$> s.

(** ** Loading the members directory (newer copy) *)

(** An entry of [data/member_speeches_index.json]. *)
Record Stats := {
  st_speeches : opt Z;
  st_written_questions : opt Z
}.

(** [data/diet_members_socials_enriched.json], as the directory reads it. *)
Inductive RollPayload :=
| RollArray (entries : list DietMember)
| RollObject (members : opt (list DietMember)).

(** [resultsContainer.innerHTML] over the life of the page. *)
Inductive ResultsContent :=
| AsDelivered
| Rendered (results : Results)
| LoadFailed (message : string).       (* the failure paragraph *)

(** Script variables, results container and console of the directory page.
    [dp_searchValue] is the value of the search box, [None] when the page
    has none. *)
Record DirectoryPage := {
  dp_members : list DietMember;
  dp_speechStats : list (jsstring * Stats);
  dp_searchValue : option jsstring;
  dp_results : ResultsContent;
  dp_console : list string
}.

Module DirectoryLoad.
Section Script.
Variable compare : jsstring → jsstring → Z.
Variable toLowerCase : jsstring → jsstring.

(** [member.slug ? speechStats[member.slug] : undefined] *)
Definition statsOf (speechStats : list (jsstring * Stats)) (member : DietMember)
    : option Stats :=
  match dm_slug member with
  | Val ((_ :: _) as slug) => kmap_get slug speechStats
  | _ => None
  end.

(** The count cells of a member row: [None] is the dash shown for a count
    that is missing or 0. *)
Definition countCell (count : opt Z) : option Z :=
  let count := nullish count 0 in
  if count =? 0 then None else Some count.

Definition speechCountCell (speechStats : list (jsstring * Stats)) (member : DietMember)
    : option Z :=
  countCell (match statsOf speechStats member with
             | Some stats => st_speeches stats
             | None => Undefined
             end).

Definition questionCountCell (speechStats : list (jsstring * Stats)) (member : DietMember)
    : option Z :=
  countCell (match statsOf speechStats member with
             | Some stats => st_written_questions stats
             | None => Undefined
             end).

(** The [catch] block of [loadMembers]. *)
Definition failed (message : string) (p : DirectoryPage) : DirectoryPage :=
  {| dp_members := dp_members p; dp_speechStats := dp_speechStats p;
     dp_searchValue := dp_searchValue p;
     dp_results := LoadFailed message;
     dp_console := dp_console p ++ [message] |}.

Definition setMembers (members : list DietMember) (p : DirectoryPage) : DirectoryPage :=
  {| dp_members := members; dp_speechStats := dp_speechStats p;
     dp_searchValue := dp_searchValue p; dp_results := dp_results p;
     dp_console := dp_console p |}.

Definition setSpeechStats (speechStats : list (jsstring * Stats)) (p : DirectoryPage)
    : DirectoryPage :=
  {| dp_members := dp_members p; dp_speechStats := speechStats;
     dp_searchValue := dp_searchValue p; dp_results := dp_results p;
     dp_console := dp_console p |}.

Definition setResults (results : Results) (p : DirectoryPage) : DirectoryPage :=
  {| dp_members := dp_members p; dp_speechStats := dp_speechStats p;
     dp_searchValue := dp_searchValue p; dp_results := Rendered results;
     dp_console := dp_console p |}.

(** [loadMembers], given how the two fetches settle.  The index fetch
    carries [.catch(() => null)]; the body of the index is
    [indexPayload?.index]. *)
Definition loadMembers (membersRes : Fetched RollPayload)
    (indexRes : Fetched (opt (list (jsstring * Stats)))) (p : DirectoryPage)
    : DirectoryPage :=
  match membersRes with
  | Rejected message => failed message p
  | Response status body =>
      if negb (ok status) then failed ("HTTP " +:+ show_Z status) p
      else
        match body with
        | Malformed message => failed message p
        | Json payload =>
            let p := setMembers match payload with
                                | RollArray entries => entries
                                | RollObject members => nullish members []
                                end p in
            let speechStats : Body (list (jsstring * Stats)) :=
              match indexRes with
              | Rejected _ => Json []
              | Response indexStatus indexBody =>
                  if ok indexStatus then
                    match indexBody with
                    | Malformed message => Malformed message
                    | Json index => Json (nullish index [])
                    end
                  else Json []
              end in
            match speechStats with
            | Malformed message => failed message p
            | Json speechStats =>
                let p := setSpeechStats speechStats p in
                setResults (Directory.renderMembers compare (dp_searchValue p) (dp_members p)) p
            end
        end
  end.

(** The listener of the search box: the box then exists and has the value
    [searchValue]. *)
Definition onSearchInput (searchValue : jsstring) (p : DirectoryPage) : DirectoryPage :=
  {| dp_members := dp_members p; dp_speechStats := dp_speechStats p;
     dp_searchValue := Some searchValue;
     dp_results :=
       Rendered (Directory.filterMembers compare toLowerCase searchValue (dp_members p));
     dp_console := dp_console p |}.
End Script.
End DirectoryLoad.

(** ** More sample data

    Twelve records of twelve meetings held on one day, and a small roll of
    members. *)

Module Archive.
Definition record (i : Z) : SpeechRecord :=
  Sample.record (Val ("M" +:+ show_Z i)) (Val "2024-01-10") i Sample.speech2.

Definition records : list SpeechRecord := record <$> seqZ 1 12.

Definition meeting (i : Z) : Meeting :=
  {| mt_date := Val "2024-01-10"; mt_meetingName := Val "厚生労働委員会";
     mt_nameOfMeeting := Undefined; mt_issue := Val "第3号"; mt_session := Val 213;
     mt_speeches := Val [record i] |}.

Definition member (name party : jsstring) (chamber : opt jsstring) : DietMember :=
  {| dm_member_name := Val name; dm_kana := Undefined; dm_party := Val party;
     dm_chamber := chamber; dm_profile_url := Undefined; dm_homepage := Undefined;
     dm_slug := Val name;
     dm_socials := Val [("x", Val [104; 116; 116; 112]%N); ("x", Val []%N)] |}.

(** Members [c], [a], [b] of the parties [B], [A] with blanks around it, [A]. *)
Definition members : list DietMember :=
  [member [99]%N [66]%N (Val Directory.SANGIIN);
   member [97]%N [32; 65; 32]%N (Val Directory.SHUGIIN);
   member [98]%N [65]%N Undefined].
End Archive.

(** * Facts *)

(** ** Sorting *)

Section SortFacts.
Context {A : Type} (cmp : A → A → Z).

Lemma insertBy_perm x l : insertBy cmp x l ≡ₚ x :: l.
Proof.
  induction l as [|y l IH]; simpl; [done|].
  destruct (0 <? cmp x y); [|done].
  rewrite IH. apply Permutation_swap.
Qed.

Lemma sortBy_perm l : sortBy cmp l ≡ₚ l.
Proof.
  induction l as [|x l IH]; simpl; [done|].
  by rewrite insertBy_perm, IH.
Qed.

Lemma length_sortBy l : length (sortBy cmp l) = length l.
Proof. by rewrite sortBy_perm. Qed.

Lemma sortBy_nil_inv l : sortBy cmp l = [] → l = [].
Proof.
  intros H. apply length_zero_iff_nil. by rewrite <- length_sortBy, H.
Qed.

Hypothesis cmp_antisym : ∀ a b, 0 < cmp a b → cmp b a ≤ 0.

Lemma insertBy_hd x y l :
  before cmp y x → HdRel (before cmp) y l → HdRel (before cmp) y (insertBy cmp x l).
Proof.
  unfold before in *. intros Hyx Hl. destruct l as [|z l]; simpl.
  - by constructor.
  - destruct (0 <? cmp x z); constructor; [by inversion Hl | done].
Qed.

Lemma insertBy_sorted x l : Sorted (before cmp) l → Sorted (before cmp) (insertBy cmp x l).
Proof.
  induction 1 as [|y l Hl IH Hhd]; simpl.
  - repeat constructor.
  - destruct (0 <? cmp x y) eqn:E.
    + apply Z.ltb_lt in E. constructor; [done|].
      apply insertBy_hd; [by apply cmp_antisym | done].
    + apply Z.ltb_ge in E. constructor; [by constructor | by constructor].
Qed.

Lemma sortBy_sorted l : Sorted (before cmp) (sortBy cmp l).
Proof.
  induction l as [|x l IH]; simpl; [constructor | by apply insertBy_sorted].
Qed.

Hypothesis cmp_trans : ∀ a b c, cmp a b ≤ 0 → cmp b c ≤ 0 → cmp a c ≤ 0.

Lemma sortBy_strongly_sorted l : StronglySorted (before cmp) (sortBy cmp l).
Proof.
  apply Sorted_StronglySorted; [|apply sortBy_sorted].
  intros a b c. apply cmp_trans.
Qed.
End SortFacts.

(** For a consistent comparator the result of a stable sort is determined:
    it is the one ordered list in which the elements that compare equal
    stand in their input order.  [sortBy] is that list. *)

Section StableSort.
Context {A : Type} (cmp : A → A → Z).
Hypothesis consistent : Consistent cmp.

Lemma consistent_refl a : cmp a a = 0.
Proof. pose proof (consistent_antisym _ consistent a a). lia. Qed.

Lemma consistent_equal z x y : cmp z x = 0 → cmp z y = 0 → cmp x y = 0.
Proof.
  intros Hx Hy.
  pose proof (consistent_antisym _ consistent z x).
  pose proof (consistent_antisym _ consistent z y).
  pose proof (consistent_antisym _ consistent x y).
  pose proof (consistent_trans _ consistent x z y).
  pose proof (consistent_trans _ consistent y z x). lia.
Qed.

Lemma insertBy_stable z x l :
  filter (λ y, cmp z y = 0) (insertBy cmp x l) = filter (λ y, cmp z y = 0) (x :: l).
Proof.
  induction l as [|y l IH]; [done|]. simpl.
  destruct (0 <? cmp x y) eqn:E; [|done]. apply Z.ltb_lt in E.
  rewrite (filter_cons _ y), IH, !filter_cons.
  repeat case_decide; try done.
  pose proof (consistent_equal z x y). lia.
Qed.

Lemma sortBy_stable z l :
  filter (λ y, cmp z y = 0) (sortBy cmp l) = filter (λ y, cmp z y = 0) l.
Proof.
  induction l as [|x l IH]; [done|]. simpl.
  by rewrite insertBy_stable, !filter_cons, IH.
Qed.

Lemma sorted_stable_unique l1 : ∀ l2,
  StronglySorted (before cmp) l1 → StronglySorted (before cmp) l2 →
  (∀ z, filter (λ y, cmp z y = 0) l1 = filter (λ y, cmp z y = 0) l2) →
  l1 = l2.
Proof.
  induction l1 as [|x l1 IH]; intros l2 H1 H2 Hf.
  - destruct l2 as [|y l2]; [done|]. specialize (Hf y).
    rewrite filter_cons_True in Hf by apply consistent_refl. done.
  - destruct l2 as [|y l2].
    { specialize (Hf x). rewrite filter_cons_True in Hf by apply consistent_refl. done. }
    apply StronglySorted_cons in H1 as [Hx H1]. apply StronglySorted_cons in H2 as [Hy H2].
    rewrite Forall_forall in Hx, Hy.
    assert (Hxy : cmp x y = 0).
    { assert (Hin1 : y ∈ x :: l1).
      { eapply (list_elem_of_filter (λ u, cmp y u = 0)). rewrite Hf.
        rewrite filter_cons_True by apply consistent_refl. apply list_elem_of_here. }
      assert (Hin2 : x ∈ y :: l2).
      { eapply (list_elem_of_filter (λ u, cmp x u = 0)). rewrite <- Hf.
        rewrite filter_cons_True by apply consistent_refl. apply list_elem_of_here. }
      assert (cmp x y ≤ 0).
      { apply elem_of_cons in Hin1 as [->|Hin1];
          [by rewrite consistent_refl | by apply Hx]. }
      assert (cmp y x ≤ 0).
      { apply elem_of_cons in Hin2 as [->|Hin2];
          [by rewrite consistent_refl | by apply Hy]. }
      pose proof (consistent_antisym _ consistent x y). lia. }
    assert (x = y) as <-.
    { pose proof (Hf x) as H.
      rewrite !filter_cons_True in H by (done || apply consistent_refl).
      by inversion H. }
    f_equal. apply IH; [done..|]. intros z. specialize (Hf z).
    rewrite !filter_cons in Hf. case_decide; [by inversion Hf | done].
Qed.

Lemma consistent_before_trans a b c :
  before cmp a b → before cmp b c → before cmp a c.
Proof. apply (consistent_trans _ consistent). Qed.

Lemma consistent_before_flip a b : 0 < cmp a b → cmp b a ≤ 0.
Proof. pose proof (consistent_antisym _ consistent a b). lia. Qed.

(** Every ordered list that keeps equal elements in input order is the
    list [sortBy] returns. *)
Theorem sortBy_unique l l' :
  StronglySorted (before cmp) l' →
  (∀ z, filter (λ y, cmp z y = 0) l' = filter (λ y, cmp z y = 0) l) →
  l' = sortBy cmp l.
Proof.
  intros Hs Hf. apply sorted_stable_unique; [done| |].
  - apply sortBy_strongly_sorted;
      [apply consistent_before_flip | apply (consistent_trans _ consistent)].
  - intros z. by rewrite sortBy_stable.
Qed.
End StableSort.

Lemma StronglySorted_lookup {A} (R : A → A → Prop) l i j a b :
  StronglySorted R l → (i < j)%nat → l !! i = Some a → l !! j = Some b → R a b.
Proof.
  intros Hl. revert i j. induction Hl as [|x l Hl IH Hall]; intros i j Hij Ha Hb; [done|].
  destruct j as [|j]; [lia|]. destruct i as [|i]; simpl in *.
  - inversion Ha; subst. rewrite Forall_forall in Hall.
    apply Hall. by eapply list_elem_of_lookup_2.
  - eapply (IH i j); [lia|done..].
Qed.

Lemma sortBy_fmap {A B} (f : A → B) (cmp : B → B → Z) (l : list A) :
  sortBy cmp (f <$> l) = f <$> sortBy (λ a b, cmp (f a) (f b)) l.
Proof.
  induction l as [|x l IH]; csimpl; [done|].
  rewrite IH. generalize (sortBy (λ a b, cmp (f a) (f b)) l). intros l'.
  induction l' as [|y l' IH']; csimpl; [done|].
  destruct (0 <? cmp (f x) (f y)); csimpl; [by rewrite IH' | done].
Qed.

(** ** Elements of the page *)

Lemma nodes_update n f p m :
  nodes (update n f p) m = if decide (m = n) then f <$> nodes p m else nodes p m.
Proof. done. Qed.

Lemma exists_update n f p m : exists_ m (update n f p) = exists_ m p.
Proof.
  unfold exists_. rewrite nodes_update. case_decide; [|done].
  by destruct (nodes p m).
Qed.

Lemma exists_setMeetingGroups n v p : exists_ n (setMeetingGroups v p) = exists_ n p.
Proof. done. Qed.

Lemma exists_setVisibleCount n v p : exists_ n (setVisibleCount v p) = exists_ n p.
Proof. done. Qed.

Lemma exists_setSpeechList n v p : exists_ n (setSpeechList v p) = exists_ n p.
Proof. done. Qed.

Lemma exists_setTitle n v p : exists_ n (setTitle v p) = exists_ n p.
Proof. done. Qed.

Lemma exists_consoleError n v p : exists_ n (consoleError v p) = exists_ n p.
Proof. done. Qed.

Create Rewrite HintDb page.
Hint Rewrite exists_update exists_setMeetingGroups exists_setVisibleCount
  exists_setSpeechList exists_setTitle exists_consoleError : page.

Lemma exists_Some n p : exists_ n p = true → ∃ e, nodes p n = Some e.
Proof. unfold exists_. destruct (nodes p n); [eauto | done]. Qed.

(** ** Written questions *)

Lemma byQuestionOrder_eq a b :
  Member.byQuestionOrder a b =
    if decide (nullish (wq_session a) 0 = nullish (wq_session b) 0)
    then nullish (wq_number b) 0 - nullish (wq_number a) 0
    else nullish (wq_session b) 0 - nullish (wq_session a) 0.
Proof.
  unfold Member.byQuestionOrder.
  destruct (_ =? 0) eqn:E; simpl; [apply Z.eqb_eq in E | apply Z.eqb_neq in E];
    case_decide; (done || lia).
Qed.

Lemma byQuestionOrder_before a b :
  before Member.byQuestionOrder a b ↔ questionOrder a b.
Proof.
  unfold before, questionOrder. rewrite byQuestionOrder_eq. case_decide; lia.
Qed.

(** C10: the rendered question list is the input list reordered by session
    descending, then number descending, with a missing session or number
    counting as 0. *)
Theorem C10_questions_sorted (list : list WrittenQuestion) (p : Page) :
  list ≠ [] →
  exists_ QuestionsSection p = true →
  exists_ QuestionsList p = true →
  ∃ e sorted,
    nodes (Member.renderWrittenQuestions list p) QuestionsList = Some e
    ∧ hidden e = false
    ∧ content e = QuestionItems sorted
    ∧ sorted ≡ₚ list
    ∧ ∀ i j a b, (i < j)%nat → sorted !! i = Some a → sorted !! j = Some b →
        questionOrder a b.
Proof.
  intros Hne Hsec Hlist. unfold Member.renderWrittenQuestions.
  rewrite Hsec, Hlist. simpl. destruct list as [|q qs]; [done|].
  destruct (exists_Some _ _ Hlist) as [e He].
  exists (setContent (QuestionItems (sortBy Member.byQuestionOrder (q :: qs)))
            (setHidden false e)), (sortBy Member.byQuestionOrder (q :: qs)).
  split; [|split; [done|split; [done|split]]].
  - rewrite !nodes_update. repeat case_decide; try done. by rewrite He.
  - apply sortBy_perm.
  - intros i j a b Hij Ha Hb. apply byQuestionOrder_before.
    eapply StronglySorted_lookup; [|done..].
    apply sortBy_strongly_sorted.
    + intros x y. rewrite !byQuestionOrder_eq. repeat case_decide; lia.
    + intros x y z. fold (before Member.byQuestionOrder x y).
      fold (before Member.byQuestionOrder y z). fold (before Member.byQuestionOrder x z).
      rewrite !byQuestionOrder_before. unfold questionOrder. lia.
Qed.

(** ** The map of [groupByMeeting] *)

Lemma map_has_elem {V} k (m : JsMap V) : map_has k m = true ↔ k ∈ m.*1.
Proof.
  induction m as [|[k' v] m IH]; csimpl.
  - split; [done | by intros ?%elem_of_nil].
  - case_decide; subst; rewrite elem_of_cons; [by split; [left|]|].
    rewrite IH. split; [by right|]. by intros [->|?].
Qed.

Lemma map_set_fresh {V} k (v : V) m : k ∉ m.*1 → map_set k v m = m ++ [(k, v)].
Proof.
  induction m as [|[k' v'] m IH]; csimpl; [done|].
  rewrite not_elem_of_cons. intros [Hne Hm].
  case_decide; [congruence|]. by rewrite IH.
Qed.

Lemma map_mutate_fresh {V} k (f : V → V) m : k ∉ m.*1 → map_mutate k f m = m.
Proof.
  induction m as [|[k' v'] m IH]; csimpl; [done|].
  rewrite not_elem_of_cons. intros [Hne Hm].
  case_decide; [congruence|]. by rewrite IH.
Qed.

Lemma map_mutate_app {V} k (f : V → V) m1 m2 :
  k ∉ m1.*1 → map_mutate k f (m1 ++ m2) = m1 ++ map_mutate k f m2.
Proof.
  induction m1 as [|[k' v'] m1 IH]; csimpl; [done|].
  rewrite not_elem_of_cons. intros [Hne Hm].
  case_decide; [congruence|]. by rewrite IH.
Qed.

Lemma map_split {V} k (m : JsMap V) :
  k ∈ m.*1 → ∃ m1 v m2, m = m1 ++ (k, v) :: m2 ∧ k ∉ m1.*1.
Proof.
  induction m as [|[k' v'] m IH]; csimpl; [by intros ?%elem_of_nil|].
  destruct (decide (k' = k)) as [->|Hne].
  - intros _. exists [], v', m. split; [done | apply not_elem_of_nil].
  - rewrite elem_of_cons. intros [?|Hin]; [congruence|].
    destruct (IH Hin) as (m1 & v & m2 & -> & Hm1).
    exists ((k', v') :: m1), v, m2. split; [done|].
    csimpl. rewrite not_elem_of_cons. split; [congruence|done].
Qed.

Lemma addRecord_hit m r :
  Member.keyOf r ∈ m.*1 →
  ∃ m1 g m2, m = m1 ++ (Member.keyOf r, g) :: m2 ∧ (Member.keyOf r ∉ m1.*1)
             ∧ Member.addRecord m r = m1 ++ (Member.keyOf r, Member.push r g) :: m2.
Proof.
  intros Hin. unfold Member.addRecord.
  rewrite (proj2 (map_has_elem _ _) Hin).
  destruct (map_split _ _ Hin) as (m1 & g & m2 & -> & Hm1).
  exists m1, g, m2. split; [done|]. split; [done|].
  rewrite map_mutate_app by done. simpl. by rewrite decide_True.
Qed.

Lemma addRecord_miss m r :
  Member.keyOf r ∉ m.*1 →
  Member.addRecord m r = m ++ [(Member.keyOf r, Member.push r (Member.newGroup r))].
Proof.
  intros Hin. unfold Member.addRecord.
  destruct (map_has _ m) eqn:E; [by apply map_has_elem in E|].
  rewrite map_set_fresh, map_mutate_app by done. simpl. by rewrite decide_True.
Qed.

Lemma GroupsOf_nil : GroupsOf [] [].
Proof.
  split; [constructor|]. split; [|constructor].
  intros k. csimpl. split; [by intros ?%elem_of_nil|].
  by intros (r & ?%elem_of_nil & _).
Qed.

Lemma key_of_entry {V} k (v : V) (m : JsMap V) : (k, v) ∈ m → k ∈ m.*1.
Proof. intros Hin. apply list_elem_of_fmap. by exists (k, v). Qed.

Lemma GroupsOf_addRecord m rs r :
  GroupsOf m rs → GroupsOf (Member.addRecord m r) (rs ++ [r]).
Proof.
  intros (Hnd & Hkeys & Hall).
  assert (Hstep : ∀ k g, mg_speeches g = filter (λ r', Member.keyOf r' = k) rs →
            k ≠ Member.keyOf r →
            mg_speeches g = filter (λ r', Member.keyOf r' = k) (rs ++ [r])).
  { intros k g Hg Hne. rewrite filter_app, filter_cons_False, filter_nil, app_nil_r; done. }
  assert (Hcover : ∀ k, k ∈ m.*1 ∨ k = Member.keyOf r ↔
            ∃ r', r' ∈ rs ++ [r] ∧ Member.keyOf r' = k).
  { intros k. rewrite Hkeys. setoid_rewrite elem_of_app.
    setoid_rewrite list_elem_of_singleton. split.
    - intros [(r' & ? & ?)| ->]; eauto.
    - intros (r' & [?| ->] & ?); eauto. }
  destruct (decide (Member.keyOf r ∈ m.*1)) as [Hin|Hout].
  - destruct (addRecord_hit _ _ Hin) as (m1 & g & m2 & -> & Hm1 & ->).
    unfold GroupsOf. rewrite !fmap_app, !fmap_cons in *. simpl in *.
    split; [done|]. split.
    { intros k. rewrite <- Hcover. split; [by left|]. by intros [?| ->]. }
    apply NoDup_app in Hnd as (_ & Hdisj & [Hk2 _]%NoDup_cons).
    rewrite Forall_app, Forall_cons in *. destruct Hall as (H1 & Hg & H2). simpl in *.
    rewrite Forall_forall in H1, H2.
    split; [|split].
    + apply Forall_forall. intros [k g'] Hg'. simpl.
      apply Hstep; [by apply (H1 (k, g'))|]. intros ->.
      by apply Hm1, key_of_entry with g'.
    + rewrite filter_app, filter_cons_True, filter_nil by done. by rewrite Hg.
    + apply Forall_forall. intros [k g'] Hg'. simpl.
      apply Hstep; [by apply (H2 (k, g'))|]. intros ->.
      by apply Hk2, key_of_entry with g'.
  - rewrite addRecord_miss by done.
    unfold GroupsOf. rewrite fmap_app. simpl.
    split; [|split].
    + apply NoDup_app. split; [done|]. split; [|apply NoDup_singleton].
      intros k Hk ->%list_elem_of_singleton. done.
    + intros k. rewrite <- Hcover. rewrite elem_of_app, list_elem_of_singleton. done.
    + rewrite Forall_app, Forall_singleton. rewrite Forall_forall in Hall. split.
      * apply Forall_forall. intros [k g'] Hg'. simpl.
        apply Hstep; [by apply (Hall (k, g'))|]. intros ->.
        by apply Hout, key_of_entry with g'.
      * simpl. rewrite filter_app, filter_cons_True, filter_nil by done.
        destruct (filter _ rs) as [|r' l] eqn:E; [done|]. exfalso.
        assert (Hr' : r' ∈ filter (λ r', Member.keyOf r' = Member.keyOf r) rs)
          by (rewrite E; apply list_elem_of_here).
        apply list_elem_of_filter in Hr' as [Hkey Hr'].
        apply Hout, Hkeys. eauto.
Qed.

Lemma GroupsOf_fold rs : ∀ m rs0,
  GroupsOf m rs0 → GroupsOf (fold_left Member.addRecord rs m) (rs0 ++ rs).
Proof.
  induction rs as [|r rs IH]; intros m rs0 H; simpl.
  - by rewrite app_nil_r.
  - rewrite cons_middle, app_assoc. by apply IH, GroupsOf_addRecord.
Qed.

(** Each record is counted in exactly one of the groups of distinct keys. *)
Lemma sum_list_with_cons {A} (f : A → nat) x l :
  sum_list_with f (x :: l) = (f x + sum_list_with f l)%nat.
Proof. done. Qed.

Lemma count_key_out (keys : list string) r rs :
  Member.keyOf r ∉ keys →
  sum_list_with (λ k, length (filter (λ r, Member.keyOf r = k) (r :: rs))) keys
  = sum_list_with (λ k, length (filter (λ r, Member.keyOf r = k) rs)) keys.
Proof.
  induction keys as [|k keys IH]; [done|].
  rewrite not_elem_of_cons. intros [Hne Hk].
  rewrite !sum_list_with_cons, IH by done.
  by rewrite filter_cons_False.
Qed.

Lemma count_key_in (keys : list string) r rs :
  NoDup keys → Member.keyOf r ∈ keys →
  sum_list_with (λ k, length (filter (λ r, Member.keyOf r = k) (r :: rs))) keys
  = S (sum_list_with (λ k, length (filter (λ r, Member.keyOf r = k) rs)) keys).
Proof.
  induction keys as [|k keys IH]; [by intros _ ?%elem_of_nil|].
  rewrite NoDup_cons. intros [Hk Hnd] Hin. rewrite !sum_list_with_cons.
  destruct (decide (Member.keyOf r = k)) as [<-|Hne].
  - rewrite count_key_out by done. by rewrite filter_cons_True.
  - apply elem_of_cons in Hin as [?|Hin]; [done|].
    rewrite IH by done. rewrite filter_cons_False by done. lia.
Qed.

Lemma length_by_keys (keys : list string) (rs : list SpeechRecord) :
  NoDup keys →
  (∀ r, r ∈ rs → Member.keyOf r ∈ keys) →
  sum_list_with (λ k, length (filter (λ r, Member.keyOf r = k) rs)) keys = length rs.
Proof.
  intros Hnd. induction rs as [|r rs IH]; intros Hcover.
  - clear. induction keys as [|k keys IH]; [done|].
    by rewrite sum_list_with_cons, IH.
  - rewrite count_key_in; [|done|apply Hcover; by left].
    simpl. f_equal. apply IH. intros r' Hr'. apply Hcover. by right.
Qed.

Lemma sum_by_entries (rs : list SpeechRecord) (m : JsMap MeetingGroup) :
  Forall (λ kg, mg_speeches kg.2 = filter (λ r, Member.keyOf r = kg.1) rs) m →
  sum_list_with (λ g, length (mg_speeches g)) m.*2
  = sum_list_with (λ k, length (filter (λ r, Member.keyOf r = k) rs)) m.*1.
Proof.
  induction 1 as [|[k g] m Hg Hm IH]; [done|].
  rewrite !fmap_cons, !sum_list_with_cons, IH. simpl in *. by rewrite Hg.
Qed.

Lemma GroupsOf_perm m m' rs : m ≡ₚ m' → GroupsOf m rs → GroupsOf m' rs.
Proof.
  intros Hp (Hnd & Hkeys & Hall). split; [by rewrite <- Hp|]. split.
  - intros k. by rewrite <- Hp.
  - by rewrite <- Hp.
Qed.

(** C1: [groupByMeeting] returns one group per distinct key of the input;
    group [i] holds exactly the records with key [keys !! i], in input order;
    records of different groups have different keys; and the lengths of the
    groups' speech lists add up to the length of the input. *)
Theorem C1_groupByMeeting_partition
    (localeCompare : string → string → Z) (records : list SpeechRecord) :
  let groups := Member.groupByMeeting localeCompare records in
  ∃ keys : list string,
    length keys = length groups
    ∧ NoDup keys
    ∧ (∀ k, k ∈ keys ↔ ∃ r, r ∈ records ∧ Member.keyOf r = k)
    ∧ (∀ i k g, keys !! i = Some k → groups !! i = Some g →
         mg_speeches g = filter (λ r, Member.keyOf r = k) records)
    ∧ (∀ i j g1 g2 r1 r2,
         groups !! i = Some g1 → groups !! j = Some g2 →
         r1 ∈ mg_speeches g1 → r2 ∈ mg_speeches g2 →
         Member.keyOf r1 = Member.keyOf r2 → i = j)
    ∧ sum_list_with (λ g, length (mg_speeches g)) groups = length records.
Proof.
  intros groups. subst groups. unfold Member.groupByMeeting, map_values.
  rewrite sortBy_fmap.
  set (sp := sortBy _ (fold_left Member.addRecord records [])).
  assert (H : GroupsOf sp records).
  { eapply GroupsOf_perm; [symmetry; apply sortBy_perm|].
    apply (GroupsOf_fold records [] []), GroupsOf_nil. }
  destruct H as (Hnd & Hkeys & Hall).
  assert (Hlook : ∀ i k g, sp.*1 !! i = Some k → sp.*2 !! i = Some g →
            mg_speeches g = filter (λ r, Member.keyOf r = k) records).
  { intros i k g. rewrite !list_lookup_fmap.
    destruct (sp !! i) as [[k' g']|] eqn:E; [|done]. simpl. intros [= <-] [= <-].
    rewrite Forall_forall in Hall.
    apply (Hall (k', g')). by eapply list_elem_of_lookup_2. }
  exists sp.*1. split; [by rewrite !length_fmap|]. split; [done|].
  split; [done|]. split; [done|]. split.
  - intros i j g1 g2 r1 r2 H1 H2 Hr1 Hr2 Heq.
    destruct (sp.*1 !! i) as [k1|] eqn:E1.
    2:{ apply lookup_ge_None in E1. apply lookup_lt_Some in H1.
        rewrite !length_fmap in *. lia. }
    destruct (sp.*1 !! j) as [k2|] eqn:E2.
    2:{ apply lookup_ge_None in E2. apply lookup_lt_Some in H2.
        rewrite !length_fmap in *. lia. }
    rewrite (Hlook _ _ _ E1 H1) in Hr1. rewrite (Hlook _ _ _ E2 H2) in Hr2.
    apply list_elem_of_filter in Hr1 as [<- _].
    apply list_elem_of_filter in Hr2 as [<- _].
    eapply NoDup_lookup; [done..|]. by rewrite Heq.
  - rewrite (sum_by_entries records) by done. apply length_by_keys; [done|].
    intros r Hr. apply Hkeys. eauto.
Qed.

(** ** What the rendering steps leave alone *)

Ltac frame :=
  intros;
  unfold Member.updateLoadMoreButton, Member.renderDisabilityLeagues,
    Member.renderWrittenQuestions, Member.renderFallback, Member.failed,
    MemberLegacy.updateLoadMoreButton;
  repeat case_match; simpl; rewrite ?exists_update; try done.

Lemma length_slice0 {A} (e : Z) (l : list A) :
  (length (slice0 e l) ≤ length l)%nat.
Proof. unfold slice0. rewrite length_take. lia. Qed.

Lemma renderVisibleGroups_length p :
  length (meetingGroups (Member.renderVisibleGroups p)) = length (meetingGroups p).
Proof.
  unfold Member.renderVisibleGroups. simpl.
  rewrite length_app, length_fmap, length_drop.
  pose proof (length_slice0 (visibleCount p) (meetingGroups p)). lia.
Qed.

Lemma renderVisibleGroups_visibleCount p :
  visibleCount (Member.renderVisibleGroups p) = visibleCount p.
Proof. done. Qed.

Lemma renderVisibleGroups_exists n p :
  exists_ n (Member.renderVisibleGroups p) = exists_ n p.
Proof. done. Qed.

Lemma updateLoadMoreButton_meetingGroups p :
  meetingGroups (Member.updateLoadMoreButton p) = meetingGroups p.
Proof. frame. Qed.

Lemma updateLoadMoreButton_visibleCount p :
  visibleCount (Member.updateLoadMoreButton p) = visibleCount p.
Proof. frame. Qed.

Lemma updateLoadMoreButton_exists n p :
  exists_ n (Member.updateLoadMoreButton p) = exists_ n p.
Proof. frame. Qed.

Lemma Frame_refl p : Frame p p.
Proof. done. Qed.

Lemma Frame_trans p q r : Frame p q → Frame q r → Frame p r.
Proof.
  intros (Hm & Hv & Hc & Hs & He) (Hm' & Hv' & Hc' & Hs' & He').
  repeat split; [congruence..|]. intros n. by rewrite He', He.
Qed.

Lemma Frame_update n f p : Frame p (update n f p).
Proof. repeat split. intros m. apply exists_update. Qed.

Lemma Frame_setTitle v p : Frame p (setTitle v p).
Proof. done. Qed.

(** Peels the outermost step off the page on the right. *)
Ltac frame_steps :=
  repeat first
    [ apply Frame_refl
    | match goal with
      | |- Frame ?p (update ?n ?f ?q) =>
          apply (Frame_trans p q); [|apply Frame_update]
      | |- Frame ?p (setTitle ?v ?q) =>
          apply (Frame_trans p q); [|apply Frame_setTitle]
      end ].

Lemma renderDisabilityLeagues_frame leagues p :
  Frame p (Member.renderDisabilityLeagues leagues p).
Proof.
  unfold Member.renderDisabilityLeagues. repeat case_match; frame_steps.
Qed.

Lemma renderWrittenQuestions_frame qs p :
  Frame p (Member.renderWrittenQuestions qs p).
Proof.
  unfold Member.renderWrittenQuestions. repeat case_match; frame_steps.
Qed.

Lemma renderFallback_frame slug profile p :
  Frame p (Member.renderFallback slug profile p).
Proof.
  unfold Member.renderFallback. frame_steps.
  eapply Frame_trans; [|apply renderDisabilityLeagues_frame]. frame_steps.
Qed.

Ltac frame_all :=
  repeat first
    [ progress frame_steps
    | match goal with
      | |- Frame ?p (Member.renderWrittenQuestions ?qs ?q) =>
          apply (Frame_trans p q); [|apply renderWrittenQuestions_frame]
      | |- Frame ?p (Member.renderDisabilityLeagues ?l ?q) =>
          apply (Frame_trans p q); [|apply renderDisabilityLeagues_frame]
      | |- Frame ?p (Member.renderFallback ?s ?pr ?q) =>
          apply (Frame_trans p q); [|apply renderFallback_frame]
      end ].

Lemma renderMember_frame slug records profile p :
  Frame p (Member.renderMember slug records profile p).
Proof.
  unfold Member.renderMember. repeat case_match; frame_all.
Qed.

Lemma failed_frame message p :
  meetingGroups (Member.failed message p) = meetingGroups p
  ∧ visibleCount (Member.failed message p) = visibleCount p
  ∧ speechList (Member.failed message p) = speechList p
  ∧ ∀ n, exists_ n (Member.failed message p) = exists_ n p.
Proof. repeat split. intros n. unfold Member.failed. by rewrite exists_update. Qed.

(** ** The pager *)

Lemma render_exists slug lc records profile p n :
  exists_ n (Member.render slug lc records profile p) = exists_ n p.
Proof.
  destruct (renderMember_frame slug records profile p) as (_ & _ & _ & _ & He).
  unfold Member.render. case_match.
  - by autorewrite with page.
  - rewrite updateLoadMoreButton_exists, renderVisibleGroups_exists.
    by autorewrite with page.
Qed.

Lemma render_console slug lc records profile p :
  console (Member.render slug lc records profile p) = console p.
Proof.
  destruct (renderMember_frame slug records profile p) as (_ & _ & Hc & _ & _).
  unfold Member.render. case_match; [done|].
  unfold Member.updateLoadMoreButton. by repeat case_match.
Qed.

Lemma render_empty slug lc records profile p :
  Member.noGroups records = true →
  meetingGroups (Member.render slug lc records profile p) = []
  ∧ visibleCount (Member.render slug lc records profile p) = visibleCount p.
Proof.
  intros H. destruct (renderMember_frame slug records profile p) as (_ & Hv & _ & _ & _).
  unfold Member.render. by rewrite H.
Qed.

Lemma render_groups slug lc records profile p :
  Member.noGroups records = false →
  length (meetingGroups (Member.render slug lc records profile p))
    = length (Member.groupsOf lc records)
  ∧ visibleCount (Member.render slug lc records profile p)
    = Z.min PAGE_SIZE (Z.of_nat (length (Member.groupsOf lc records))).
Proof.
  intros H. unfold Member.render. rewrite H.
  rewrite updateLoadMoreButton_meetingGroups, updateLoadMoreButton_visibleCount.
  by rewrite renderVisibleGroups_length.
Qed.

Lemma onLoadMoreClick_visibleCount p :
  exists_ LoadMoreButton p = true →
  visibleCount (Member.onLoadMoreClick p)
    = Z.min (visibleCount p + PAGE_SIZE) (Z.of_nat (length (meetingGroups p))).
Proof.
  intros H. unfold Member.onLoadMoreClick. rewrite H. simpl.
  by rewrite updateLoadMoreButton_visibleCount.
Qed.

Lemma onLoadMoreClick_length p :
  length (meetingGroups (Member.onLoadMoreClick p)) = length (meetingGroups p).
Proof.
  unfold Member.onLoadMoreClick. case_match; [done|].
  by rewrite updateLoadMoreButton_meetingGroups, renderVisibleGroups_length.
Qed.

Lemma onLoadMoreClick_exists n p :
  exists_ n (Member.onLoadMoreClick p) = exists_ n p.
Proof.
  unfold Member.onLoadMoreClick. case_match; [done|].
  by rewrite updateLoadMoreButton_exists.
Qed.

Lemma clicks_exists k n p :
  exists_ n (clicks Member.onLoadMoreClick k p) = exists_ n p.
Proof.
  revert p. induction k as [|k IH]; intros p; simpl; [done|].
  by rewrite IH, onLoadMoreClick_exists.
Qed.

(** Bounds kept by every click. *)
Lemma onLoadMoreClick_bounds p :
  0 ≤ visibleCount p ≤ Z.of_nat (length (meetingGroups p)) →
  0 ≤ visibleCount (Member.onLoadMoreClick p)
    ≤ Z.of_nat (length (meetingGroups (Member.onLoadMoreClick p))).
Proof.
  intros H. rewrite onLoadMoreClick_length.
  destruct (exists_ LoadMoreButton p) eqn:E.
  - rewrite onLoadMoreClick_visibleCount by done. unfold PAGE_SIZE. lia.
  - unfold Member.onLoadMoreClick. by rewrite E.
Qed.

(** Before [loadData] completes there is nothing to page through. *)
Lemma clicks_idle n p :
  meetingGroups p = [] → visibleCount p = 0 →
  meetingGroups (clicks Member.onLoadMoreClick n p) = []
  ∧ visibleCount (clicks Member.onLoadMoreClick n p) = 0.
Proof.
  revert p. induction n as [|n IH]; intros p Hm Hv; simpl; [done|].
  apply IH.
  - apply length_zero_iff_nil. by rewrite onLoadMoreClick_length, Hm.
  - destruct (exists_ LoadMoreButton p) eqn:E.
    + rewrite onLoadMoreClick_visibleCount, Hm, Hv by done. done.
    + unfold Member.onLoadMoreClick. by rewrite E.
Qed.

Lemma clicks_loading n list doc :
  meetingGroups (clicks Member.onLoadMoreClick n (initialPage list doc)) = []
  ∧ visibleCount (clicks Member.onLoadMoreClick n (initialPage list doc)) = 0.
Proof. by apply clicks_idle. Qed.

Lemma hasMore_lt p :
  Member.hasMore p = true ↔ visibleCount p < Z.of_nat (length (meetingGroups p)).
Proof. unfold Member.hasMore. apply Z.ltb_lt. Qed.

Lemma hasMore_frame p q :
  meetingGroups q = meetingGroups p → visibleCount q = visibleCount p →
  Member.hasMore q = Member.hasMore p.
Proof. unfold Member.hasMore. by intros -> ->. Qed.

(** The state of the button after [updateLoadMoreButton]. *)
Lemma updateLoadMoreButton_hidden p btn :
  nodes (Member.updateLoadMoreButton p) LoadMoreButton = Some btn →
  hidden btn =
    if Z.of_nat (length (meetingGroups p)) <=? PAGE_SIZE then true
    else negb (Member.hasMore p).
Proof.
  unfold Member.updateLoadMoreButton, exists_.
  destruct (nodes p LoadMoreButton) as [b|] eqn:E; simpl; [|by rewrite E].
  destruct (_ <=? PAGE_SIZE).
  - rewrite nodes_update, decide_True, E by done. by intros [= <-].
  - rewrite (hasMore_frame p (update LoadMoreButton _ p)) by done.
    destruct (Member.hasMore p).
    + rewrite !nodes_update, !decide_True, E by done. by intros [= <-].
    + rewrite !nodes_update, !decide_True, E by done. by intros [= <-].
Qed.

Lemma onLoadMoreClick_hidden p btn :
  nodes (Member.onLoadMoreClick p) LoadMoreButton = Some btn →
  0 ≤ visibleCount p →
  hidden btn = negb (Member.hasMore (Member.onLoadMoreClick p)).
Proof.
  intros Hb Hv.
  assert (He : exists_ LoadMoreButton p = true).
  { rewrite <- (onLoadMoreClick_exists LoadMoreButton p). unfold exists_. by rewrite Hb. }
  unfold Member.onLoadMoreClick in *. rewrite He in *. simpl in *.
  set (q := Member.renderVisibleGroups (setVisibleCount _ p)) in *.
  apply updateLoadMoreButton_hidden in Hb. rewrite Hb.
  rewrite (hasMore_frame q (Member.updateLoadMoreButton q))
    by (apply updateLoadMoreButton_meetingGroups || apply updateLoadMoreButton_visibleCount).
  destruct (Z.of_nat (length (meetingGroups q)) <=? PAGE_SIZE) eqn:E; [|done].
  apply Z.leb_le in E. symmetry. apply negb_true_iff, not_true_iff_false.
  rewrite hasMore_lt. subst q. rewrite renderVisibleGroups_length in *.
  simpl in *. unfold PAGE_SIZE in *. lia.
Qed.


(** ** Sessions *)

Lemma loadData_bounds slug lc speechRes rosterRes p :
  meetingGroups p = [] → visibleCount p = 0 →
  0 ≤ visibleCount (Member.loadData slug lc speechRes rosterRes p)
    ≤ Z.of_nat (length (meetingGroups (Member.loadData slug lc speechRes rosterRes p))).
Proof.
  intros Hm Hv.
  assert (Hframe : ∀ q, meetingGroups q = meetingGroups p → visibleCount q = visibleCount p →
            0 ≤ visibleCount q ≤ Z.of_nat (length (meetingGroups q))).
  { intros q -> ->. rewrite Hm, Hv. done. }
  unfold Member.loadData.
  repeat case_match; try (apply Hframe; done);
    try (apply Hframe; apply failed_frame);
    try (apply Hframe; apply renderFallback_frame).
  all: match goal with
       | |- context [Member.render ?sl _ ?r ?pr ?q] =>
           destruct (Member.noGroups r) eqn:E;
           [ destruct (render_empty sl lc r pr q E) as [-> ->]
           | destruct (render_groups sl lc r pr q E) as [-> ->] ]
       end.
  all: rewrite ?Hv; unfold PAGE_SIZE; simpl; lia.
Qed.

Lemma clicks_bounds n p :
  0 ≤ visibleCount p ≤ Z.of_nat (length (meetingGroups p)) →
  0 ≤ visibleCount (clicks Member.onLoadMoreClick n p)
    ≤ Z.of_nat (length (meetingGroups (clicks Member.onLoadMoreClick n p))).
Proof.
  revert p. induction n as [|n IH]; intros p H; simpl; [done|].
  by apply IH, onLoadMoreClick_bounds.
Qed.

(** In every page of a session, [0 ≤ visibleCount ≤ meetingGroups.length]. *)
Lemma reachable_bounds slug lc list doc p :
  Reachable slug lc list doc p →
  0 ≤ visibleCount p ≤ Z.of_nat (length (meetingGroups p)).
Proof.
  intros [n | n m speechRes rosterRes].
  - destruct (clicks_loading n list doc) as [-> ->]. done.
  - apply clicks_bounds, loadData_bounds; apply clicks_loading.
Qed.

Lemma onLoadMoreClick_full p :
  visibleCount p = Z.of_nat (length (meetingGroups p)) →
  visibleCount (Member.onLoadMoreClick p) = visibleCount p
  ∧ visibleCount (Member.onLoadMoreClick p)
      = Z.of_nat (length (meetingGroups (Member.onLoadMoreClick p))).
Proof.
  intros H. rewrite onLoadMoreClick_length.
  destruct (exists_ LoadMoreButton p) eqn:E.
  - rewrite onLoadMoreClick_visibleCount by done. unfold PAGE_SIZE. lia.
  - unfold Member.onLoadMoreClick. by rewrite E.
Qed.

(** C4: in a page of a session where [hasMore] is false, any number of
    further clicks leaves [visibleCount] as it is. *)
Theorem C4_advance_idempotent (slug : option string) (localeCompare : string → string → Z)
    (list : Element) (doc : Node → option Element) (p : Page) :
  Reachable slug localeCompare list doc p →
  Member.hasMore p = false →
  ∀ n, visibleCount (clicks Member.onLoadMoreClick n p) = visibleCount p.
Proof.
  intros Hr Hmore n.
  assert (Hfull : visibleCount p = Z.of_nat (length (meetingGroups p))).
  { apply reachable_bounds in Hr. apply not_true_iff_false in Hmore.
    rewrite hasMore_lt in Hmore. lia. }
  clear Hr Hmore. revert p Hfull. induction n as [|n IH]; intros p Hfull; simpl; [done|].
  destruct (onLoadMoreClick_full p Hfull) as [Heq Hfull'].
  by rewrite IH, Heq.
Qed.

(** ** The load-more button on a single page of groups *)

Lemma clicks_last n p :
  clicks Member.onLoadMoreClick (S n) p
    = Member.onLoadMoreClick (clicks Member.onLoadMoreClick n p).
Proof.
  revert p. induction n as [|n IH]; intros p; [done|].
  change (clicks Member.onLoadMoreClick (S (S n)) p)
    with (clicks Member.onLoadMoreClick (S n) (Member.onLoadMoreClick p)).
  by rewrite IH.
Qed.

Lemma clicks_length n p :
  length (meetingGroups (clicks Member.onLoadMoreClick n p)) = length (meetingGroups p).
Proof.
  revert p. induction n as [|n IH]; intros p; simpl; [done|].
  by rewrite IH, onLoadMoreClick_length.
Qed.

Lemma render_hidden slug lc records profile p btn :
  (length (meetingGroups (Member.render slug lc records profile p)) ≤ 5)%nat →
  nodes (Member.render slug lc records profile p) LoadMoreButton = Some btn →
  hidden btn = true.
Proof.
  unfold Member.render. destruct (Member.noGroups records).
  - intros _. rewrite nodes_update, decide_True by done.
    destruct (nodes _ LoadMoreButton); [|done]. by intros [= <-].
  - rewrite updateLoadMoreButton_meetingGroups. intros Hlen Hb.
    apply updateLoadMoreButton_hidden in Hb. rewrite Hb.
    clear Hb.
    match goal with |- (if ?c then _ else _) = _ => destruct c eqn:E end; [done|].
    apply Z.leb_gt in E. unfold PAGE_SIZE in *. lia.
Qed.

Lemma onLoadMoreClick_single_page p btn :
  (length (meetingGroups p) ≤ 5)%nat →
  nodes (Member.onLoadMoreClick p) LoadMoreButton = Some btn →
  hidden btn = true.
Proof.
  intros Hlen Hb.
  assert (He : exists_ LoadMoreButton p = true).
  { rewrite <- (onLoadMoreClick_exists LoadMoreButton p). unfold exists_. by rewrite Hb. }
  unfold Member.onLoadMoreClick in Hb. rewrite He in Hb. simpl in Hb.
  apply updateLoadMoreButton_hidden in Hb. rewrite Hb.
  rewrite renderVisibleGroups_length. simpl.
  clear Hb.
    match goal with |- (if ?c then _ else _) = _ => destruct c eqn:E end; [done|].
    apply Z.leb_gt in E. unfold PAGE_SIZE in *. lia.
Qed.

(** X22: in the current copy of the member detail script, when the initial
    render leaves at most 5 meeting groups, none included, the load-more
    button, if the page has one, is hidden right after that render and after
    every later click. *)
Theorem load_more_hidden_in_current_copy (slug : option string) (localeCompare : string → string → Z)
    (records : Payload) (profile : option MemberProfile)
    (list : Element) (doc : Node → option Element) (n : nat) :
  let p0 := Member.render slug localeCompare records profile
              (clicks Member.onLoadMoreClick n (initialPage list doc)) in
  (length (meetingGroups p0) ≤ 5)%nat →
  ∀ m btn,
    nodes (clicks Member.onLoadMoreClick m p0) LoadMoreButton = Some btn →
    hidden btn = true.
Proof.
  intros p0 Hlen m btn. destruct m as [|m].
  - simpl. by apply render_hidden.
  - rewrite clicks_last. apply onLoadMoreClick_single_page.
    by rewrite clicks_length.
Qed.

(** ** Date order of the meeting groups *)

Section DateOrder.
Variable localeCompare : string → string → Z.
Hypothesis collation : Collation localeCompare.

Lemma collate_flip a b : localeCompare a b ≤ 0 → 0 ≤ localeCompare b a.
Proof.
  pose proof (consistent_antisym _ (collate_consistent _ collation) a b). lia.
Qed.

Lemma byDateDesc_strongly_sorted l :
  StronglySorted (before (Member.byDateDesc localeCompare))
    (sortBy (Member.byDateDesc localeCompare) l).
Proof.
  apply sortBy_strongly_sorted; unfold Member.byDateDesc.
  - intros a b.
    pose proof (consistent_antisym _ (collate_consistent _ collation)
                  (dateKey b) (dateKey a)).
    unfold dateKey in *. lia.
  - intros a b c Hab Hbc.
    by eapply (consistent_trans _ (collate_consistent _ collation)).
Qed.

Lemma StronglySorted_DateDescending l :
  StronglySorted (before (Member.byDateDesc localeCompare)) l →
  DateDescending localeCompare l.
Proof.
  intros Hl. split.
  - intros i a b Ha Hb. apply collate_flip.
    by apply (StronglySorted_lookup _ l i (S i) a b Hl); [lia|..].
  - intros i j a b Hij Ha Hb Hkey.
    pose proof (StronglySorted_lookup _ l i j a b Hl Hij Ha Hb) as H.
    unfold before, Member.byDateDesc in H. fold (dateKey a) (dateKey b) in H.
    rewrite Hkey in H. pose proof (collate_empty _ collation (dateKey b)). lia.
Qed.

Lemma groupsOf_DateDescending records :
  DateDescending localeCompare (Member.groupsOf localeCompare records).
Proof.
  apply StronglySorted_DateDescending.
  destruct records; apply byDateDesc_strongly_sorted.
Qed.
End DateOrder.

Lemma DateDescending_nil lc : DateDescending lc [].
Proof. split; intros; by rewrite lookup_nil in *. Qed.

(** The order only looks at the dates. *)
Lemma DateDescending_keys lc l l' :
  dateKey <$> l' = dateKey <$> l → DateDescending lc l → DateDescending lc l'.
Proof.
  intros Hk [Hadj Hlast].
  assert (Hget : ∀ i a', l' !! i = Some a' → ∃ a, l !! i = Some a ∧ dateKey a = dateKey a').
  { intros i a' Ha'.
    assert (H : (dateKey <$> l) !! i = Some (dateKey a'))
      by (by rewrite <- Hk, list_lookup_fmap, Ha').
    rewrite list_lookup_fmap in H. destruct (l !! i) as [a|]; [|done].
    exists a. split; [done|]. by inversion H. }
  split.
  - intros i a' b' Ha' Hb'.
    destruct (Hget _ _ Ha') as (a & Ha & <-). destruct (Hget _ _ Hb') as (b & Hb & <-).
    by eapply Hadj.
  - intros i j a' b' Hij Ha' Hb'.
    destruct (Hget _ _ Ha') as (a & Ha & <-). destruct (Hget _ _ Hb') as (b & Hb & <-).
    by eapply Hlast.
Qed.

Lemma DateDescending_prefix lc l1 l2 :
  DateDescending lc (l1 ++ l2) → DateDescending lc l1.
Proof.
  intros [Hadj Hlast]. split.
  - intros i a b Ha Hb. apply (Hadj i); by apply lookup_app_l_Some.
  - intros i j a b Hij Ha Hb. apply (Hlast i j a); [done|by apply lookup_app_l_Some..].
Qed.

Lemma slice0_take {A} (e : Z) (l : list A) :
  slice0 e l ++ drop (length (slice0 e l)) l = l.
Proof.
  unfold slice0. set (k := Z.to_nat _).
  destruct (decide (k ≤ length l)%nat).
  - rewrite length_take, Nat.min_l by done. apply take_drop.
  - rewrite take_ge by lia. by rewrite drop_all, app_nil_r.
Qed.

Lemma renderVisibleGroups_keys p :
  dateKey <$> meetingGroups (Member.renderVisibleGroups p) = dateKey <$> meetingGroups p.
Proof.
  unfold Member.renderVisibleGroups. simpl.
  transitivity (dateKey <$> (slice0 (visibleCount p) (meetingGroups p)
                  ++ drop (length (slice0 (visibleCount p) (meetingGroups p)))
                       (meetingGroups p))); [|by rewrite slice0_take].
  rewrite !fmap_app, <- list_fmap_compose. done.
Qed.

Lemma updateLoadMoreButton_speechList p :
  speechList (Member.updateLoadMoreButton p) = speechList p.
Proof. frame. Qed.

Lemma renderVisibleGroups_lead lc p :
  DateDescending lc (meetingGroups p) →
  DateDescending lc (meetingGroups (Member.renderVisibleGroups p))
  ∧ CardsLead (Member.renderVisibleGroups p).
Proof.
  intros H. split.
  - eapply DateDescending_keys; [apply renderVisibleGroups_keys | done].
  - intros cards. unfold Member.renderVisibleGroups. simpl. intros [= <-]. eauto.
Qed.

Lemma onLoadMoreClick_lead lc p :
  DateDescending lc (meetingGroups p) ∧ CardsLead p →
  DateDescending lc (meetingGroups (Member.onLoadMoreClick p))
  ∧ CardsLead (Member.onLoadMoreClick p).
Proof.
  intros [Hd Hc]. unfold Member.onLoadMoreClick. case_match; [done|].
  unfold CardsLead.
  rewrite updateLoadMoreButton_meetingGroups, updateLoadMoreButton_speechList.
  by apply renderVisibleGroups_lead.
Qed.

Lemma clicks_lead lc n p :
  DateDescending lc (meetingGroups p) ∧ CardsLead p →
  DateDescending lc (meetingGroups (clicks Member.onLoadMoreClick n p))
  ∧ CardsLead (clicks Member.onLoadMoreClick n p).
Proof.
  revert p. induction n as [|n IH]; intros p H; simpl; [done|].
  by apply IH, onLoadMoreClick_lead.
Qed.

Lemma onLoadMoreClick_loading p : Loading p → Loading (Member.onLoadMoreClick p).
Proof.
  intros (Hm & Hv & Hc).
  destruct (clicks_idle 1 p Hm Hv) as [Hm' Hv']. simpl in *.
  split; [done|]. split; [done|].
  unfold Member.onLoadMoreClick. case_match; [done|].
  rewrite updateLoadMoreButton_speechList.
  unfold Member.renderVisibleGroups. simpl. rewrite Hm.
  intros cards [= <-]. unfold slice0. by rewrite take_nil.
Qed.

Lemma clicks_Loading n list doc :
  content list = Static → Loading (clicks Member.onLoadMoreClick n (initialPage list doc)).
Proof.
  intros Hs.
  assert (H0 : Loading (initialPage list doc)).
  { split; [done|]. split; [done|]. simpl. intros cards. by rewrite Hs. }
  revert H0. generalize (initialPage list doc).
  induction n as [|n IH]; intros p Hp; simpl; [done|].
  by apply IH, onLoadMoreClick_loading.
Qed.

Lemma render_lead slug lc records profile p :
  Collation lc → Loading p →
  DateDescending lc (meetingGroups (Member.render slug lc records profile p))
  ∧ CardsLead (Member.render slug lc records profile p).
Proof.
  intros Hcol (Hm & Hv & Hc).
  destruct (renderMember_frame slug records profile p) as (_ & _ & _ & Hs & _).
  unfold Member.render. case_match.
  - split; [apply DateDescending_nil|]. unfold CardsLead. simpl. rewrite Hs.
    intros cards ->%Hc. by exists [].
  - unfold CardsLead.
    rewrite updateLoadMoreButton_meetingGroups, updateLoadMoreButton_speechList.
    apply renderVisibleGroups_lead. simpl. by apply groupsOf_DateDescending.
Qed.

Lemma loadData_lead slug lc speechRes rosterRes p :
  Collation lc → Loading p →
  DateDescending lc (meetingGroups (Member.loadData slug lc speechRes rosterRes p))
  ∧ CardsLead (Member.loadData slug lc speechRes rosterRes p).
Proof.
  intros Hcol Hp.
  assert (Hframe : ∀ q, meetingGroups q = meetingGroups p → speechList q = speechList p →
            DateDescending lc (meetingGroups q) ∧ CardsLead q).
  { destruct Hp as (Hm & Hv & Hc). intros q Hmq Hsq. unfold CardsLead.
    rewrite Hmq, Hsq, Hm. split; [apply DateDescending_nil|].
    intros cards ->%Hc. by exists []. }
  unfold Member.loadData.
  repeat case_match; try (apply Hframe; done);
    try (apply Hframe; apply failed_frame);
    try (apply Hframe; apply renderFallback_frame).
  all: by apply render_lead.
Qed.

(** Byte-wise comparison is a collation. *)
Lemma string_compare_trans a b c :
  String.compare a b ≠ Gt → String.compare b c ≠ Gt → String.compare a c ≠ Gt.
Proof.
  revert b c. induction a as [|x a IH]; intros [|y b] [|z c]; simpl; try done.
  unfold Ascii.compare.
  destruct (N.compare_spec (Ascii.N_of_ascii x) (Ascii.N_of_ascii y)),
    (N.compare_spec (Ascii.N_of_ascii y) (Ascii.N_of_ascii z)),
    (N.compare_spec (Ascii.N_of_ascii x) (Ascii.N_of_ascii z));
    try done; try lia.
  apply IH.
Qed.

Lemma compareBytes_collation : Collation compareBytes.
Proof.
  unfold compareBytes. split; [split|].
  - intros a b. rewrite (String.compare_antisym a b).
    by destruct (String.compare b a).
  - intros a b c Hab Hbc.
    pose proof (string_compare_trans a b c) as H.
    destruct (String.compare a b), (String.compare b c), (String.compare a c);
      try done; exfalso; by apply H.
  - intros a. by destruct a.
Qed.

(** C2: the groups built for display are in date-descending order, for a
    flat array of records and for a pre-grouped payload, in every page of a
    session, as are the cards on display; a group without a date is ordered
    by the empty string and is followed only by groups whose date collates
    like the empty string. *)
Theorem C2_groups_sorted_by_date (slug : option string)
    (localeCompare : string → string → Z) :
  Collation localeCompare →
  (∀ records, DateDescending localeCompare (Member.groupByMeeting localeCompare records))
  ∧ (∀ meetings,
       DateDescending localeCompare
         (sortBy (Member.byDateDesc localeCompare) (Member.toGroup <$> meetings)))
  ∧ (∀ g, truthy_str (mg_date g) = false → dateKey g = "")
  ∧ (∀ list doc p,
       content list = Static → Reachable slug localeCompare list doc p →
       DateDescending localeCompare (meetingGroups p)
       ∧ ∀ cards, content (speechList p) = MeetingCards cards →
           DateDescending localeCompare cards ∧ ∃ rest, meetingGroups p = cards ++ rest).
Proof.
  intros Hcol. split; [|split; [|split]].
  - intros records. apply (groupsOf_DateDescending _ Hcol (Flat records)).
  - intros meetings.
    apply (groupsOf_DateDescending _ Hcol (Grouped Undefined (Val meetings) Undefined)).
  - intros g. unfold dateKey, str_or, truthy_str.
    destruct (mg_date g) as [| |s]; [done..|]. case_decide; [done|].
    by rewrite bool_decide_false.
  - intros list doc p Hs Hr.
    assert (H : DateDescending localeCompare (meetingGroups p) ∧ CardsLead p).
    { destruct Hr as [n | n m speechRes rosterRes].
      - destruct (clicks_Loading n list doc Hs) as (Hm & Hv & Hc).
        unfold CardsLead. rewrite Hm. split; [apply DateDescending_nil|].
        intros cards ->%Hc. by exists [].
      - apply clicks_lead, loadData_lead; [done|]. by apply clicks_Loading. }
    destruct H as [Hd Hc]. split; [done|]. intros cards Hcards.
    destruct (Hc cards Hcards) as [rest Hrest]. split; [|eauto].
    rewrite Hrest in Hd. by eapply DateDescending_prefix.
Qed.

(** ** Loading: roster failures and the fallback page *)

Lemma nodes_update_eq n f p : nodes (update n f p) n = f <$> nodes p n.
Proof. rewrite nodes_update. by rewrite decide_True. Qed.

Lemma nodes_update_ne n f p m : m ≠ n → nodes (update n f p) m = nodes p m.
Proof. intros H. rewrite nodes_update. by rewrite decide_False. Qed.

Lemma nodes_setTitle v p : nodes (setTitle v p) = nodes p.
Proof. done. Qed.

Lemma nodes_setMeetingGroups v p : nodes (setMeetingGroups v p) = nodes p.
Proof. done. Qed.

Lemma nodes_setVisibleCount v p : nodes (setVisibleCount v p) = nodes p.
Proof. done. Qed.

Lemma nodes_setSpeechList v p : nodes (setSpeechList v p) = nodes p.
Proof. done. Qed.

Lemma nodes_renderVisibleGroups p : nodes (Member.renderVisibleGroups p) = nodes p.
Proof. done. Qed.

(** Rewrites the lookup of node [m] through steps that touch other nodes. *)
Ltac other_nodes :=
  repeat first
    [ rewrite nodes_update_ne by done
    | rewrite nodes_setTitle | rewrite nodes_setMeetingGroups
    | rewrite nodes_setVisibleCount | rewrite nodes_setSpeechList
    | rewrite nodes_renderVisibleGroups ].

Lemma renderDisabilityLeagues_other leagues p m :
  m ≠ LeagueSection → m ≠ LeagueList → m ≠ LeaguePlaceholder →
  nodes (Member.renderDisabilityLeagues leagues p) m = nodes p m.
Proof.
  intros H1 H2 H3. unfold Member.renderDisabilityLeagues.
  repeat case_match; rewrite ?nodes_update_ne by done; done.
Qed.

Lemma renderWrittenQuestions_other qs p m :
  m ≠ QuestionsSection → m ≠ QuestionsList → m ≠ QuestionsPlaceholder →
  nodes (Member.renderWrittenQuestions qs p) m = nodes p m.
Proof.
  intros H1 H2 H3. unfold Member.renderWrittenQuestions.
  repeat case_match; rewrite ?nodes_update_ne by done; done.
Qed.

Lemma updateLoadMoreButton_other p m :
  m ≠ LoadMoreButton → nodes (Member.updateLoadMoreButton p) m = nodes p m.
Proof.
  intros H. unfold Member.updateLoadMoreButton.
  repeat case_match; rewrite ?nodes_update_ne by done; done.
Qed.

Lemma renderMember_placeholder slug records profile p :
  nodes (Member.renderMember slug records profile p) Placeholder = nodes p Placeholder.
Proof.
  unfold Member.renderMember.
  repeat case_match;
    rewrite ?renderWrittenQuestions_other, ?renderDisabilityLeagues_other by done;
    by other_nodes.
Qed.

(** After [render] the placeholder either carries the no-speeches notice or
    has been removed. *)
Lemma render_placeholder slug lc records profile p e :
  nodes (Member.render slug lc records profile p) Placeholder = Some e →
  content e = Text NO_SPEECHES ∨ attached e = false.
Proof.
  unfold Member.render. case_match.
  - other_nodes. rewrite nodes_update_eq, renderMember_placeholder.
    destruct (nodes p Placeholder); [|done]. intros [= <-]. by left.
  - rewrite updateLoadMoreButton_other by done. other_nodes.
    rewrite nodes_update_eq, renderMember_placeholder.
    destruct (nodes p Placeholder); [|done]. intros [= <-]. by right.
Qed.

(** C7: when the roster fetch rejects or answers with a non-OK status and
    the speech fetch succeeds, [loadData] renders the payload with no
    profile, exactly as for a roster without the member; nothing is written
    to the console, and the placeholder carries the no-speeches notice or is
    removed, never the failure message. *)
Theorem C7_roster_failure_absorbed (slug : option string) (s : string)
    (localeCompare : string → string → Z) (status : Z) (payload : Payload)
    (rosterRes : Fetched Roster) (p : Page) :
  slug = Some s → s ≠ "" →
  ok status = true →
  match rosterRes with
  | Rejected _ => True
  | Response rosterStatus _ => ok rosterStatus = false
  end →
  let p' := Member.loadData slug localeCompare (Response status (Json payload)) rosterRes p in
  p' = Member.render slug localeCompare payload None p
  ∧ p' = Member.loadData slug localeCompare (Response status (Json payload))
           (Response 200 (Json (RosterArray []))) p
  ∧ console p' = console p
  ∧ ∀ e, nodes p' Placeholder = Some e →
      (content e = Text NO_SPEECHES ∨ attached e = false)
      ∧ ∀ message, content e ≠ Text ("読み込みに失敗しました: " +:+ message)
                   ∨ attached e = false.
Proof.
  intros -> Hs Hok Hroster p'.
  assert (H404 : (status =? 404) = false).
  { apply Z.eqb_neq. intros ->. done. }
  assert (Hrender : p' = Member.render (Some s) localeCompare payload None p).
  { subst p'. unfold Member.loadData. rewrite decide_False by done.
    destruct rosterRes as [message | rosterStatus rosterBody].
    - by rewrite H404, Hok.
    - by rewrite Hroster, H404, Hok. }
  split; [done|]. split.
  { rewrite Hrender. unfold Member.loadData. rewrite decide_False by done.
    simpl. by rewrite H404, Hok. }
  split; [rewrite Hrender; apply render_console|].
  intros e He. rewrite Hrender in He. apply render_placeholder in He.
  split; [done|]. intros message. destruct He as [-> | ->]; [left|by right].
  unfold NO_SPEECHES. intros [= H].
Qed.

Lemma findProfile_first s roster entry :
  entry ∈ Member.rosterList roster → pf_slug entry = Val s →
  ∃ profile, Member.findProfile s roster = Some profile ∧ pf_slug profile = Val s.
Proof.
  unfold Member.findProfile. generalize (Member.rosterList roster). intros l.
  induction l as [|x l IH]; [by intros ?%elem_of_nil|].
  intros Hin Hslug. simpl. destruct (strictEq (pf_slug x) s) eqn:E.
  - exists x. split; [done|]. unfold strictEq in E.
    destruct (pf_slug x) as [| |t]; [done..|]. by apply bool_decide_eq_true in E as ->.
  - apply elem_of_cons in Hin as [->|Hin]; [|by apply IH].
    rewrite Hslug in E. simpl in E. by rewrite bool_decide_true in E.
Qed.

Lemma renderDisabilityLeagues_shown leagues p section list :
  nodes p LeagueSection = Some section → nodes p LeagueList = Some list →
  nodes (Member.renderDisabilityLeagues leagues p) LeagueSection
    = Some (setHidden false section)
  ∧ match leagues with
    | [] =>
        nodes (Member.renderDisabilityLeagues leagues p) LeagueList
          = Some (setHidden true list)
        ∧ nodes (Member.renderDisabilityLeagues leagues p) LeaguePlaceholder
          = setContent (Text NO_LEAGUES) <$> nodes p LeaguePlaceholder
    | _ :: _ =>
        nodes (Member.renderDisabilityLeagues leagues p) LeagueList
          = Some (setContent (LeagueItems leagues) (setHidden false list))
        ∧ nodes (Member.renderDisabilityLeagues leagues p) LeaguePlaceholder
          = remove <$> nodes p LeaguePlaceholder
    end.
Proof.
  intros Hs Hl. unfold Member.renderDisabilityLeagues, exists_. rewrite Hs, Hl. simpl.
  destruct leagues as [|l ls]; rewrite !nodes_update; simpl; by rewrite ?Hs, ?Hl.
Qed.

(** C8: when the speech fetch answers 404 and the roster fetch succeeds with
    an entry for the slug, [loadData] takes [renderFallback] with the first
    such entry: the league section is shown with the profile's leagues (or
    the no-league notice when it has none), the summary section carries the
    not-yet-registered notice, the placeholder is removed and nothing is
    written to the console. *)
Theorem C8_not_found_fallback (slug : option string) (s : string)
    (localeCompare : string → string → Z) (body : Body Payload)
    (rosterStatus : Z) (roster : Roster) (entry : MemberProfile) (p : Page) :
  slug = Some s → s ≠ "" →
  ok rosterStatus = true →
  entry ∈ Member.rosterList roster → pf_slug entry = Val s →
  let p' := Member.loadData slug localeCompare (Response 404 body)
              (Response rosterStatus (Json roster)) p in
  ∃ profile,
    Member.findProfile s roster = Some profile ∧ pf_slug profile = Val s
    ∧ p' = Member.renderFallback slug (Some profile) p
    ∧ console p' = console p
    ∧ (∀ e, nodes p SummarySection = Some e →
         nodes p' SummarySection
           = Some (setContent (Paragraph "placeholder" NOT_REGISTERED) e))
    ∧ (∀ e, nodes p' Placeholder = Some e → attached e = false)
    ∧ (∀ section list,
         nodes p LeagueSection = Some section → nodes p LeagueList = Some list →
         nodes p' LeagueSection = Some (setHidden false section)
         ∧ match array_or_empty (pf_disability_leagues profile) with
           | [] =>
               nodes p' LeagueList = Some (setHidden true list)
               ∧ nodes p' LeaguePlaceholder
                   = setContent (Text NO_LEAGUES) <$> nodes p LeaguePlaceholder
           | (_ :: _) as leagues =>
               nodes p' LeagueList
                 = Some (setContent (LeagueItems leagues) (setHidden false list))
           end).
Proof.
  intros -> Hs Hok Hin Hslug p'.
  destruct (findProfile_first s roster entry Hin Hslug) as (profile & Hfind & Hprof).
  exists profile. split; [done|]. split; [done|].
  assert (Hp' : p' = Member.renderFallback (Some s) (Some profile) p).
  { subst p'. unfold Member.loadData. rewrite decide_False by done.
    by rewrite Hok, Hfind. }
  split; [done|]. rewrite Hp'. clear Hp' p'.
  split; [apply renderFallback_frame|].
  unfold Member.renderFallback. simpl.
  set (q := update MemberMetaEl _ _).
  assert (Hq : ∀ m, m ≠ MemberMetaEl → m ≠ MemberNameEl → nodes q m = nodes p m).
  { intros m H1 H2. subst q. by other_nodes. }
  split; [|split].
  - intros e He. by rewrite renderDisabilityLeagues_other, Hq, He by done.
  - intros e. rewrite renderDisabilityLeagues_other, Hq by done.
    destruct (nodes p Placeholder); [|done]. by intros [= <-].
  - intros section list Hsec Hlist.
    destruct (renderDisabilityLeagues_shown
      (array_or_empty (pf_disability_leagues profile)) q section list) as [H1 H2];
      [by rewrite Hq | by rewrite Hq |].
    split; [done|].
    destruct (array_or_empty (pf_disability_leagues profile)) as [|l ls].
    + destruct H2 as [H2 H3]. split; [done|]. by rewrite H3, Hq.
    + by destruct H2.
Qed.

(** ** The older copy and the load-more button

    Its [updateLoadMoreButton] has no test on the number of groups: the
    button is hidden exactly when [hasMore] is false.  That is the case after
    its [render] of one to five groups and after every later click.  For an
    empty data set its [render] returns before [updateLoadMoreButton]: the
    button keeps the state the page markup gave it. *)

Lemma legacy_updateLoadMoreButton_frame p :
  meetingGroups (MemberLegacy.updateLoadMoreButton p) = meetingGroups p
  ∧ visibleCount (MemberLegacy.updateLoadMoreButton p) = visibleCount p
  ∧ ∀ n, exists_ n (MemberLegacy.updateLoadMoreButton p) = exists_ n p.
Proof. repeat split; frame. Qed.

Lemma legacy_updateLoadMoreButton_hidden p btn :
  nodes (MemberLegacy.updateLoadMoreButton p) LoadMoreButton = Some btn →
  hidden btn = negb (Member.hasMore p).
Proof.
  unfold MemberLegacy.updateLoadMoreButton, exists_.
  destruct (nodes p LoadMoreButton) as [b|] eqn:E; simpl; [|by rewrite E].
  rewrite (hasMore_frame p (update LoadMoreButton _ p)) by done.
  destruct (Member.hasMore p).
  - rewrite !nodes_update, !decide_True, E by done. by intros [= <-].
  - rewrite !nodes_update, !decide_True, E by done. by intros [= <-].
Qed.

Lemma legacy_renderMember_frame slug records p :
  Frame p (MemberLegacy.renderMember slug records p).
Proof. unfold MemberLegacy.renderMember. repeat case_match; frame_all. Qed.

Lemma legacy_onLoadMoreClick_script p :
  exists_ LoadMoreButton p = true →
  length (meetingGroups (MemberLegacy.onLoadMoreClick p)) = length (meetingGroups p)
  ∧ visibleCount (MemberLegacy.onLoadMoreClick p)
    = Z.min (visibleCount p + PAGE_SIZE) (Z.of_nat (length (meetingGroups p))).
Proof.
  intros He. unfold MemberLegacy.onLoadMoreClick. rewrite He. simpl.
  destruct (legacy_updateLoadMoreButton_frame
    (Member.renderVisibleGroups
       (setVisibleCount
          (Z.min (visibleCount p + PAGE_SIZE) (Z.of_nat (length (meetingGroups p)))) p)))
    as (-> & -> & _).
  by rewrite renderVisibleGroups_length.
Qed.

Lemma legacy_onLoadMoreClick_exists n p :
  exists_ n (MemberLegacy.onLoadMoreClick p) = exists_ n p.
Proof.
  unfold MemberLegacy.onLoadMoreClick. case_match; [done|].
  by destruct (legacy_updateLoadMoreButton_frame
    (Member.renderVisibleGroups
       (setVisibleCount
          (Z.min (visibleCount p + PAGE_SIZE) (Z.of_nat (length (meetingGroups p)))) p)))
    as (_ & _ & ->).
Qed.

(** A click on a page that shows all of its at most five groups. *)
Lemma legacy_onLoadMoreClick_single_page p :
  (length (meetingGroups p) ≤ 5)%nat →
  visibleCount p = Z.of_nat (length (meetingGroups p)) →
  (length (meetingGroups (MemberLegacy.onLoadMoreClick p)) ≤ 5)%nat
  ∧ visibleCount (MemberLegacy.onLoadMoreClick p)
    = Z.of_nat (length (meetingGroups (MemberLegacy.onLoadMoreClick p)))
  ∧ ∀ btn, nodes (MemberLegacy.onLoadMoreClick p) LoadMoreButton = Some btn →
      hidden btn = true.
Proof.
  intros Hlen Hv. destruct (exists_ LoadMoreButton p) eqn:He.
  - destruct (legacy_onLoadMoreClick_script p He) as [Hl Hc].
    rewrite Hl, Hc. unfold PAGE_SIZE. split; [done|]. split; [lia|].
    intros btn. unfold MemberLegacy.onLoadMoreClick. rewrite He. simpl.
    intros ->%legacy_updateLoadMoreButton_hidden.
    apply negb_true_iff, not_true_iff_false. rewrite hasMore_lt.
    rewrite renderVisibleGroups_length. simpl. unfold PAGE_SIZE. lia.
  - unfold MemberLegacy.onLoadMoreClick. rewrite He. simpl.
    split; [done|]. split; [done|]. intros btn Hb. unfold exists_ in He.
    by rewrite Hb in He.
Qed.

Lemma legacy_render_groups slug lc records p :
  Member.noGroups records = false →
  (length (meetingGroups (MemberLegacy.render slug lc records p)) ≤ 5)%nat →
  visibleCount (MemberLegacy.render slug lc records p)
    = Z.of_nat (length (meetingGroups (MemberLegacy.render slug lc records p)))
  ∧ ∀ btn, nodes (MemberLegacy.render slug lc records p) LoadMoreButton = Some btn →
      hidden btn = true.
Proof.
  intros Hne. unfold MemberLegacy.render. rewrite Hne.
  set (q := Member.renderVisibleGroups _).
  destruct (legacy_updateLoadMoreButton_frame q) as (-> & -> & _).
  assert (Hq : visibleCount q
            = Z.min PAGE_SIZE (Z.of_nat (length (meetingGroups q)))).
  { subst q. by rewrite renderVisibleGroups_length. }
  intros Hlen. unfold PAGE_SIZE in Hq. split; [lia|].
  intros btn ->%legacy_updateLoadMoreButton_hidden.
  apply negb_true_iff, not_true_iff_false. rewrite hasMore_lt. lia.
Qed.

Lemma legacy_load_more_hidden slug lc records list doc p0 :
  Member.noGroups records = false →
  p0 = MemberLegacy.render slug lc records (initialPage list doc) →
  (length (meetingGroups p0) ≤ 5)%nat →
  ∀ m btn,
    nodes (clicks MemberLegacy.onLoadMoreClick m p0) LoadMoreButton = Some btn →
    hidden btn = true.
Proof.
  intros Hne -> Hlen m.
  destruct (legacy_render_groups slug lc records (initialPage list doc) Hne Hlen)
    as [Hv Hb].
  revert Hlen Hv Hb. generalize (MemberLegacy.render slug lc records (initialPage list doc)).
  induction m as [|m IH]; intros p Hlen Hv Hb; simpl; [done|].
  destruct (legacy_onLoadMoreClick_single_page p Hlen Hv) as (Hlen' & Hv' & Hb').
  by apply IH.
Qed.

Lemma legacy_render_empty slug lc records p :
  Member.noGroups records = true →
  nodes (MemberLegacy.render slug lc records p) LoadMoreButton = nodes p LoadMoreButton.
Proof.
  intros He. unfold MemberLegacy.render. rewrite He.
  rewrite nodes_update_ne by done.
  unfold MemberLegacy.renderMember. repeat case_match; by other_nodes.
Qed.

(** C9: the older copy of the member detail script on an empty data set.
    The speech fetch answers 200 with the empty array and the page delivers
    its load-more button visible.  After the older copy's [loadData] there
    are 0 meeting groups, which is at most one page, and the button is still
    visible; its first click is what hides it.  The current copy, given the
    same data and page, has the button hidden right after [loadData]. *)
Theorem C9_older_copy_keeps_button_on_empty_data :
  (∃ btn,
     nodes (MemberLegacy.loadData (Some "tanaka") compareBytes
              (Response 200 (Json (Flat []))) Sample.page) LoadMoreButton = Some btn
     ∧ hidden btn = false)
  ∧ length (meetingGroups (MemberLegacy.loadData (Some "tanaka") compareBytes
                             (Response 200 (Json (Flat []))) Sample.page)) = 0%nat
  ∧ (∃ btn,
       nodes (MemberLegacy.onLoadMoreClick
                (MemberLegacy.loadData (Some "tanaka") compareBytes
                   (Response 200 (Json (Flat []))) Sample.page)) LoadMoreButton = Some btn
       ∧ hidden btn = true)
  ∧ (∃ btn,
       nodes (Member.loadData (Some "tanaka") compareBytes
                (Response 200 (Json (Flat [])))
                (Response 200 (Json (RosterArray [Sample.profile]))) Sample.page)
         LoadMoreButton = Some btn
       ∧ hidden btn = true).
Proof.
  split; [|split; [|split]].
  - eexists. split; reflexivity.
  - reflexivity.
  - eexists. split; reflexivity.
  - eexists. split; reflexivity.
Qed.

(** ** Text: stripping, collapsing, trimming *)

Module TextFacts.
Import Text TextProps.
Local Open Scope N_scope.

Lemma markerLength_other c t : c ≠ CIRCLE → markerLength (c :: t) = None.
Proof. intros H. simpl. by apply N.eqb_neq in H as ->. Qed.





Lemma collapseFrom_elem x s : ∀ inRun,
  x ∈ collapseFrom inRun s → x = SPACE ∨ x ∈ s.
Proof.
  induction s as [|c rest IH]; intros inRun; simpl; [by intros ?%elem_of_nil|].
  destruct (isWhiteSpace c), inRun; rewrite ?elem_of_cons; intros H;
    repeat match goal with
           | H : _ ∨ _ |- _ => destruct H as [H|H]
           | H : _ ∈ collapseFrom _ _ |- _ => apply IH in H
           end; rewrite ?elem_of_cons; eauto.
Qed.






Lemma dropWhile_suffix p s : ∃ t, s = t ++ dropWhile p s.
Proof.
  induction s as [|c s [t IH]]; simpl; [by exists []|].
  destruct (p c); [|by exists []]. exists (c :: t). simpl. by rewrite <- IH.
Qed.

Lemma dropWhile_head p s c : head (dropWhile p s) = Some c → p c = false.
Proof.
  induction s as [|x s IH]; simpl; [done|].
  destruct (p x) eqn:E; [done|]. simpl. by intros [= <-].
Qed.

Lemma dropWhile_id p s : (∀ c, head s = Some c → p c = false) → dropWhile p s = s.
Proof. destruct s as [|c s]; simpl; [done|]. intros H. by rewrite (H c). Qed.

Lemma trimEnd_prefix s : ∃ t, s = trimEnd s ++ t.
Proof.
  unfold trimEnd. destruct (dropWhile_suffix isWhiteSpace (reverse s)) as [t Ht].
  exists (reverse t). rewrite <- reverse_app, <- Ht. by rewrite reverse_involutive.
Qed.

Lemma trimEnd_last s c : last (trimEnd s) = Some c → isWhiteSpace c = false.
Proof. unfold trimEnd. rewrite last_reverse. apply dropWhile_head. Qed.

Lemma trimEnd_id s :
  (∀ c, last s = Some c → isWhiteSpace c = false) → trimEnd s = s.
Proof.
  intros H. unfold trimEnd. rewrite dropWhile_id; [apply reverse_involutive|].
  intros c. rewrite head_reverse. apply H.
Qed.

Lemma trim_Trimmed s : Trimmed (trim s).
Proof.
  unfold trim. split; [|apply trimEnd_last].
  intros c Hc. apply (dropWhile_head isWhiteSpace s). fold (trimStart s).
  destruct (trimEnd_prefix (trimStart s)) as [t Ht].
  destruct (trimEnd (trimStart s)) as [|x u]; [done|].
  simpl in Hc. inversion Hc; subst. by rewrite Ht.
Qed.

Lemma trim_id s : Trimmed s → trim s = s.
Proof.
  intros [Hh Hl]. unfold trim, trimStart. rewrite dropWhile_id by done.
  by apply trimEnd_id.
Qed.

Lemma dropWhile_elem p s x : x ∈ dropWhile p s → x ∈ s.
Proof.
  destruct (dropWhile_suffix p s) as [t Ht]. intros H.
  rewrite Ht. apply elem_of_app. by right.
Qed.

Lemma trimEnd_elem s x : x ∈ trimEnd s → x ∈ s.
Proof.
  destruct (trimEnd_prefix s) as [t Ht]. intros H.
  rewrite Ht. apply elem_of_app. by left.
Qed.

Lemma trim_elem x s : x ∈ trim s → x ∈ s.
Proof. unfold trim, trimStart. by intros ?%trimEnd_elem%dropWhile_elem. Qed.





Lemma cleanText_Trimmed s : Trimmed (cleanText s).
Proof. apply trim_Trimmed. Qed.

End TextFacts.

(** ** The character-truncating summary *)

Section SummaryFacts.
Import Text TextProps TextFacts.

Lemma extractSummary_elem text x :
  x ∈ Summary.extractSummary text →
  x = ELLIPSIS ∨ ∃ s, text = Val s ∧ x ∈ cleanText s.
Proof.
  destruct text as [| |[|c s]]; simpl; try by intros ?%elem_of_nil.
  rewrite elem_of_app. intros [H|H].
  - right. exists (c :: s). split; [done|]. by eapply subseteq_take.
  - left. destruct (_ <? _)%nat; [by apply list_elem_of_singleton in H|].
    by apply elem_of_nil in H.
Qed.



End SummaryFacts.

(** ** The sentence summary of [hino.js] *)

Section HinoFacts.
Import Text TextProps TextFacts.

(** The non-empty segments between the periods. *)
Local Abbreviation sentences x := (List.filter nonEmpty (split KUTEN x)).

Lemma split_cons_KUTEN y : split KUTEN (KUTEN :: y) = [] :: split KUTEN y.
Proof. done. Qed.

Lemma split_cons_other c y :
  c ≠ KUTEN →
  split KUTEN (c :: y) = match split KUTEN y with
                         | seg :: segs => (c :: seg) :: segs
                         | [] => [[c]]
                         end.
Proof. intros H. simpl. by apply N.eqb_neq in H as ->. Qed.

Lemma split_sentence x : KUTEN ∉ x → split KUTEN x = [x].
Proof.
  induction x as [|c x IH]; [done|]. rewrite not_elem_of_cons. intros [Hc Hx].
  rewrite split_cons_other by done. by rewrite IH.
Qed.

Lemma split_app x y : KUTEN ∉ x → split KUTEN (x ++ KUTEN :: y) = x :: split KUTEN y.
Proof.
  induction x as [|c x IH]; [done|]. rewrite not_elem_of_cons. intros [Hc Hx].
  rewrite <- app_comm_cons, split_cons_other by done. by rewrite IH.
Qed.

Lemma sentences_periods e y : Periods e → sentences (e ++ y) = sentences y.
Proof.
  induction 1 as [|c e -> He IH]; [done|].
  by rewrite <- app_comm_cons, split_cons_KUTEN.
Qed.

Lemma sentences_only_periods e : Periods e → sentences e = [].
Proof.
  intros He. rewrite <- (app_nil_r e). by rewrite sentences_periods.
Qed.

Lemma sentences_app x y : Sentence x → sentences (x ++ KUTEN :: y) = x :: sentences y.
Proof.
  intros [Hne Hx]. rewrite split_app by done. simpl. by destruct x.
Qed.

Lemma sentences_last x : Sentence x → sentences x = [x].
Proof.
  intros [Hne Hx]. rewrite split_sentence by done. simpl. by destruct x.
Qed.

Lemma sentences_tail x rest :
  Sentence x → rest = [] ∨ head rest = Some KUTEN →
  ∃ more, sentences (x ++ rest) = x :: more.
Proof.
  intros Hx [->|Hrest].
  - rewrite app_nil_r, sentences_last by done. eauto.
  - destruct rest as [|c r]; [done|]. simpl in Hrest. inversion Hrest; subst.
    rewrite sentences_app by done. eauto.
Qed.

Lemma hino_extractSummary s :
  s ≠ [] →
  Hino.extractSummary (Val s) =
    trim (if nonEmpty (join KUTEN (take 2 (sentences (cleanText s))))
          then join KUTEN (take 2 (sentences (cleanText s))) ++ [KUTEN]
          else cleanText s).
Proof. by destruct s. Qed.

Lemma nonEmpty_app x y : x ≠ [] → nonEmpty (x ++ y) = true.
Proof. by destruct x. Qed.

(** Texts without marks and white space are left alone by the cleaning. *)
Lemma replaceMarkers_plain s : ∀ atStart,
  CIRCLE ∉ s → replaceMarkers 0 atStart s = s.
Proof.
  induction s as [|c s IH]; intros atStart; [done|].
  rewrite not_elem_of_cons. intros [Hc Hs]. cbn [replaceMarkers].
  rewrite markerLength_other, IH by done. by destruct atStart.
Qed.

Lemma collapseFrom_plain s : ∀ inRun,
  Forall (λ c, isWhiteSpace c = false) s → collapseFrom inRun s = s.
Proof.
  induction s as [|c s IH]; intros inRun; [done|].
  intros [Hc Hs]%Forall_cons. simpl. by rewrite Hc, IH.
Qed.

Lemma Trimmed_plain s : Forall (λ c, isWhiteSpace c = false) s → Trimmed s.
Proof.
  intros H. rewrite Forall_forall in H.
  split; intros c Hc; apply H; [by eapply head_Some_elem_of | by eapply last_Some_elem_of].
Qed.

Lemma cleanText_plain s :
  CIRCLE ∉ s → Forall (λ c, isWhiteSpace c = false) s → cleanText s = s.
Proof.
  intros Hc Hw. unfold cleanText, stripMarkers, collapseWhitespace.
  rewrite replaceMarkers_plain, collapseFrom_plain by done.
  by apply trim_id, Trimmed_plain.
Qed.

(** C6 as stated fails when the cleaned text has no sentence.  A text of
    periods only comes back whole, and a text that is only a speaker marker
    gives the empty summary; "the first two segments joined, with a trailing
    period" is neither, whether or not empty segments count. *)
Lemma C6_no_sentence :
  (Hino.extractSummary (Val [12290; 12290; 12290]%N) = [12290; 12290; 12290]%N
   ∧ Hino.extractSummary (Val [12290; 12290; 12290]%N)
       ≠ firstTwoSegments (cleanText [12290; 12290; 12290]%N)
   ∧ Hino.extractSummary (Val [12290; 12290; 12290]%N)
       ≠ firstTwoSentences (cleanText [12290; 12290; 12290]%N))
  ∧ (Hino.extractSummary (Val [9675; 30000; 20013; 12288]%N) = []
     ∧ firstTwoSegments (cleanText [9675; 30000; 20013; 12288]%N) = [KUTEN]
     ∧ firstTwoSentences (cleanText [9675; 30000; 20013; 12288]%N) = [KUTEN]).
Proof. vm_compute. repeat split; intros [=]. Qed.

(** C6, amended: after the cleaning shared with the other summary, the
    sentence summary is the first two non-empty segments between periods,
    joined by a period and followed by one, then trimmed: empty segments are
    skipped, what follows the second segment is dropped, and nothing is cut
    inside a segment whatever its length.  When the cleaned text has no
    non-empty segment it is returned as it is, and an undefined, null or
    empty text gives the empty summary. *)
Theorem C6_sentence_summary (text : opt jsstring) :
  (∀ s, text = Val s → s ≠ [] →
     (∀ e0 s1 e1 s2 rest,
        Periods e0 → Sentence s1 → Periods e1 → Sentence s2 →
        rest = [] ∨ head rest = Some KUTEN →
        cleanText s = e0 ++ s1 ++ KUTEN :: e1 ++ s2 ++ rest →
        Hino.extractSummary text = trim (s1 ++ KUTEN :: s2 ++ [KUTEN]))
     ∧ (∀ s1 s2 rest,
          Sentence s1 → Sentence s2 → rest = [] ∨ head rest = Some KUTEN →
          cleanText s = s1 ++ KUTEN :: s2 ++ rest →
          Hino.extractSummary text = s1 ++ KUTEN :: s2 ++ [KUTEN])
     ∧ (∀ e0 s1 e1,
          Periods e0 → Sentence s1 → Periods e1 →
          cleanText s = e0 ++ s1 ++ e1 →
          Hino.extractSummary text = trim (s1 ++ [KUTEN]))
     ∧ (Periods (cleanText s) → Hino.extractSummary text = cleanText s))
  ∧ (∀ x, text = Val x → x ≠ [] →
       Forall (λ c, c ≠ CIRCLE ∧ c ≠ KUTEN ∧ isWhiteSpace c = false) x →
       Hino.extractSummary text = x ++ [KUTEN])
  ∧ (text = Undefined ∨ text = Null ∨ text = Val [] →
       Hino.extractSummary text = []).
Proof.
  assert (Htwo : ∀ (s e0 s1 e1 s2 rest : jsstring),
    s ≠ [] → Periods e0 → Sentence s1 → Periods e1 → Sentence s2 →
    rest = [] ∨ head rest = Some KUTEN →
    cleanText s = e0 ++ s1 ++ KUTEN :: e1 ++ s2 ++ rest →
    Hino.extractSummary (Val s) = trim (s1 ++ KUTEN :: s2 ++ [KUTEN])).
  { intros s e0 s1 e1 s2 rest Hs He0 Hs1 He1 Hs2 Hrest Hclean.
    rewrite hino_extractSummary, Hclean by done.
    rewrite sentences_periods, sentences_app, sentences_periods by done.
    destruct (sentences_tail s2 rest Hs2 Hrest) as [more ->].
    change (take 2 (s1 :: s2 :: more)) with [s1; s2].
    change (join KUTEN [s1; s2]) with (s1 ++ KUTEN :: s2).
    rewrite nonEmpty_app by apply Hs1.
    by rewrite <- app_assoc, <- app_comm_cons. }
  assert (Hone : ∀ (s e0 s1 e1 : jsstring),
    s ≠ [] → Periods e0 → Sentence s1 → Periods e1 →
    cleanText s = e0 ++ s1 ++ e1 →
    Hino.extractSummary (Val s) = trim (s1 ++ [KUTEN])).
  { intros s e0 s1 e1 Hs He0 Hs1 He1 Hclean.
    rewrite hino_extractSummary, Hclean by done.
    rewrite sentences_periods by done.
    assert (sentences (s1 ++ e1) = [s1]) as ->.
    { destruct He1 as [|c e1 -> He1].
      - by rewrite app_nil_r, sentences_last.
      - by rewrite sentences_app, sentences_only_periods. }
    change (join KUTEN (take 2 [s1])) with s1.
    destruct s1; [by destruct Hs1|done]. }
  split; [|split].
  - intros s -> Hs. split; [|split; [|split]].
    + intros e0 s1 e1 s2 rest. by apply Htwo.
    + intros s1 s2 rest Hs1 Hs2 Hrest Hclean.
      rewrite (Htwo s [] s1 [] s2 rest Hs (List.Forall_nil _) Hs1 (List.Forall_nil _) Hs2 Hrest Hclean).
      apply trim_id. destruct (cleanText_Trimmed s) as [Hh _]. split.
      * intros c Hc. apply Hh. rewrite Hclean.
        destruct s1; [by destruct Hs1|done].
      * intros c. rewrite app_comm_cons, app_assoc, last_snoc. by intros [= <-].
    + intros e0 s1 e1. by apply Hone.
    + intros Hp. rewrite hino_extractSummary by done.
      rewrite sentences_only_periods by done. simpl.
      apply trim_id, cleanText_Trimmed.
  - intros x -> Hx Hall.
    assert (Hclean : cleanText x = x).
    { apply cleanText_plain.
      - intros Hin. rewrite Forall_forall in Hall. by destruct (Hall _ Hin).
      - eapply Forall_impl; [done|]. by intros c (_ & _ & ?). }
    assert (Hsent : Sentence x).
    { split; [done|]. intros Hin. rewrite Forall_forall in Hall.
      by destruct (Hall _ Hin) as (_ & ? & _). }
    assert (Hshape : cleanText x = [] ++ x ++ []) by (by rewrite Hclean, app_nil_r).
    rewrite (Hone x [] x [] Hx (List.Forall_nil _) Hsent (List.Forall_nil _) Hshape).
    apply trim_id. split.
    + intros c Hc. rewrite Forall_forall in Hall.
      destruct x as [|c' x']; [done|]. simpl in Hc. inversion Hc; subst.
      apply Hall. apply list_elem_of_here.
    + intros c. rewrite last_snoc. by intros [= <-].
  - by intros [->|[->| ->]].
Qed.
End HinoFacts.

(** ** The theorems at the sample data *)

Lemma C2_groups_sorted_by_date_witness :
  DateDescending compareBytes (Member.groupByMeeting compareBytes Sample.records)
  ∧ DateDescending compareBytes
      (meetingGroups
         (clicks Member.onLoadMoreClick 1
            (Member.loadData (Some "tanaka") compareBytes
               (Response 200 (Json (Flat Sample.records))) (Rejected "Failed to fetch")
               (clicks Member.onLoadMoreClick 0
                  (initialPage Sample.element (λ _, Some Sample.element)))))).
Proof.
  destruct (C2_groups_sorted_by_date (Some "tanaka") compareBytes compareBytes_collation)
    as (Hflat & _ & _ & Hpage).
  split; [apply Hflat|].
  exact (proj1 (Hpage Sample.element (λ _, Some Sample.element) _ eq_refl
           (reach_loaded (Some "tanaka") compareBytes Sample.element
              (λ _, Some Sample.element) 0 1
              (Response 200 (Json (Flat Sample.records))) (Rejected "Failed to fetch")))).
Defined.

Lemma C4_advance_idempotent_witness :
  visibleCount
    (clicks Member.onLoadMoreClick 3
       (clicks Member.onLoadMoreClick 0
          (Member.loadData (Some "tanaka") compareBytes
             (Response 200 (Json (Flat Sample.records))) (Rejected "Failed to fetch")
             (clicks Member.onLoadMoreClick 0 Sample.page))))
  = visibleCount
      (clicks Member.onLoadMoreClick 0
         (Member.loadData (Some "tanaka") compareBytes
            (Response 200 (Json (Flat Sample.records))) (Rejected "Failed to fetch")
            (clicks Member.onLoadMoreClick 0 Sample.page))).
Proof.
  apply (C4_advance_idempotent (Some "tanaka") compareBytes Sample.element
           (λ _, Some Sample.element) _
           (reach_loaded (Some "tanaka") compareBytes Sample.element
              (λ _, Some Sample.element) 0 0
              (Response 200 (Json (Flat Sample.records))) (Rejected "Failed to fetch"))).
  reflexivity.
Defined.


Lemma C6_sentence_summary_witness :
  Hino.extractSummary (Val Sample.speech1)
  = [12371; 12435; 12395; 12385; 12399; 12290; 27425; 12418; 12290]%N.
Proof.
  destruct (proj1 (C6_sentence_summary (Val Sample.speech1)) Sample.speech1 eq_refl)
    as (_ & Htwo & _); [done|].
  apply (Htwo [12371; 12435; 12395; 12385; 12399]%N [27425; 12418]%N [12290]%N).
  - split; [done|]. by apply (bool_decide_unpack _).
  - split; [done|]. by apply (bool_decide_unpack _).
  - by right.
  - reflexivity.
Defined.

Lemma C7_roster_failure_absorbed_witness :
  Member.loadData (Some "tanaka") compareBytes
    (Response 200 (Json (Flat Sample.records))) (Response 503 (Malformed "")) Sample.page
  = Member.render (Some "tanaka") compareBytes (Flat Sample.records) None Sample.page.
Proof.
  apply (C7_roster_failure_absorbed (Some "tanaka") "tanaka" compareBytes 200
           (Flat Sample.records) (Response 503 (Malformed "")) Sample.page);
    [reflexivity | discriminate | reflexivity | reflexivity].
Defined.

Lemma C8_not_found_fallback_witness :
  ∃ profile,
    Member.findProfile "tanaka" (RosterArray [Sample.profile]) = Some profile
    ∧ pf_slug profile = Val "tanaka"
    ∧ Member.loadData (Some "tanaka") compareBytes (Response 404 (Malformed ""))
        (Response 200 (Json (RosterArray [Sample.profile]))) Sample.page
      = Member.renderFallback (Some "tanaka") (Some profile) Sample.page.
Proof.
  destruct (C8_not_found_fallback (Some "tanaka") "tanaka" compareBytes (Malformed "")
              200 (RosterArray [Sample.profile]) Sample.profile Sample.page)
    as (profile & H1 & H2 & H3 & _);
    [reflexivity | discriminate | reflexivity | apply list_elem_of_here | reflexivity |].
  exists profile. split; [exact H1|]. split; [exact H2 | exact H3].
Defined.

Lemma load_more_hidden_in_current_copy_witness :
  ∃ btn,
    nodes (clicks Member.onLoadMoreClick 2
             (Member.render (Some "tanaka") compareBytes (Flat Sample.records) None
                (clicks Member.onLoadMoreClick 0 Sample.page)))
      LoadMoreButton = Some btn
    ∧ hidden btn = true.
Proof.
  eexists. split; [reflexivity|].
  apply (load_more_hidden_in_current_copy (Some "tanaka") compareBytes (Flat Sample.records) None
           Sample.element (λ _, Some Sample.element) 0 ltac:(vm_compute; lia) 2 _ eq_refl).
Defined.

Lemma C10_questions_sorted_witness :
  ∃ e sorted,
    nodes (Member.renderWrittenQuestions Sample.questions Sample.page) QuestionsList = Some e
    ∧ hidden e = false
    ∧ content e = QuestionItems sorted
    ∧ sorted ≡ₚ Sample.questions
    ∧ ∀ i j a b, (i < j)%nat → sorted !! i = Some a → sorted !! j = Some b →
        questionOrder a b.
Proof.
  apply (C10_questions_sorted Sample.questions Sample.page);
    [discriminate | reflexivity | reflexivity].
Defined.

(** The scenario of the specification: one group for key [A] with the two
    speeches in order 1, 2 once the card is rendered, and a summary of the
    first speech without its speaker marker. *)
Example scenario_groups :
  (mg_speeches ∘ Member.renderMeetingCard <$> Member.groupByMeeting compareBytes Sample.records)
  = [[Sample.record (Val "A") (Val "2024-01-10") 1 Sample.speech2;
      Sample.record (Val "A") (Val "2024-01-10") 2 Sample.speech1];
     [Sample.record (Val "B") Undefined 1 Sample.speech2]].
Proof. reflexivity. Qed.

Example scenario_summary :
  Summary.extractSummary (Val Sample.speech1)
  = [12371; 12435; 12395; 12385; 12399; 12290; 27425; 12418; 12290]%N.
Proof. reflexivity. Qed.
(** * Further properties of the scripts *)

(** ** Sorting an ordered list *)

Section SortedInput.
Context {A : Type} (cmp : A → A → Z).
Hypothesis consistent : Consistent cmp.

Lemma sortBy_ordered l : StronglySorted (before cmp) (sortBy cmp l).
Proof.
  apply sortBy_strongly_sorted;
    [by apply consistent_before_flip | apply (consistent_trans _ consistent)].
Qed.

Lemma sortBy_sorted_id l : StronglySorted (before cmp) l → sortBy cmp l = l.
Proof. intros H. symmetry. by apply sortBy_unique. Qed.

Lemma sortBy_idem l : sortBy cmp (sortBy cmp l) = sortBy cmp l.
Proof. apply sortBy_sorted_id, sortBy_ordered. Qed.
End SortedInput.

(** Elements that the comparison never lets pass one another keep their
    input order. *)
Lemma insertBy_stable_class {A} (cmp : A → A → Z) (P : A → Prop) `{∀ x, Decision (P x)} x l :
  (∀ x y, 0 < cmp x y → P x → P y → False) →
  filter P (insertBy cmp x l) = filter P (x :: l).
Proof.
  intros Hpass. induction l as [|y l IH]; [done|]. simpl.
  destruct (0 <? cmp x y) eqn:E; [|done]. apply Z.ltb_lt in E.
  rewrite (filter_cons _ y), IH, !filter_cons.
  repeat case_decide; try done. by destruct (Hpass x y).
Qed.

Lemma sortBy_stable_class {A} (cmp : A → A → Z) (P : A → Prop) `{∀ x, Decision (P x)} l :
  (∀ x y, 0 < cmp x y → P x → P y → False) →
  filter P (sortBy cmp l) = filter P l.
Proof.
  intros Hpass. induction l as [|x l IH]; [done|]. simpl.
  by rewrite insertBy_stable_class, !filter_cons, IH.
Qed.

(** ** The speeches of a card *)

Lemma bySpeechOrder_consistent : Consistent Member.bySpeechOrder.
Proof. split; unfold Member.bySpeechOrder; intros; lia. Qed.

Lemma renderMeetingCard_idem g :
  Member.renderMeetingCard (Member.renderMeetingCard g) = Member.renderMeetingCard g.
Proof.
  unfold Member.renderMeetingCard. simpl. f_equal.
  apply sortBy_idem, bySpeechOrder_consistent.
Qed.

(** X1: the speeches of a rendered card are the speeches of the group, in
    ascending [speechOrder] with a missing order counting as 0; speeches of
    the same order keep their order in the data; the other fields of the
    group are untouched, and rendering the card again changes nothing. *)
Theorem card_speeches_in_order (g : MeetingGroup) :
  let card := Member.renderMeetingCard g in
  mg_speeches card ≡ₚ mg_speeches g
  ∧ (∀ i j a b, (i < j)%nat → mg_speeches card !! i = Some a →
       mg_speeches card !! j = Some b → orderOf a ≤ orderOf b)
  ∧ (∀ z, filter (λ s, orderOf s = z) (mg_speeches card)
          = filter (λ s, orderOf s = z) (mg_speeches g))
  ∧ (mg_date card, mg_meetingName card, mg_nameOfMeeting card, mg_issue card, mg_session card)
    = (mg_date g, mg_meetingName g, mg_nameOfMeeting g, mg_issue g, mg_session g)
  ∧ Member.renderMeetingCard card = card.
Proof.
  simpl. split; [apply sortBy_perm|]. split; [|split; [|split; [done|apply renderMeetingCard_idem]]].
  - intros i j a b Hij Ha Hb.
    pose proof (StronglySorted_lookup _ _ i j a b
                  (sortBy_ordered _ bySpeechOrder_consistent (mg_speeches g)) Hij Ha Hb) as H.
    unfold before, Member.bySpeechOrder in H. unfold orderOf. lia.
  - intros z. apply sortBy_stable_class.
    intros x y. unfold Member.bySpeechOrder, orderOf. lia.
Qed.

(** ** The cards on display after a number of clicks *)

Lemma renderVisibleGroups_cards p :
  Member.renderMeetingCard <$> meetingGroups (Member.renderVisibleGroups p)
  = Member.renderMeetingCard <$> meetingGroups p.
Proof.
  unfold Member.renderVisibleGroups. simpl.
  rewrite fmap_app, <- list_fmap_compose.
  rewrite (list_fmap_ext (Member.renderMeetingCard ∘ Member.renderMeetingCard)
             Member.renderMeetingCard (slice0 _ _))
    by (intros; apply renderMeetingCard_idem).
  by rewrite <- fmap_app, slice0_take.
Qed.

Lemma renderVisibleGroups_speechList p :
  0 ≤ visibleCount p →
  speechList (Member.renderVisibleGroups p)
  = setContent
      (MeetingCards (take (Z.to_nat (visibleCount p))
                       (Member.renderMeetingCard <$> meetingGroups p)))
      (speechList p).
Proof.
  intros Hv. unfold Member.renderVisibleGroups, slice0. simpl.
  destruct (visibleCount p <? 0) eqn:E; [apply Z.ltb_lt in E; lia|].
  by rewrite fmap_take.
Qed.

(** What a click does to the script variables and the speech list. *)
Lemma onLoadMoreClick_cards p :
  exists_ LoadMoreButton p = true → 0 ≤ visibleCount p →
  let q := Member.onLoadMoreClick p in
  Member.renderMeetingCard <$> meetingGroups q = Member.renderMeetingCard <$> meetingGroups p
  ∧ speechList q
    = setContent
        (MeetingCards (take (Z.to_nat (visibleCount q))
                         (Member.renderMeetingCard <$> meetingGroups p)))
        (speechList p).
Proof.
  intros He Hv q. subst q. rewrite onLoadMoreClick_visibleCount by done.
  unfold Member.onLoadMoreClick. rewrite He. simpl.
  rewrite updateLoadMoreButton_meetingGroups, updateLoadMoreButton_speechList.
  rewrite renderVisibleGroups_cards, renderVisibleGroups_speechList; [done|].
  simpl. unfold PAGE_SIZE. lia.
Qed.

Lemma render_cards slug lc records profile p :
  Member.noGroups records = false →
  let q := Member.render slug lc records profile p in
  Member.renderMeetingCard <$> meetingGroups q
  = Member.renderMeetingCard <$> Member.groupsOf lc records
  ∧ speechList q
    = setContent
        (MeetingCards (take (Z.to_nat (visibleCount q))
                         (Member.renderMeetingCard <$> Member.groupsOf lc records)))
        (setHidden false (speechList p)).
Proof.
  intros H q. subst q.
  destruct (render_groups slug lc records profile p H) as [_ ->].
  destruct (renderMember_frame slug records profile p) as (_ & _ & _ & Hs & _).
  unfold Member.render. rewrite H.
  rewrite updateLoadMoreButton_meetingGroups, updateLoadMoreButton_speechList.
  rewrite renderVisibleGroups_cards, renderVisibleGroups_speechList.
  - simpl. by rewrite Hs.
  - simpl. unfold PAGE_SIZE. lia.
Qed.

(** The leading [visibleCount] groups have been rendered as cards. *)
Lemma renderVisibleGroups_rendered p :
  0 ≤ visibleCount p ≤ Z.of_nat (length (meetingGroups p)) →
  take (Z.to_nat (visibleCount p)) (meetingGroups (Member.renderVisibleGroups p))
  = Member.renderMeetingCard <$> take (Z.to_nat (visibleCount p)) (meetingGroups p).
Proof.
  intros Hv. unfold Member.renderVisibleGroups, slice0. simpl.
  destruct (visibleCount p <? 0) eqn:E; [apply Z.ltb_lt in E; lia|].
  rewrite take_app_le by (rewrite length_fmap, length_take; lia).
  apply take_ge. rewrite length_fmap, length_take. lia.
Qed.

Lemma fmap_fixed {A} (f : A → A) (l : list A) : Forall (λ x, f x = x) l → f <$> l = l.
Proof. induction 1 as [|x l Hx _ IH]; csimpl; [done|]. by rewrite Hx, IH. Qed.

Lemma cards_fixed (l : list MeetingGroup) :
  Forall (λ g, Member.renderMeetingCard g = g) (Member.renderMeetingCard <$> l).
Proof. apply Forall_fmap, Forall_true. intros g. apply renderMeetingCard_idem. Qed.

Lemma onLoadMoreClick_rendered p :
  exists_ LoadMoreButton p = true →
  0 ≤ visibleCount p ≤ Z.of_nat (length (meetingGroups p)) →
  let q := Member.onLoadMoreClick p in
  Forall (λ g, Member.renderMeetingCard g = g)
    (take (Z.to_nat (visibleCount q)) (meetingGroups q)).
Proof.
  intros He Hv q. subst q. rewrite onLoadMoreClick_visibleCount by done.
  unfold Member.onLoadMoreClick. rewrite He. simpl.
  rewrite updateLoadMoreButton_meetingGroups.
  set (p' := setVisibleCount _ p).
  change (Z.min _ _) with (visibleCount p').
  rewrite renderVisibleGroups_rendered; [apply cards_fixed|].
  subst p'. simpl. unfold PAGE_SIZE. lia.
Qed.

Lemma render_rendered slug lc records profile p :
  Member.noGroups records = false →
  let q := Member.render slug lc records profile p in
  Forall (λ g, Member.renderMeetingCard g = g)
    (take (Z.to_nat (visibleCount q)) (meetingGroups q)).
Proof.
  intros H q. subst q.
  destruct (render_groups slug lc records profile p H) as [_ ->].
  unfold Member.render. rewrite H. rewrite updateLoadMoreButton_meetingGroups.
  set (p' := setVisibleCount _ _).
  change (Z.min _ _) with (visibleCount p').
  rewrite renderVisibleGroups_rendered; [apply cards_fixed|].
  subst p'. simpl. unfold PAGE_SIZE. lia.
Qed.

Lemma render_button slug lc records profile p btn :
  Member.noGroups records = false →
  nodes (Member.render slug lc records profile p) LoadMoreButton = Some btn →
  hidden btn = negb (Member.hasMore (Member.render slug lc records profile p)).
Proof.
  intros H Hb. unfold Member.hasMore.
  destruct (render_groups slug lc records profile p H) as [-> ->].
  unfold Member.render in Hb. rewrite H in Hb.
  apply updateLoadMoreButton_hidden in Hb. rewrite Hb.
  unfold Member.hasMore. rewrite !renderVisibleGroups_length. simpl. unfold PAGE_SIZE.
  destruct (Z.of_nat (length (Member.groupsOf lc records)) <=? 5) eqn:E; [|done].
  apply Z.leb_le in E. symmetry. apply negb_true_iff, Z.ltb_ge. lia.
Qed.

Lemma setContent_same e : setContent (content e) e = e.
Proof. by destruct e. Qed.

Lemma setHidden_same e : setHidden (hidden e) e = e.
Proof. by destruct e. Qed.

Lemma setVisibleCount_same p : setVisibleCount (visibleCount p) p = p.
Proof. by destruct p. Qed.

(** Rendering again when every group is on display as a card. *)
Lemma renderVisibleGroups_fixed p :
  visibleCount p = Z.of_nat (length (meetingGroups p)) →
  Member.renderMeetingCard <$> meetingGroups p = meetingGroups p →
  content (speechList p) = MeetingCards (meetingGroups p) →
  Member.renderVisibleGroups p = p.
Proof.
  intros Hv Hfix Hcont. unfold Member.renderVisibleGroups, slice0.
  destruct (visibleCount p <? 0) eqn:E; [apply Z.ltb_lt in E; lia|].
  rewrite Hv, Nat2Z.id, firstn_all, drop_all, app_nil_r, Hfix, <- Hcont.
  rewrite setContent_same. by destruct p.
Qed.

Lemma updateLoadMoreButton_fixed p :
  Member.hasMore p = false →
  (∀ btn, nodes p LoadMoreButton = Some btn → hidden btn = true) →
  let q := Member.updateLoadMoreButton p in
  meetingGroups q = meetingGroups p ∧ visibleCount q = visibleCount p
  ∧ speechList q = speechList p ∧ (∀ m, nodes q m = nodes p m)
  ∧ title q = title p ∧ console q = console p.
Proof.
  intros Hmore Hb q. subst q.
  assert (Hsame : ∀ m, nodes (update LoadMoreButton (setHidden true) p) m = nodes p m).
  { intros m. rewrite nodes_update. case_decide as Hm; [|done]. subst m.
    destruct (nodes p LoadMoreButton) as [b|] eqn:E; [|done]. simpl.
    by rewrite <- (Hb b eq_refl), setHidden_same. }
  unfold Member.updateLoadMoreButton. destruct (negb _); [done|].
  destruct (_ <=? _); [done|].
  rewrite (hasMore_frame p (update LoadMoreButton _ p)) by done.
  by rewrite Hmore.
Qed.

(** The state of the page after the initial render of a non-empty data set
    and [k] clicks. *)
Lemma pager_state slug lc records profile list doc n k :
  let groups := Member.groupsOf lc records in
  let p := clicks Member.onLoadMoreClick k
             (Member.render slug lc records profile
                (clicks Member.onLoadMoreClick n (initialPage list doc))) in
  Member.noGroups records = false →
  is_Some (doc LoadMoreButton) →
  visibleCount p = Z.min (5 * (Z.of_nat k + 1)) (Z.of_nat (length groups))
  ∧ length (meetingGroups p) = length groups
  ∧ Member.renderMeetingCard <$> meetingGroups p = Member.renderMeetingCard <$> groups
  ∧ Forall (λ g, Member.renderMeetingCard g = g)
      (take (Z.to_nat (visibleCount p)) (meetingGroups p))
  ∧ hidden (speechList p) = false
  ∧ content (speechList p)
    = MeetingCards (take (Z.to_nat (visibleCount p)) (Member.renderMeetingCard <$> groups))
  ∧ ∀ btn, nodes p LoadMoreButton = Some btn → hidden btn = negb (Member.hasMore p).
Proof.
  intros groups p Hdata Hbtn. subst p.
  set (p0 := Member.render _ _ _ _ _).
  assert (He : ∀ j, exists_ LoadMoreButton (clicks Member.onLoadMoreClick j p0) = true).
  { intros j. subst p0. rewrite clicks_exists, render_exists, clicks_exists.
    unfold exists_. simpl. by destruct Hbtn as [b ->]. }
  assert (Hlen : ∀ j, length (meetingGroups (clicks Member.onLoadMoreClick j p0))
                        = length groups).
  { intros j. rewrite clicks_length. subst p0. by apply render_groups. }
  induction k as [|k IH].
  - simpl. subst p0.
    destruct (render_groups slug lc records profile
                (clicks Member.onLoadMoreClick n (initialPage list doc)) Hdata) as [Hl Hv].
    destruct (render_cards slug lc records profile
                (clicks Member.onLoadMoreClick n (initialPage list doc)) Hdata) as [Hc Hs].
    split; [rewrite Hv; unfold PAGE_SIZE; fold groups; lia|].
    split; [done|]. split; [done|]. split; [by apply render_rendered|].
    rewrite Hs. split; [done|]. split; [done|].
    intros btn. by apply render_button.
  - destruct IH as (Hv & _ & Hc & _ & Hh & Hcont & _).
    rewrite clicks_last.
    assert (Hb : 0 ≤ visibleCount (clicks Member.onLoadMoreClick k p0)
                 ≤ Z.of_nat (length (meetingGroups (clicks Member.onLoadMoreClick k p0)))).
    { rewrite Hlen, Hv. lia. }
    destruct (onLoadMoreClick_cards _ (He k)) as [Hc' Hs']; [lia|].
    split.
    { rewrite onLoadMoreClick_visibleCount, Hv, Hlen by done. unfold PAGE_SIZE. lia. }
    split; [by rewrite <- clicks_last|].
    split; [by rewrite Hc', Hc|].
    split; [by apply onLoadMoreClick_rendered|].
    rewrite Hs', Hc. split; [done|]. split; [done|].
    intros btn Hbn. apply onLoadMoreClick_hidden; [done|lia].
Qed.

(** X2: the page after the initial render of a non-empty data set and [k]
    clicks on the load-more button: [visibleCount] is the smaller of
    [5 * (k + 1)] and the number of groups, the speech list is shown and
    holds the cards of exactly that many leading groups, and the button is
    hidden exactly when all groups are on display. *)
Theorem pager_after_clicks (slug : option string) (localeCompare : string → string → Z)
    (records : Payload) (profile : option MemberProfile)
    (list : Element) (doc : Node → option Element) (n k : nat) :
  let groups := Member.groupsOf localeCompare records in
  let p := clicks Member.onLoadMoreClick k
             (Member.render slug localeCompare records profile
                (clicks Member.onLoadMoreClick n (initialPage list doc))) in
  Member.noGroups records = false →
  is_Some (doc LoadMoreButton) →
  visibleCount p = Z.min (5 * (Z.of_nat k + 1)) (Z.of_nat (length groups))
  ∧ hidden (speechList p) = false
  ∧ content (speechList p)
    = MeetingCards (Member.renderMeetingCard <$> take (Z.to_nat (visibleCount p)) groups)
  ∧ ∀ btn, nodes p LoadMoreButton = Some btn →
      hidden btn = bool_decide (Z.of_nat (length groups) ≤ 5 * (Z.of_nat k + 1)).
Proof.
  intros groups p Hdata Hbtn.
  destruct (pager_state slug localeCompare records profile list doc n k Hdata Hbtn)
    as (Hv & Hlen & _ & _ & Hh & Hcont & Hb).
  fold groups p in Hv, Hlen, Hh, Hcont, Hb.
  split; [done|]. split; [done|]. split; [by rewrite Hcont, fmap_take|].
  intros btn ->%Hb. unfold Member.hasMore. rewrite Hlen, Hv.
  case_bool_decide.
  - apply negb_true_iff, Z.ltb_ge. lia.
  - apply negb_false_iff, Z.ltb_lt. lia.
Qed.

(** X3: once all groups are on display after a render of a non-empty data set,
    a click on the load-more button changes nothing: the script variables,
    the speech list, every other element, the title and the console stay
    as they are. *)
Theorem click_without_more_is_noop (slug : option string)
    (localeCompare : string → string → Z)
    (records : Payload) (profile : option MemberProfile)
    (list : Element) (doc : Node → option Element) (n k : nat) :
  let p := clicks Member.onLoadMoreClick k
             (Member.render slug localeCompare records profile
                (clicks Member.onLoadMoreClick n (initialPage list doc))) in
  Member.noGroups records = false →
  Member.hasMore p = false →
  let q := Member.onLoadMoreClick p in
  meetingGroups q = meetingGroups p
  ∧ visibleCount q = visibleCount p
  ∧ speechList q = speechList p
  ∧ (∀ m, nodes q m = nodes p m)
  ∧ title q = title p
  ∧ console q = console p.
Proof.
  intros p Hdata Hmore q. subst q.
  destruct (exists_ LoadMoreButton p) eqn:He;
    [|by unfold Member.onLoadMoreClick; rewrite He].
  assert (Hbtn : is_Some (doc LoadMoreButton)).
  { subst p. rewrite clicks_exists, render_exists, clicks_exists in He.
    unfold exists_ in He. simpl in He. by destruct (doc LoadMoreButton). }
  destruct (pager_state slug localeCompare records profile list doc n k Hdata Hbtn)
    as (Hv & Hlen & Hc & Hfix & Hh & Hcont & Hb).
  fold p in Hv, Hlen, Hc, Hfix, Hh, Hcont, Hb.
  assert (Hfull : visibleCount p = Z.of_nat (length (meetingGroups p))).
  { apply not_true_iff_false in Hmore. rewrite hasMore_lt in Hmore. lia. }
  assert (Hcards : Member.renderMeetingCard <$> meetingGroups p = meetingGroups p).
  { apply fmap_fixed. by rewrite Hfull, Nat2Z.id, firstn_all in Hfix. }
  unfold Member.onLoadMoreClick. rewrite He. simpl.
  replace (Z.min _ _) with (visibleCount p) by (unfold PAGE_SIZE; lia).
  rewrite setVisibleCount_same, renderVisibleGroups_fixed; [|done..|].
  - apply updateLoadMoreButton_fixed; [done|].
    intros btn ->%Hb. by rewrite Hmore.
  - rewrite Hcont, take_ge, <- Hc, Hcards; [done|].
    rewrite length_fmap. lia.
Qed.

(** ** Sessions: bounds and growth of [visibleCount] *)

(** X4: in every page of a session [visibleCount] lies between 0 and the
    number of meeting groups; a click never lowers it and never changes the
    number of groups. *)
Theorem session_visible_count (slug : option string) (localeCompare : string → string → Z)
    (list : Element) (doc : Node → option Element) (p : Page) :
  Reachable slug localeCompare list doc p →
  0 ≤ visibleCount p ≤ Z.of_nat (length (meetingGroups p))
  ∧ visibleCount p ≤ visibleCount (Member.onLoadMoreClick p)
  ∧ visibleCount (Member.onLoadMoreClick p) ≤ Z.of_nat (length (meetingGroups p))
  ∧ length (meetingGroups (Member.onLoadMoreClick p)) = length (meetingGroups p).
Proof.
  intros Hr%reachable_bounds. split; [done|].
  rewrite onLoadMoreClick_length.
  destruct (exists_ LoadMoreButton p) eqn:E.
  - rewrite onLoadMoreClick_visibleCount by done. unfold PAGE_SIZE. lia.
  - unfold Member.onLoadMoreClick. rewrite E. simpl. lia.
Qed.

(** ** The counts in the member header *)





(** ** When [loadData] reports a failure *)

Lemma failed_console message p :
  console (Member.failed message p) = console p ++ [message].
Proof. done. Qed.

Lemma renderFallback_console slug profile p :
  console (Member.renderFallback slug profile p) = console p.
Proof. by destruct (renderFallback_frame slug profile p) as (_ & _ & -> & _). Qed.

(** X6: [loadData] logs at most one error, and when it does, the page is the
    failure page.  It does so exactly in these cases, the slug being
    present: the speech fetch rejects; the roster response is OK and its
    body is not JSON; the speech response is neither 404 nor OK; or it is OK
    and its body is not JSON. *)
Theorem loadData_failure_cases (slug : option string)
    (localeCompare : string → string → Z)
    (speechRes : Fetched Payload) (rosterRes : Fetched Roster) (p : Page) :
  let q := Member.loadData slug localeCompare speechRes rosterRes p in
  (console q = console p
   ∨ ∃ message, console q = console p ++ [message] ∧ q = Member.failed message p)
  ∧ (console q ≠ console p ↔
     ∃ s, slug = Some s ∧ s ≠ ""
       ∧ ((∃ message, speechRes = Rejected message)
          ∨ ∃ status body, speechRes = Response status body
              ∧ ((∃ rosterStatus message,
                    rosterRes = Response rosterStatus (Malformed message)
                    ∧ ok rosterStatus = true)
                 ∨ (status ≠ 404
                    ∧ (ok status = false ∨ ∃ message, body = Malformed message))))).
Proof.
  intros q. subst q.
  assert (Hgrow : ∀ message, console p ++ [message] ≠ console p).
  { intros message H. apply (f_equal length) in H. rewrite length_app in H. simpl in H. lia. }
  unfold Member.loadData.
  destruct slug as [s|]; [|split; [by left|]; split; [done|by intros (? & ? & _)]].
  destruct (decide (s = "")) as [->|Hs];
    [split; [by left|]; split; [done|by intros (? & [= <-] & ? & _)]|].
  destruct speechRes as [message|status body].
  { split; [right; by exists message|]. split; [|by intros _; apply Hgrow].
    intros _. exists s. split; [done|]. split; [done|]. left. by exists message. }
  set (memberProfile := match rosterRes with Rejected _ => _ | Response _ _ => _ end).
  assert (Hroster : (∃ message, memberProfile = Malformed message
                       ∧ ∃ rosterStatus, rosterRes = Response rosterStatus (Malformed message)
                           ∧ ok rosterStatus = true)
                    ∨ (∃ profile, memberProfile = Json profile)
                      ∧ ¬ ∃ rosterStatus message,
                            rosterRes = Response rosterStatus (Malformed message)
                            ∧ ok rosterStatus = true).
  { subst memberProfile. destruct rosterRes as [m|rosterStatus [m|roster]].
    - right. split; [eauto|]. by intros (? & ? & ? & _).
    - destruct (ok rosterStatus) eqn:E.
      + left. exists m. split; [done|]. eauto.
      + right. split; [eauto|]. intros (? & ? & [= <- _] & ?). congruence.
    - right. split; [destruct (ok rosterStatus); eauto|]. by intros (? & ? & ? & _). }
  destruct Hroster as [(message & -> & rosterStatus & Hr & Hok)|[[profile ->] Hnot]].
  { split; [right; by exists message|]. split; [|by intros _; apply Hgrow].
    intros _. exists s. split; [done|]. split; [done|]. right. exists status, body.
    split; [done|]. left. eauto. }
  destruct (status =? 404) eqn:E404.
  { apply Z.eqb_eq in E404. rewrite renderFallback_console. split; [by left|].
    split; [done|]. intros (s' & _ & _ & [[m [=]]|(st & b & [= <- <-] & [?|[? _]])]); done. }
  apply Z.eqb_neq in E404.
  destruct (ok status) eqn:Eok; simpl.
  - destruct body as [message|payload].
    + split; [right; by exists message|]. split; [|by intros _; apply Hgrow].
      intros _. exists s. split; [done|]. split; [done|]. right. exists status, (Malformed message).
      split; [done|]. right. split; [done|]. right. eauto.
    + rewrite render_console. split; [by left|]. split; [done|].
      intros (s' & _ & _ & [[m [=]]|(st & b & [= <- <-] & [?|[_ [?|[m [=]]]]])]);
        [done|congruence].
  - split; [right; by eexists|]. split; [|by intros _; apply Hgrow].
    intros _. exists s. split; [done|]. split; [done|]. right. exists status, body.
    split; [done|]. right. split; [done|]. by left.
Qed.

(** ** The roster lookup *)

(** X7: [find] returns the first roster entry whose slug is the requested one:
    no entry before it has that slug, and without such an entry the result
    is empty.  An entry without a slug never matches. *)
Theorem findProfile_lookup (s : string) (roster : Roster) :
  match Member.findProfile s roster with
  | Some profile =>
      pf_slug profile = Val s
      ∧ ∃ entries rest,
          Member.rosterList roster = entries ++ profile :: rest
          ∧ Forall (λ entry, pf_slug entry ≠ Val s) entries
  | None => Forall (λ entry, pf_slug entry ≠ Val s) (Member.rosterList roster)
  end.
Proof.
  unfold Member.findProfile. generalize (Member.rosterList roster). intros l.
  assert (Heq : ∀ x, strictEq (pf_slug x) s = true ↔ pf_slug x = Val s).
  { intros x. unfold strictEq. destruct (pf_slug x) as [| |t]; [done..|].
    rewrite bool_decide_eq_true. split; [by intros -> | by intros [= ->]]. }
  induction l as [|x l IH]; simpl; [done|].
  destruct (strictEq (pf_slug x) s) eqn:E.
  - apply Heq in E. split; [done|]. by exists [], l.
  - assert (pf_slug x ≠ Val s) by (rewrite <- Heq; congruence).
    destruct (find _ l) as [profile|].
    + destruct IH as (Hp & entries & rest & -> & Hall). split; [done|].
      exists (x :: entries), rest. split; [done|]. by constructor.
    + by constructor.
Qed.

(** ** Groups of [groupByMeeting]: first record and order *)

Lemma filter_cons_inv {A} (P : A → Prop) `{∀ x, Decision (P x)} (l : list A) x t :
  filter P l = x :: t →
  ∃ l1 l2, l = l1 ++ x :: l2 ∧ Forall (λ y, ¬ P y) l1 ∧ P x ∧ t = filter P l2.
Proof.
  induction l as [|y l IH]; [done|]. rewrite filter_cons. case_decide as Hy.
  - intros [= -> <-]. by exists [], l.
  - intros (l1 & l2 & -> & Hl1 & Hx & ->)%IH.
    exists (y :: l1), l2. split; [done|]. split; [by constructor|done].
Qed.

Lemma head_filter {A} (P : A → Prop) `{∀ x, Decision (P x)} (l : list A) :
  head (filter P l) = snd <$> list_find P l.
Proof.
  induction l as [|y l IH]; [done|]. rewrite filter_cons. simpl.
  case_decide; [done|]. rewrite IH. by destruct (list_find P l) as [[]|].
Qed.

Lemma fold_push rest g :
  let g' := fold_left (λ g r, Member.push r g) rest g in
  mg_speeches g' = mg_speeches g ++ rest
  ∧ (mg_date g', mg_meetingName g', mg_nameOfMeeting g', mg_issue g', mg_session g')
    = (mg_date g, mg_meetingName g, mg_nameOfMeeting g, mg_issue g, mg_session g).
Proof.
  revert g. induction rest as [|r rest IH]; intros g; simpl.
  - by rewrite app_nil_r.
  - destruct (IH (Member.push r g)) as [-> ->]. simpl. by rewrite <- app_assoc.
Qed.

(** Every entry of the map was created from one record and has received
    that record and the later ones of its key. *)
Lemma addRecord_origin m r :
  Forall (λ kg : string * MeetingGroup, ∃ first rest,
            kg.2 = fold_left (λ g r, Member.push r g) rest
                     (Member.push first (Member.newGroup first))) m →
  Forall (λ kg : string * MeetingGroup, ∃ first rest,
            kg.2 = fold_left (λ g r, Member.push r g) rest
                     (Member.push first (Member.newGroup first))) (Member.addRecord m r).
Proof.
  intros Hm. destruct (decide (Member.keyOf r ∈ m.*1)) as [Hin|Hout].
  - destruct (addRecord_hit _ _ Hin) as (m1 & g & m2 & -> & _ & ->).
    rewrite Forall_app, Forall_cons in *. destruct Hm as (H1 & (first & rest & Hg) & H2).
    split; [done|]. split; [|done]. exists first, (rest ++ [r]). simpl in *.
    by rewrite fold_left_app, <- Hg.
  - rewrite addRecord_miss by done. rewrite Forall_app, Forall_singleton.
    split; [done|]. by exists r, [].
Qed.

Lemma fold_addRecord_origin rs : ∀ m,
  Forall (λ kg : string * MeetingGroup, ∃ first rest,
            kg.2 = fold_left (λ g r, Member.push r g) rest
                     (Member.push first (Member.newGroup first))) m →
  Forall (λ kg : string * MeetingGroup, ∃ first rest,
            kg.2 = fold_left (λ g r, Member.push r g) rest
                     (Member.push first (Member.newGroup first)))
    (fold_left Member.addRecord rs m).
Proof.
  induction rs as [|r rs IH]; intros m Hm; simpl; [done|].
  by apply IH, addRecord_origin.
Qed.

Lemma GroupsOf_records rs : GroupsOf (fold_left Member.addRecord rs []) rs.
Proof. apply (GroupsOf_fold rs [] []), GroupsOf_nil. Qed.

(** X8: every group of [groupByMeeting] starts with the first record of its key
    and continues with the later records of that key, in input order; its
    date, meeting name, issue and session are those of that first record,
    with the defaults for a missing date, name or issue, whatever the later
    records of the key carry. *)
Theorem groupByMeeting_first_seen (localeCompare : string → string → Z)
    (records : list SpeechRecord) :
  Forall (λ g, ∃ first rest earlier later,
            mg_speeches g = first :: rest
            ∧ records = earlier ++ first :: later
            ∧ Forall (λ r, Member.keyOf r ≠ Member.keyOf first) earlier
            ∧ rest = filter (λ r, Member.keyOf r = Member.keyOf first) later
            ∧ (mg_date g, mg_meetingName g, mg_nameOfMeeting g, mg_issue g, mg_session g)
              = (Val (nullish (sr_date first) ""),
                 Val (nullish (sr_nameOfMeeting first) "会議名不明"),
                 Undefined,
                 Val (nullish (sr_issue first) ""),
                 sr_session first))
    (Member.groupByMeeting localeCompare records).
Proof.
  unfold Member.groupByMeeting, map_values. rewrite sortBy_perm.
  pose proof (GroupsOf_records records) as (_ & _ & Hall).
  pose proof (fold_addRecord_origin records [] (List.Forall_nil _)) as Horigin.
  apply Forall_fmap. apply Forall_forall. intros [k g] Hin. simpl.
  rewrite Forall_forall in Hall, Horigin.
  specialize (Hall _ Hin). destruct (Horigin _ Hin) as (first & rest & Hg). simpl in *.
  destruct (fold_push rest (Member.push first (Member.newGroup first))) as [Hs Hmeta].
  rewrite <- Hg in Hs, Hmeta. simpl in Hs, Hmeta. rewrite Hs in Hall.
  destruct (filter_cons_inv _ _ _ _ (eq_sym Hall)) as (l1 & l2 & -> & Hl1 & Hk & ->).
  exists first, (filter (λ r, Member.keyOf r = k) l2), l1, l2.
  subst k. split; [done|]. split; [done|]. split; [done|]. split; [done|]. done.
Qed.

(** Lists before and after a filter keep the relative order of their
    elements. *)
Lemma filter_keeps_order {A} (P : A → Prop) `{∀ x, Decision (P x)} (l : list A) :
  ∀ i j a b, (i < j)%nat → l !! i = Some a → l !! j = Some b → P a → P b →
  ∃ i' j', (i' < j')%nat ∧ filter P l !! i' = Some a ∧ filter P l !! j' = Some b.
Proof.
  induction l as [|x l IH]; intros i j a b Hij Ha Hb Pa Pb; [done|].
  destruct j as [|j]; [lia|]. simpl in Hb. destruct i as [|i]; simpl in Ha.
  - injection Ha as ->. rewrite filter_cons_True by done.
    assert (Hin : b ∈ filter P l).
    { apply list_elem_of_filter. split; [done|]. by eapply list_elem_of_lookup_2. }
    apply list_elem_of_lookup_1 in Hin as [j' Hj']. exists 0%nat, (S j'). split; [lia|done].
  - destruct (IH i j a b) as (i' & j' & Hij' & Hi' & Hj'); [lia|done..|].
    rewrite filter_cons. case_decide.
    + exists (S i'), (S j'). split; [lia|done].
    + exists i', j'. done.
Qed.

Lemma filter_order_back {A} (P : A → Prop) `{∀ x, Decision (P x)} (l : list A) :
  ∀ i j a b, (i < j)%nat → filter P l !! i = Some a → filter P l !! j = Some b →
  ∃ i' j', (i' < j')%nat ∧ l !! i' = Some a ∧ l !! j' = Some b.
Proof.
  induction l as [|x l IH]; intros i j a b Hij; [done|].
  rewrite filter_cons. case_decide.
  - destruct j as [|j]; [lia|]. destruct i as [|i]; simpl.
    + intros [= ->] Hb.
      assert (Hin : b ∈ l).
      { eapply (list_elem_of_filter P). by eapply list_elem_of_lookup_2. }
      apply list_elem_of_lookup_1 in Hin as [j' Hj']. exists 0%nat, (S j'). split; [lia|done].
    + intros Ha Hb. destruct (IH i j a b) as (i' & j' & ? & ? & ?); [lia|done..|].
      exists (S i'), (S j'). split; [lia|done].
  - intros Ha Hb. destruct (IH i j a b) as (i' & j' & ? & ? & ?); [lia|done..|].
    exists (S i'), (S j'). split; [lia|done].
Qed.

(** The entries of the map stand in the order in which their keys first
    occur in the records. *)
Lemma addRecord_key_order m rs r :
  GroupsOf m rs →
  (∀ a b ka kb, (a < b)%nat → m.*1 !! a = Some ka → m.*1 !! b = Some kb →
     ∃ ia ib ra rb,
       list_find (λ r, Member.keyOf r = ka) rs = Some (ia, ra)
       ∧ list_find (λ r, Member.keyOf r = kb) rs = Some (ib, rb) ∧ (ia < ib)%nat) →
  ∀ a b ka kb, (a < b)%nat →
    (Member.addRecord m r).*1 !! a = Some ka → (Member.addRecord m r).*1 !! b = Some kb →
    ∃ ia ib ra rb,
      list_find (λ r, Member.keyOf r = ka) (rs ++ [r]) = Some (ia, ra)
      ∧ list_find (λ r, Member.keyOf r = kb) (rs ++ [r]) = Some (ib, rb) ∧ (ia < ib)%nat.
Proof.
  intros (Hnd & Hkeys & _) Hord a b ka kb Hab.
  assert (Hold : ∀ a b ka kb, (a < b)%nat → m.*1 !! a = Some ka → m.*1 !! b = Some kb →
            ∃ ia ib ra rb,
              list_find (λ r, Member.keyOf r = ka) (rs ++ [r]) = Some (ia, ra)
              ∧ list_find (λ r, Member.keyOf r = kb) (rs ++ [r]) = Some (ib, rb)
              ∧ (ia < ib)%nat).
  { intros a' b' ka' kb' Hab' Ha Hb.
    destruct (Hord a' b' ka' kb' Hab' Ha Hb) as (ia & ib & ra & rb & Hia & Hib & Hlt).
    exists ia, ib, ra, rb. split; [by apply list_find_app_l|].
    split; [by apply list_find_app_l|done]. }
  destruct (decide (Member.keyOf r ∈ m.*1)) as [Hin|Hout].
  - destruct (addRecord_hit _ _ Hin) as (m1 & g & m2 & Hm & _ & ->).
    assert (Hsame : (m1 ++ (Member.keyOf r, Member.push r g) :: m2).*1 = m.*1).
    { rewrite Hm. by rewrite !fmap_app, !fmap_cons. }
    rewrite Hsame. by apply Hold.
  - rewrite addRecord_miss by done. rewrite fmap_app. simpl.
    intros Ha Hb.
    assert (Hlen : (b ≤ length m.*1)%nat).
    { apply lookup_lt_Some in Hb. rewrite length_app in Hb. simpl in Hb. lia. }
    destruct (decide (b = length m.*1)) as [->|Hne].
    + rewrite lookup_app_l in Ha by done.
      rewrite list_lookup_middle in Hb by done. injection Hb as <-.
      assert (Hka : ka ∈ m.*1) by (by eapply list_elem_of_lookup_2).
      apply Hkeys in Hka as (ra & Hra & Hkey).
      destruct (list_find_elem_of (λ r, Member.keyOf r = ka) rs ra Hra Hkey)
        as [[ia ra'] Hfind].
      assert (Hnone : list_find (λ r', Member.keyOf r' = Member.keyOf r) rs = None).
      { apply list_find_None, Forall_forall. intros r' Hr' Hkey'.
        apply Hout, Hkeys. eauto. }
      exists ia, (0 + length rs)%nat, ra', r.
      split; [by apply list_find_app_l|]. split.
      * rewrite list_find_app_r by done. simpl. by rewrite decide_True by done.
      * apply list_find_Some in Hfind as (Hfind & _). apply lookup_lt_Some in Hfind. lia.
    + rewrite lookup_app_l in Ha by lia. rewrite lookup_app_l in Hb by lia.
      by apply (Hold a b).
Qed.

Lemma fold_addRecord_key_order rs : ∀ m rs0,
  GroupsOf m rs0 →
  (∀ a b ka kb, (a < b)%nat → m.*1 !! a = Some ka → m.*1 !! b = Some kb →
     ∃ ia ib ra rb,
       list_find (λ r, Member.keyOf r = ka) rs0 = Some (ia, ra)
       ∧ list_find (λ r, Member.keyOf r = kb) rs0 = Some (ib, rb) ∧ (ia < ib)%nat) →
  ∀ a b ka kb, (a < b)%nat →
    (fold_left Member.addRecord rs m).*1 !! a = Some ka →
    (fold_left Member.addRecord rs m).*1 !! b = Some kb →
    ∃ ia ib ra rb,
      list_find (λ r, Member.keyOf r = ka) (rs0 ++ rs) = Some (ia, ra)
      ∧ list_find (λ r, Member.keyOf r = kb) (rs0 ++ rs) = Some (ib, rb) ∧ (ia < ib)%nat.
Proof.
  induction rs as [|r rs IH]; intros m rs0 Hg Hord; simpl.
  - by rewrite app_nil_r.
  - rewrite cons_middle, app_assoc. apply IH; [by apply GroupsOf_addRecord|].
    by apply addRecord_key_order.
Qed.

Lemma byDateDesc_consistent lc : Consistent lc → Consistent (Member.byDateDesc lc).
Proof.
  intros [Ha Ht]. split; unfold Member.byDateDesc.
  - intros a b. apply Ha.
  - intros a b c Hab Hbc. by eapply Ht.
Qed.

(** X9: groups whose dates compare equal stand in the order in which their keys
    first occur in the records: of two such groups, the one listed first is
    the one whose first record comes first in the data. *)
Theorem groupByMeeting_equal_dates_in_data_order (localeCompare : string → string → Z)
    (records : list SpeechRecord) (i j : nat) (g1 g2 : MeetingGroup) :
  Consistent localeCompare →
  (i < j)%nat →
  Member.groupByMeeting localeCompare records !! i = Some g1 →
  Member.groupByMeeting localeCompare records !! j = Some g2 →
  localeCompare (dateKey g1) (dateKey g2) = 0 →
  ∃ i0 j0 r1 r2,
    head (mg_speeches g1) = Some r1 ∧ head (mg_speeches g2) = Some r2
    ∧ list_find (λ r, Member.keyOf r = Member.keyOf r1) records = Some (i0, r1)
    ∧ list_find (λ r, Member.keyOf r = Member.keyOf r2) records = Some (j0, r2)
    ∧ (i0 < j0)%nat.
Proof.
  intros Hlc Hij H1 H2 Heq.
  pose proof (byDateDesc_consistent _ Hlc) as Hcmp.
  unfold Member.groupByMeeting, map_values in H1, H2.
  set (m := fold_left Member.addRecord records []) in *.
  assert (P1 : Member.byDateDesc localeCompare g1 g1 = 0) by by apply consistent_refl.
  assert (P2 : Member.byDateDesc localeCompare g1 g2 = 0).
  { unfold Member.byDateDesc. fold (dateKey g1) (dateKey g2).
    pose proof (consistent_antisym _ Hlc (dateKey g1) (dateKey g2)). lia. }
  destruct (filter_keeps_order (λ y, Member.byDateDesc localeCompare g1 y = 0) _
              i j g1 g2 Hij H1 H2 P1 P2) as (i' & j' & Hij' & Hi' & Hj').
  rewrite (sortBy_stable _ Hcmp) in Hi', Hj'.
  destruct (filter_order_back _ _ i' j' g1 g2 Hij' Hi' Hj') as (a & b & Hab & Ha & Hb).
  apply list_lookup_fmap_Some in Ha as ([ka g1'] & -> & Ea).
  apply list_lookup_fmap_Some in Hb as ([kb g2'] & -> & Eb). simpl in *.
  pose proof (GroupsOf_records records) as Hg. fold m in Hg.
  destruct (fold_addRecord_key_order records [] [] GroupsOf_nil) with (a := a) (b := b)
    (ka := ka) (kb := kb) as (ia & ib & ra & rb & Hia & Hib & Hlt).
  - by intros ? ? ? ? _ ?%list_elem_of_lookup_2%elem_of_nil.
  - done.
  - fold m. by rewrite list_lookup_fmap, Ea.
  - fold m. by rewrite list_lookup_fmap, Eb.
  - simpl in Hia, Hib. destruct Hg as (_ & _ & Hall). rewrite Forall_forall in Hall.
    pose proof (Hall _ (list_elem_of_lookup_2 _ _ _ Ea)) as Hs1.
    pose proof (Hall _ (list_elem_of_lookup_2 _ _ _ Eb)) as Hs2. simpl in Hs1, Hs2.
    exists ia, ib, ra, rb.
    pose proof (proj1 (list_find_Some _ _ _ _) Hia) as (_ & Hka & _).
    pose proof (proj1 (list_find_Some _ _ _ _) Hib) as (_ & Hkb & _).
    rewrite Hs1, Hs2, !head_filter, Hia, Hib, Hka, Hkb. done.
Qed.

(** ** Summaries: length, characters and emptiness *)

Module SummaryBounds.
Import Text TextProps TextFacts.
Local Open Scope N_scope.

Lemma replaceMarkers_elem x s : ∀ skip atStart,
  x ∈ replaceMarkers skip atStart s → x ∈ s.
Proof.
  induction s as [|c rest IH]; intros skip atStart; cbn [replaceMarkers]; [done|].
  destruct skip as [|k]; [|intros ?%IH; by right].
  destruct (if atStart then markerLength (c :: rest) else None) as [[|k]|];
    rewrite ?elem_of_cons; intros H;
    repeat match goal with
           | H : _ ∨ _ |- _ => destruct H as [H|H]
           | H : _ ∈ replaceMarkers _ _ _ |- _ => apply IH in H
           end; eauto.
Qed.

Lemma length_replaceMarkers s : ∀ skip atStart,
  (length (replaceMarkers skip atStart s) ≤ length s)%nat.
Proof.
  induction s as [|c rest IH]; intros skip atStart; cbn [replaceMarkers]; [done|].
  destruct skip as [|k]; [|specialize (IH k (isLineTerminator c)); cbn [length]; lia].
  destruct (if atStart then markerLength (c :: rest) else None) as [[|k]|]; cbn [length].
  - specialize (IH 0%nat (isLineTerminator c)). lia.
  - specialize (IH k (isLineTerminator c)). lia.
  - specialize (IH 0%nat (isLineTerminator c)). lia.
Qed.

Lemma length_collapseFrom s : ∀ inRun, (length (collapseFrom inRun s) ≤ length s)%nat.
Proof.
  induction s as [|c rest IH]; intros inRun; simpl; [done|].
  pose proof (IH true). pose proof (IH false).
  destruct (isWhiteSpace c), inRun; simpl; lia.
Qed.

Lemma length_dropWhile p s : (length (dropWhile p s) ≤ length s)%nat.
Proof.
  destruct (dropWhile_suffix p s) as [t Ht]. rewrite Ht at 2. rewrite length_app. lia.
Qed.

Lemma length_trim s : (length (trim s) ≤ length s)%nat.
Proof.
  unfold trim, trimStart, trimEnd. rewrite length_reverse.
  etransitivity; [apply length_dropWhile|]. rewrite length_reverse. apply length_dropWhile.
Qed.

Lemma length_cleanText s : (length (cleanText s) ≤ length s)%nat.
Proof.
  unfold cleanText, collapseWhitespace, stripMarkers.
  etransitivity; [apply length_trim|].
  etransitivity; [apply length_collapseFrom|]. apply length_replaceMarkers.
Qed.

Lemma cleanText_elem x s : x ∈ cleanText s → x ∈ s ∨ x = SPACE.
Proof.
  unfold cleanText, collapseWhitespace, stripMarkers.
  intros [->|H]%trim_elem%collapseFrom_elem; [by right|].
  left. by eapply replaceMarkers_elem.
Qed.

Lemma dropWhile_all p s :
  Forall (λ c, p c = true) (dropWhile p s) ↔ Forall (λ c, p c = true) s.
Proof.
  induction s as [|c s IH]; simpl; [done|].
  destruct (p c) eqn:E; [|done]. rewrite IH, Forall_cons. tauto.
Qed.

Lemma dropWhile_nil p s : dropWhile p s = [] ↔ Forall (λ c, p c = true) s.
Proof.
  induction s as [|c s IH]; simpl; [done|].
  destruct (p c) eqn:E.
  - rewrite IH, Forall_cons. tauto.
  - split; [done|]. intros [H _]%Forall_cons. congruence.
Qed.

Lemma trim_nil s : trim s = [] ↔ Forall (λ c, isWhiteSpace c = true) s.
Proof.
  unfold trim, trimEnd, trimStart.
  rewrite <- (dropWhile_all isWhiteSpace s).
  rewrite <- (Forall_reverse _ (dropWhile isWhiteSpace s)), <- dropWhile_nil.
  split; [|by intros ->].
  intros H. apply (f_equal reverse) in H. by rewrite reverse_involutive in H.
Qed.

Lemma collapseFrom_all s : ∀ inRun,
  Forall (λ c, isWhiteSpace c = true) (collapseFrom inRun s)
  ↔ Forall (λ c, isWhiteSpace c = true) s.
Proof.
  induction s as [|c rest IH]; intros inRun; simpl; [done|].
  destruct (isWhiteSpace c) eqn:E.
  - destruct inRun; rewrite !Forall_cons, IH; [tauto|].
    assert (isWhiteSpace SPACE = true) by done. tauto.
  - rewrite !Forall_cons, IH. done.
Qed.

(** The cleaned text is empty exactly when nothing but white space is left
    once the speaker markers are taken out. *)
Lemma cleanText_nil s :
  cleanText s = [] ↔ Forall (λ c, isWhiteSpace c = true) (stripMarkers s).
Proof. unfold cleanText, collapseWhitespace. by rewrite trim_nil, collapseFrom_all. Qed.

(** X10: the character summary never grows the text and never invents a
    character: it is at most as long as the text, and each of its
    characters occurs in the text or is the space that stands for a run of
    white space or the ellipsis.  It is empty, so that the card shows the
    placeholder instead, exactly when the text is missing or holds nothing
    but speaker markers and white space. *)
Theorem summary_within_text (text : opt jsstring) :
  (∀ s, text = Val s →
     (length (Summary.extractSummary text) ≤ length s)%nat
     ∧ ∀ c, c ∈ Summary.extractSummary text → c ∈ s ∨ c = SPACE ∨ c = ELLIPSIS)
  ∧ (Summary.extractSummary text = []
     ↔ ∀ s, text = Val s → Forall (λ c, isWhiteSpace c = true) (stripMarkers s)).
Proof.
  split.
  - intros s ->. split.
    + destruct s as [|c s]; [done|]. cbn [Summary.extractSummary].
      pose proof (length_cleanText (c :: s)) as Hlen.
      rewrite length_app, length_take.
      destruct (100 <? length (cleanText (c :: s)))%nat eqn:E; cbn [length] in *.
      * apply Nat.ltb_lt in E. lia.
      * lia.
    + intros x [->|(s' & [= <-] & [H| ->]%cleanText_elem)]%extractSummary_elem; auto.
  - destruct text as [| |[|c s]]; [by split..| |].
    { split; [|done]. by intros _ s [= <-]. }
    cbn [Summary.extractSummary].
    assert (Hiff : (∀ s', Val (c :: s) = Val s' →
                      Forall (λ c, isWhiteSpace c = true) (stripMarkers s'))
                   ↔ cleanText (c :: s) = []).
    { rewrite cleanText_nil. split; [by intros H; apply H|by intros H s' [= <-]]. }
    rewrite Hiff. split.
    + intros [H _]%app_eq_nil. destruct (cleanText (c :: s)); [done|].
      by rewrite firstn_cons in H.
    + by intros ->.
Qed.

Lemma sentences_nil x : List.filter nonEmpty (split KUTEN x) = [] → Periods x.
Proof.
  induction x as [|c x IH]; [by constructor|].
  destruct (decide (c = KUTEN)) as [->|Hc].
  - rewrite split_cons_KUTEN. simpl. intros H. constructor; [done | by apply IH].
  - rewrite split_cons_other by done. by destruct (split KUTEN x).
Qed.

Lemma sentences_nonEmpty x :
  Forall (λ p, p ≠ []) (List.filter nonEmpty (split KUTEN x)).
Proof.
  apply Forall_forall. intros p [_ Hp]%list_elem_of_In%filter_In. by destruct p.
Qed.

Lemma join_head sep (p : jsstring) ps : p ≠ [] → nonEmpty (join sep (p :: ps)) = true.
Proof. destruct p as [|c p]; [done|]. intros _. by destruct ps. Qed.

Lemma dropWhile_snoc p s c : p c = false → ∃ t, dropWhile p (s ++ [c]) = t ++ [c].
Proof.
  intros Hc. induction s as [|x s [t IH]]; simpl.
  - rewrite Hc. by exists [].
  - destruct (p x); [by exists t|]. by exists (x :: s).
Qed.

Lemma trim_snoc s c : isWhiteSpace c = false → ∃ t, trim (s ++ [c]) = t ++ [c].
Proof.
  intros Hc. unfold trim, trimStart.
  destruct (dropWhile_snoc isWhiteSpace s c Hc) as [t ->]. exists t.
  apply trimEnd_id. intros c'. rewrite last_snoc. by intros [= <-].
Qed.

(** X11: the sentence summary, when it is not empty, ends with a period; and it
    is empty, so that the table shows the placeholder instead, exactly when
    the text is missing or holds nothing but speaker markers and white
    space. *)
Theorem sentence_summary_ends_with_period (text : opt jsstring) :
  (Hino.extractSummary text = [] ∨ last (Hino.extractSummary text) = Some KUTEN)
  ∧ (Hino.extractSummary text = []
     ↔ ∀ s, text = Val s → Forall (λ c, isWhiteSpace c = true) (stripMarkers s)).
Proof.
  destruct text as [| |[|c s]]; simpl; [split; [by left|by split]..| |].
  { split; [by left|]. split; [|done]. by intros _ s [= <-]. }
  set (clean := cleanText (c :: s)).
  assert (Hiff : (∀ s', Val (c :: s) = Val s' →
                    Forall (λ c, isWhiteSpace c = true) (stripMarkers s'))
                 ↔ clean = []).
  { subst clean. rewrite cleanText_nil. split; [by intros H; apply H|by intros H s' [= <-]]. }
  rewrite Hiff. clear Hiff.
  destruct (List.filter nonEmpty (split KUTEN clean)) as [|p ps] eqn:E.
  - apply sentences_nil in E. simpl.
    rewrite trim_id by apply cleanText_Trimmed. split; [|done].
    destruct (decide (clean = [])) as [?|Hne]; [by left|]. right.
    destruct (last clean) as [k|] eqn:El; [|by apply last_None in El].
    apply last_Some_elem_of in El as Hin.
    unfold Periods in E. rewrite Forall_forall in E. by rewrite (E k Hin).
  - assert (Hp : p ≠ []).
    { pose proof (sentences_nonEmpty clean) as H. rewrite E in H.
      by apply Forall_cons in H as [? _]. }
    replace (take 2 (p :: ps)) with (p :: take 1 ps) by done.
    rewrite join_head by done.
    destruct (trim_snoc (join KUTEN (p :: take 1 ps)) KUTEN eq_refl) as [t ->].
    split; [right; apply last_snoc|].
    split; [by intros [_ [=]]%app_eq_nil|].
    intros H. rewrite H in E. done.
Qed.
End SummaryBounds.

(** ** Summaries of transcripts *)

Module TranscriptFacts.
Import Text TextProps TextFacts Transcript.
Local Open Scope N_scope.

Lemma takeWhile_name name rest :
  Forall (λ c, isNameChar c = true) name →
  takeWhile isNameChar (name ++ IDEOGRAPHIC_SPACE :: rest) = name.
Proof.
  induction 1 as [|c name Hc _ IH]; simpl; [done|]. by rewrite Hc, IH.
Qed.

Lemma markerLength_line name rest :
  name ≠ [] → Forall (λ c, isNameChar c = true) name →
  markerLength (CIRCLE :: name ++ IDEOGRAPHIC_SPACE :: rest) = Some (S (S (length name))).
Proof.
  intros Hne Hname. cbn [markerLength]. rewrite N.eqb_refl, takeWhile_name by done.
  destruct name as [|c name]; [done|].
  by rewrite drop_app_length.
Qed.

Lemma replaceMarkers_skip pre c rest : ∀ atStart,
  replaceMarkers (length (pre ++ [c])) atStart (pre ++ c :: rest)
  = replaceMarkers 0 (isLineTerminator c) rest.
Proof.
  induction pre as [|x pre IH]; intros atStart.
  - simpl. by destruct rest.
  - cbn [length app replaceMarkers]. apply IH.
Qed.

Lemma replaceMarkers_content content next : ∀ atStart,
  CIRCLE ∉ content →
  replaceMarkers 0 atStart (content ++ LINE_FEED :: next)
  = content ++ LINE_FEED :: replaceMarkers 0 true next.
Proof.
  induction content as [|c content IH]; intros atStart.
  - intros _. cbn [app replaceMarkers]. rewrite markerLength_other by done.
    by destruct atStart.
  - rewrite not_elem_of_cons. intros [Hc Hrest].
    rewrite <- app_comm_cons. cbn [replaceMarkers].
    rewrite markerLength_other, IH by done. by destruct atStart.
Qed.

Lemma replaceMarkers_speakerLine name content rest :
  WellFormed (name, content) →
  replaceMarkers 0 true (speakerLine name content ++ rest)
  = replaceMarkers 0 false (content ++ rest).
Proof.
  intros (Hne & Hname & _). unfold speakerLine. cbn [fst snd] in *.
  rewrite <- app_comm_cons, <- app_assoc, <- app_comm_cons.
  cbn [replaceMarkers].
  rewrite (markerLength_line name (content ++ rest)) by done.
  replace (S (length name)) with (length (name ++ [IDEOGRAPHIC_SPACE]))
    by (rewrite length_app; simpl; lia).
  replace (isLineTerminator CIRCLE) with false by done.
  apply replaceMarkers_skip.
Qed.

Lemma stripMarkers_text lines :
  Forall WellFormed lines → stripMarkers (text lines) = contents lines.
Proof.
  unfold stripMarkers, text, contents.
  induction 1 as [|[name content] lines Hline Hlines IH]; [done|].
  destruct lines as [|line lines].
  - change (replaceMarkers 0 true (speakerLine name content) = content).
    rewrite <- (app_nil_r (speakerLine name content)).
    rewrite replaceMarkers_speakerLine by done. rewrite app_nil_r.
    apply replaceMarkers_plain, Hline.
  - change (join LINE_FEED ((λ line, speakerLine line.1 line.2)
                              <$> (name, content) :: line :: lines))
      with (speakerLine name content
              ++ LINE_FEED :: join LINE_FEED ((λ line, speakerLine line.1 line.2)
                                                <$> line :: lines)).
    change (join LINE_FEED ((name, content) :: line :: lines).*2)
      with (content ++ LINE_FEED :: join LINE_FEED (line :: lines).*2).
    rewrite replaceMarkers_speakerLine by done.
    rewrite replaceMarkers_content by apply Hline. by rewrite IH.
Qed.

Lemma contents_no_circle lines : Forall WellFormed lines → CIRCLE ∉ contents lines.
Proof.
  unfold contents.
  induction 1 as [|[name content] lines (_ & _ & Hc) Hlines IH]; [apply not_elem_of_nil|].
  destruct lines as [|line lines]; [done|].
  change (join LINE_FEED ((name, content) :: line :: lines).*2)
    with (content ++ LINE_FEED :: join LINE_FEED (line :: lines).*2).
  rewrite elem_of_app, elem_of_cons. intros [?|[?|?]]; [done|done|by apply IH].
Qed.

Lemma cleanText_text lines :
  Forall WellFormed lines → cleanText (text lines) = cleanText (contents lines).
Proof.
  intros Hlines. unfold cleanText. rewrite stripMarkers_text by done.
  unfold stripMarkers. by rewrite replaceMarkers_plain by by apply contents_no_circle.
Qed.

Lemma summary_of_clean s :
  Summary.extractSummary (Val s)
  = take 100 (cleanText s) ++ (if (100 <? length (cleanText s))%nat then [ELLIPSIS] else []).
Proof. by destruct s. Qed.

Lemma sentence_summary_of_clean s :
  Hino.extractSummary (Val s)
  = trim (if nonEmpty (join KUTEN (take 2 (List.filter nonEmpty (split KUTEN (cleanText s)))))
          then join KUTEN (take 2 (List.filter nonEmpty (split KUTEN (cleanText s))))
                 ++ [KUTEN]
          else cleanText s).
Proof. by destruct s. Qed.

(** X12: speaker markers of a transcript.  For a text whose lines each
    open with a marker, a [○], a name without U+3000 and U+0020 and one
    U+3000, and have no other [○], the markers are what the cleaning takes
    out, nothing more: what is left is the lines without their markers, and
    both summaries are the summaries of the text without the markers. *)
Theorem transcript_markers_dropped (lines : list (jsstring * jsstring)) :
  Forall WellFormed lines →
  stripMarkers (text lines) = contents lines
  ∧ Summary.extractSummary (Val (text lines)) = Summary.extractSummary (Val (contents lines))
  ∧ Hino.extractSummary (Val (text lines)) = Hino.extractSummary (Val (contents lines)).
Proof.
  intros Hlines. split; [by apply stripMarkers_text|].
  rewrite !summary_of_clean, !sentence_summary_of_clean.
  by rewrite cleanText_text.
Qed.

Lemma transcript_markers_dropped_witness :
  Summary.extractSummary (Val Sample.speech1)
  = Summary.extractSummary
      (Val (contents [([30000; 20013], [12371; 12435; 12395; 12385; 12399; 12290;
                                       27425; 12418; 12290])])).
Proof.
  refine (proj1 (proj2 (transcript_markers_dropped
            [([30000; 20013], [12371; 12435; 12395; 12385; 12399; 12290;
                               27425; 12418; 12290])] _))).
  apply Forall_singleton. split; [done|]. split.
  - by repeat constructor.
  - by apply (bool_decide_unpack _).
Defined.
End TranscriptFacts.

(** ** The order label of a speech item *)

Lemma length_repeatChar n c : String.length (repeatChar n c) = n.
Proof. induction n as [|n IH]; simpl; [done|]. by rewrite IH. Qed.

Lemma length_append (s1 s2 : string) :
  String.length (s1 +:+ s2) = (String.length s1 + String.length s2)%nat.
Proof. induction s1 as [|c s1 IH]; simpl; [done|]. by rewrite IH. Qed.

Lemma length_padStart n c s :
  String.length (padStart n c s) = (n `max` String.length s)%nat.
Proof. unfold padStart. rewrite length_append, length_repeatChar. lia. Qed.

Lemma show_Z_nonempty n : show_Z n ≠ "".
Proof.
  unfold show_Z, NilZero.string_of_int.
  destruct (Z.to_int n) as [d|d]; [|done].
  unfold NilZero.string_of_uint. by destruct d.
Qed.

Lemma show_Z_three_digits n : 0 ≤ n ≤ 999 → (String.length (show_Z n) ≤ 3)%nat.
Proof.
  intros Hn.
  assert (Hall : Forall (λ k, (String.length (show_Z (Z.of_nat k)) ≤ 3)%nat) (seq 0 1000)).
  { apply (bool_decide_unpack _). by vm_compute. }
  rewrite Forall_forall in Hall. rewrite <- (Z2Nat.id n) by lia.
  apply Hall, elem_of_seq. lia.
Qed.

(** X13: the order link of a speech item.  When the record has a
    [speechOrder] that is a safe integer, also when it is 0, the link is
    shown and its label is the decimal order with zeros put before it up to
    three characters: exactly three characters for an order from 0 to 999,
    and the bare decimal when that has three characters or more.  Without a
    [speechOrder] there is no link. *)
Theorem order_label_zero_padded (speech : SpeechRecord) :
  match sr_speechOrder speech with
  | Val n =>
      Z.abs n ≤ MAX_SAFE_INTEGER →
      ∃ k, si_order (renderSpeechItem speech) = Some (repeatChar k ZERO_DIGIT +:+ show_Z n)
           ∧ (3 ≤ k + String.length (show_Z n))%nat
           ∧ ((3 ≤ String.length (show_Z n))%nat → k = 0%nat)
           ∧ (0 ≤ n ≤ 999 → (k + String.length (show_Z n))%nat = 3%nat)
  | _ => si_order (renderSpeechItem speech) = None
  end.
Proof.
  unfold renderSpeechItem. simpl.
  destruct (sr_speechOrder speech) as [| |n]; [done..|]. intros _.
  exists (3 - String.length (show_Z n))%nat. split; [|split; [|split]].
  - unfold padStart. case_decide as Hempty; [|done].
    apply (f_equal String.length) in Hempty.
    rewrite length_append in Hempty. simpl in Hempty.
    pose proof (show_Z_nonempty n) as Hne. destruct (show_Z n); [done|]. simpl in *. lia.
  - lia.
  - lia.
  - intros Hn. pose proof (show_Z_three_digits n Hn). lia.
Qed.

Lemma order_label_zero_padded_witness :
  Z.abs 7 ≤ MAX_SAFE_INTEGER
  ∧ si_order (renderSpeechItem (Sample.record (Val "A") (Val "2024-01-10") 7 Sample.speech2))
    = Some "007".
Proof.
  split; [by vm_compute|].
  destruct (order_label_zero_padded
              (Sample.record (Val "A") (Val "2024-01-10") 7 Sample.speech2)
              ltac:(by vm_compute)) as (k & -> & _ & _ & Hk).
  specialize (Hk ltac:(lia)).
  change (String.length (show_Z 7)) with 1%nat in Hk.
  assert (k = 2%nat) as -> by lia. reflexivity.
Defined.

(** ** Loading the single table *)

(** X14: the outcomes of loading the single table.  An error is logged
    exactly when the fetch rejects, the response is not OK (a 404 included)
    or its body is not JSON, and then the page is the failure page.  The
    table is shown and its body replaced only for an OK response with a
    non-empty array: it then has one row per record, in the order of the
    data; otherwise body and visibility stay as they are. *)
Theorem table_load_outcomes (res : Fetched TablePayload) (p : TablePage) :
  let q := HinoTable.loadData res p in
  (tp_console q = tp_console p
   ∨ ∃ message, q = HinoTable.failed message p)
  ∧ (tp_console q ≠ tp_console p ↔
     (∃ message, res = Rejected message)
     ∨ ∃ status body, res = Response status body
         ∧ (ok status = false ∨ ∃ message, body = Malformed message))
  ∧ ((tp_rows q = tp_rows p ∧ tp_tableHidden q = tp_tableHidden p)
     ∨ ∃ status records,
         res = Response status (Json (Records records)) ∧ ok status = true
         ∧ records ≠ []
         ∧ tp_rows q = Some (HinoTable.renderRow <$> records)
         ∧ tp_tableHidden q = false
         ∧ tp_console q = tp_console p).
Proof.
  intros q. subst q.
  assert (Hgrow : ∀ message, tp_console p ++ [message] ≠ tp_console p).
  { intros message H. apply (f_equal length) in H. rewrite length_app in H. simpl in H. lia. }
  destruct res as [message|status [message|[|[|r rs]]]]; simpl.
  - split; [right; eauto|]. split; [|by left].
    split; [intros _; left; eauto|intros _; apply Hgrow].
  - destruct (ok status) eqn:E; simpl.
    + split; [right; eauto|]. split; [|by left].
      split; [intros _; right; eauto 6|intros _; apply Hgrow].
    + split; [right; eauto|]. split; [|by left].
      split; [intros _; right; eauto 6|intros _; apply Hgrow].
  - destruct (ok status) eqn:E; simpl.
    + split; [by left|]. split; [|by left]. split; [done|].
      intros [[m [=]]|(st & b & [= <- <-] & [?|[m [=]]])]. congruence.
    + split; [right; eauto|]. split; [|by left].
      split; [intros _; right; eauto 6|intros _; apply Hgrow].
  - destruct (ok status) eqn:E; simpl.
    + split; [by left|]. split; [|by left]. split; [done|].
      intros [[m [=]]|(st & b & [= <- <-] & [?|[m [=]]])]. congruence.
    + split; [right; eauto|]. split; [|by left].
      split; [intros _; right; eauto 6|intros _; apply Hgrow].
  - destruct (ok status) eqn:E; simpl.
    + split; [by left|]. split.
      * split; [done|].
        intros [[m [=]]|(st & b & [= <- <-] & [?|[m [=]]])]. congruence.
      * right. exists status, (r :: rs). done.
    + split; [right; eauto|]. split; [|by left].
      split; [intros _; right; eauto 6|intros _; apply Hgrow].
Qed.

(** ** The two copies of the member detail script side by side *)

Lemma SameList_button p p' :
  SameList p p' → exists_ LoadMoreButton p' = exists_ LoadMoreButton p.
Proof. intros (_ & _ & _ & _ & _ & Hb & _). unfold exists_. by rewrite Hb. Qed.

Lemma update_agree n f p p' :
  SameList p p' → SameList (update n f p) (update n f p').
Proof.
  intros (Hm & Hv & Hs & Ht & Hc & Hb & Hp & Hn).
  repeat split; simpl; try done; case_decide; by rewrite ?Hb, ?Hp, ?Hn.
Qed.

(** The two [updateLoadMoreButton] do the same whenever a page of at most
    five groups shows all of them. *)
Lemma updateLoadMoreButton_agree p p' :
  SameList p p' →
  (Z.of_nat (length (meetingGroups p)) ≤ PAGE_SIZE → Member.hasMore p = false) →
  SameList (Member.updateLoadMoreButton p) (MemberLegacy.updateLoadMoreButton p').
Proof.
  intros Hsame Hfull.
  pose proof (SameList_button p p' Hsame) as He.
  assert (Hmore : Member.hasMore p' = Member.hasMore p)
    by (destruct Hsame as (Hm & Hv & _); by apply hasMore_frame).
  unfold Member.updateLoadMoreButton, MemberLegacy.updateLoadMoreButton.
  rewrite He. destruct (exists_ LoadMoreButton p); simpl; [|done].
  rewrite (hasMore_frame p (update LoadMoreButton _ p)) by done.
  rewrite (hasMore_frame p' (update LoadMoreButton _ p')) by done.
  rewrite Hmore.
  destruct (Z.of_nat (length (meetingGroups p)) <=? PAGE_SIZE) eqn:E.
  - apply Z.leb_le in E. rewrite (Hfull E). simpl. by apply update_agree.
  - destruct (Member.hasMore p); simpl; by repeat apply update_agree.
Qed.

Lemma renderVisibleGroups_agree p p' :
  SameList p p' → SameList (Member.renderVisibleGroups p) (Member.renderVisibleGroups p').
Proof.
  intros (Hm & Hv & Hs & Ht & Hc & Hb & Hp & Hn).
  unfold Member.renderVisibleGroups. repeat split; simpl; by rewrite ?Hm, ?Hv, ?Hs.
Qed.

Lemma onLoadMoreClick_agree p p' :
  SameList p p' → 0 ≤ visibleCount p →
  SameList (Member.onLoadMoreClick p) (MemberLegacy.onLoadMoreClick p').
Proof.
  intros Hsame Hvis.
  pose proof (SameList_button p p' Hsame) as He.
  unfold Member.onLoadMoreClick, MemberLegacy.onLoadMoreClick. rewrite He.
  destruct (exists_ LoadMoreButton p); simpl; [|done].
  apply updateLoadMoreButton_agree.
  - apply renderVisibleGroups_agree.
    destruct Hsame as (Hm & Hv & Hs & Ht & Hc & Hb & Hp & Hn).
    rewrite Hm, Hv. by repeat split.
  - rewrite renderVisibleGroups_length. simpl. intros Hlen.
    apply not_true_iff_false. rewrite hasMore_lt, renderVisibleGroups_length. simpl.
    unfold PAGE_SIZE in *. lia.
Qed.

Lemma orElse_Undefined {A} (x : opt A) : Member.orElse Undefined x = x.
Proof. done. Qed.

Lemma title_update n f p : title (update n f p) = title p.
Proof. done. Qed.

Lemma renderDisabilityLeagues_title leagues p :
  title (Member.renderDisabilityLeagues leagues p) = title p.
Proof. unfold Member.renderDisabilityLeagues. by repeat case_match. Qed.

Lemma renderWrittenQuestions_title qs p :
  title (Member.renderWrittenQuestions qs p) = title p.
Proof. unfold Member.renderWrittenQuestions. by repeat case_match. Qed.

Lemma renderMember_agree slug records p p' :
  SameList p p' →
  SameList (Member.renderMember slug records None p)
           (MemberLegacy.renderMember slug records p').
Proof.
  intros (Hm & Hv & Hs & Ht & Hc & Hb & Hp & Hn).
  destruct (renderMember_frame slug records None p) as (Hm1 & Hv1 & Hc1 & Hs1 & _).
  destruct (legacy_renderMember_frame slug records p') as (Hm2 & Hv2 & Hc2 & Hs2 & _).
  split; [congruence|]. split; [congruence|]. split; [congruence|].
  split; [|split; [congruence|]].
  - unfold Member.renderMember, MemberLegacy.renderMember.
    destruct records as [rs|member_name meetings written_questions].
    + destruct slug as [s|]; [|done]. by destruct (decide (s = "")).
    + cbv zeta. by rewrite renderWrittenQuestions_title, renderDisabilityLeagues_title.
  - unfold Member.renderMember, MemberLegacy.renderMember.
    destruct records as [rs|member_name meetings written_questions].
    + destruct slug as [s|]; [|done]. destruct (decide (s = "")); [done|].
      rewrite !nodes_update_ne, !nodes_update_eq by done. by rewrite Hn.
    + cbv zeta.
      rewrite !renderWrittenQuestions_other, !renderDisabilityLeagues_other by done.
      rewrite !nodes_update_ne by done. rewrite !nodes_setTitle.
      rewrite !nodes_update_ne, !nodes_update_eq by done. by rewrite Hn.
Qed.

(** The two [render] do the same for a data set that is not empty. *)
Lemma render_agree slug lc records p p' :
  SameList p p' → Member.noGroups records = false →
  SameList (Member.render slug lc records None p) (MemberLegacy.render slug lc records p').
Proof.
  intros Hsame Hdata. apply (renderMember_agree slug records) in Hsame.
  unfold Member.render, MemberLegacy.render. rewrite Hdata.
  set (q := Member.renderMember slug records None p) in *.
  set (q' := MemberLegacy.renderMember slug records p') in *.
  apply updateLoadMoreButton_agree.
  - apply renderVisibleGroups_agree.
    apply (update_agree Placeholder remove) in Hsame.
    destruct Hsame as (Hm & Hv & Hs & Ht & Hc & Hb & Hp & Hn).
    repeat split; simpl in *; try done. by rewrite Hs.
  - rewrite renderVisibleGroups_length. simpl. intros Hlen.
    apply not_true_iff_false. rewrite hasMore_lt, renderVisibleGroups_length. simpl.
    unfold PAGE_SIZE in *. lia.
Qed.

Lemma clicks_agree n : ∀ p p',
  SameList p p' → 0 ≤ visibleCount p ≤ Z.of_nat (length (meetingGroups p)) →
  SameList (clicks Member.onLoadMoreClick n p) (clicks MemberLegacy.onLoadMoreClick n p').
Proof.
  induction n as [|n IH]; intros p p' Hsame Hv; simpl; [done|].
  apply IH; [apply onLoadMoreClick_agree; [done|lia]|by apply onLoadMoreClick_bounds].
Qed.

Lemma SameList_refl p : SameList p p.
Proof. by repeat split. Qed.

(** X15: the two copies of the member detail script side by side.  For a
    data set that is not empty and no roster profile, the older copy and the
    current one show the same list in every session: after the same clicks
    before the data arrives, the render, and the same clicks after it, the
    meeting groups, the visible count, the speech list, the load-more
    button, the placeholder, the name, the title and the console are the
    same. *)
Theorem copies_show_same_list (slug : option string) (localeCompare : string → string → Z)
    (records : Payload) (list : Element) (doc : Node → option Element) (n k : nat) :
  Member.noGroups records = false →
  SameList
    (clicks Member.onLoadMoreClick k
       (Member.render slug localeCompare records None
          (clicks Member.onLoadMoreClick n (initialPage list doc))))
    (clicks MemberLegacy.onLoadMoreClick k
       (MemberLegacy.render slug localeCompare records
          (clicks MemberLegacy.onLoadMoreClick n (initialPage list doc)))).
Proof.
  intros Hdata.
  assert (Hloading : SameList (clicks Member.onLoadMoreClick n (initialPage list doc))
                       (clicks MemberLegacy.onLoadMoreClick n (initialPage list doc))).
  { apply clicks_agree; [apply SameList_refl|done]. }
  apply clicks_agree; [by apply render_agree|].
  destruct (render_groups slug localeCompare records None
              (clicks Member.onLoadMoreClick n (initialPage list doc)) Hdata) as [-> ->].
  unfold PAGE_SIZE. lia.
Qed.

(** X16: the older copy and an empty data set.  Its [render] returns
    before it looks at the load-more button: the button keeps the state the
    page gave it, shown if the markup shows it, and it is the first click
    on it that hides it. *)
Theorem older_copy_empty_data_button (slug : option string)
    (localeCompare : string → string → Z) (records : Payload)
    (list : Element) (doc : Node → option Element) :
  Member.noGroups records = true →
  let p := MemberLegacy.render slug localeCompare records (initialPage list doc) in
  nodes p LoadMoreButton = doc LoadMoreButton
  ∧ ∀ btn, nodes (MemberLegacy.onLoadMoreClick p) LoadMoreButton = Some btn →
      hidden btn = true.
Proof.
  intros Hdata p. subst p. split; [by rewrite legacy_render_empty|].
  intros btn Hb.
  set (p := MemberLegacy.render _ _ _ _) in *.
  assert (Hm : meetingGroups p = [] ∧ visibleCount p = 0).
  { subst p. unfold MemberLegacy.render. rewrite Hdata.
    destruct (legacy_renderMember_frame slug records (initialPage list doc))
      as (Hm & Hv & _). simpl. by rewrite Hm, Hv. }
  destruct Hm as [Hm Hv].
  destruct (legacy_onLoadMoreClick_single_page p) as (_ & _ & Hhid).
  - rewrite Hm. simpl. lia.
  - by rewrite Hm, Hv.
  - by apply Hhid.
Qed.

(** ** The members directory *)

Section KeyedMapFacts.
Context {K V : Type} `{EqDecision K}.
Implicit Types (m : list (K * V)) (k : K).

Lemma kmap_has_elem k m : kmap_has k m = true ↔ k ∈ m.*1.
Proof.
  induction m as [|[k' v] m IH]; csimpl.
  - split; [done | by intros ?%elem_of_nil].
  - case_decide; subst; rewrite elem_of_cons; [by split; [left|]|].
    rewrite IH. split; [by right|]. by intros [->|?].
Qed.

Lemma kmap_set_fresh k v m : k ∉ m.*1 → kmap_set k v m = m ++ [(k, v)].
Proof.
  induction m as [|[k' v'] m IH]; csimpl; [done|].
  rewrite not_elem_of_cons. intros [Hne Hm].
  case_decide; [congruence|]. by rewrite IH.
Qed.

Lemma kmap_mutate_app k (f : V → V) m1 m2 :
  k ∉ m1.*1 → kmap_mutate k f (m1 ++ m2) = m1 ++ kmap_mutate k f m2.
Proof.
  induction m1 as [|[k' v'] m1 IH]; csimpl; [done|].
  rewrite not_elem_of_cons. intros [Hne Hm].
  case_decide; [congruence|]. by rewrite IH.
Qed.

Lemma kmap_split k m :
  k ∈ m.*1 → ∃ m1 v m2, m = m1 ++ (k, v) :: m2 ∧ k ∉ m1.*1.
Proof.
  induction m as [|[k' v'] m IH]; csimpl; [by intros ?%elem_of_nil|].
  destruct (decide (k' = k)) as [->|Hne].
  - intros _. exists [], v', m. split; [done | apply not_elem_of_nil].
  - rewrite elem_of_cons. intros [?|Hin]; [congruence|].
    destruct (IH Hin) as (m1 & v & m2 & -> & Hm1).
    exists ((k', v') :: m1), v, m2. split; [done|].
    csimpl. rewrite not_elem_of_cons. split; [congruence|done].
Qed.

Lemma kmap_get_app k m1 m2 :
  k ∉ m1.*1 → kmap_get k (m1 ++ m2) = kmap_get k m2.
Proof.
  induction m1 as [|[k' v'] m1 IH]; csimpl; [done|].
  rewrite not_elem_of_cons. intros [Hne Hm].
  case_decide; [congruence|]. by rewrite IH.
Qed.

Lemma kmap_get_fresh k m : k ∉ m.*1 → kmap_get k m = None.
Proof.
  induction m as [|[k' v'] m IH]; csimpl; [done|].
  rewrite not_elem_of_cons. intros [Hne Hm].
  case_decide; [congruence|]. by rewrite IH.
Qed.
End KeyedMapFacts.

(** The loop that files each element under its key: the entry of a key is
    created from [init] when the key is first met and receives the elements
    of that key in input order. *)
Section Grouping.
Context {K V X : Type} `{EqDecision K}.
Variable key : X → K.
Variable init : V.
Variable add : X → V → V.
Variable step : list (K * V) → X → list (K * V).
Hypothesis step_eq : ∀ m x,
  step m x = kmap_mutate (key x) (add x)
               (if kmap_has (key x) m then m else kmap_set (key x) init m).

Local Abbreviation Filed m l :=
  (NoDup (m%list).*1
   ∧ (∀ k, k ∈ (m%list).*1 ↔ ∃ x, x ∈ l ∧ key x = k)
   ∧ Forall (λ kv : K * V,
               kv.2 = fold_left (λ v x, add x v) (filter (λ x, key x = kv.1) l) init) m).

Lemma step_hit m x :
  key x ∈ m.*1 →
  ∃ m1 v m2, m = m1 ++ (key x, v) :: m2 ∧ (key x ∉ m1.*1)
             ∧ step m x = m1 ++ (key x, add x v) :: m2.
Proof.
  intros Hin. rewrite step_eq, (proj2 (kmap_has_elem _ _) Hin).
  destruct (kmap_split _ _ Hin) as (m1 & v & m2 & -> & Hm1).
  exists m1, v, m2. split; [done|]. split; [done|].
  rewrite kmap_mutate_app by done. simpl. by rewrite decide_True.
Qed.

Lemma step_miss m x :
  key x ∉ m.*1 → step m x = m ++ [(key x, add x init)].
Proof.
  intros Hin. rewrite step_eq.
  destruct (kmap_has _ m) eqn:E; [by apply kmap_has_elem in E|].
  rewrite kmap_set_fresh, kmap_mutate_app by done. simpl. by rewrite decide_True.
Qed.

Lemma step_filed m l x : Filed m l → Filed (step m x) (l ++ [x]).
Proof.
  intros (Hnd & Hkeys & Hall).
  assert (Hstep : ∀ k v,
            v = fold_left (λ v x, add x v) (filter (λ x', key x' = k) l) init →
            k ≠ key x →
            v = fold_left (λ v x, add x v) (filter (λ x', key x' = k) (l ++ [x])) init).
  { intros k v Hv Hne. rewrite filter_app, filter_cons_False, filter_nil, app_nil_r; done. }
  assert (Hcover : ∀ k, k ∈ m.*1 ∨ k = key x ↔ ∃ x', x' ∈ l ++ [x] ∧ key x' = k).
  { intros k. rewrite Hkeys. setoid_rewrite elem_of_app.
    setoid_rewrite list_elem_of_singleton. split.
    - intros [(x' & ? & ?)| ->]; eauto.
    - intros (x' & [?| ->] & ?); eauto. }
  destruct (decide (key x ∈ m.*1)) as [Hin|Hout].
  - destruct (step_hit _ _ Hin) as (m1 & v & m2 & -> & Hm1 & ->).
    rewrite !fmap_app, !fmap_cons in *. simpl in *.
    split; [done|]. split.
    { intros k. rewrite <- Hcover. split; [by left|]. by intros [?| ->]. }
    apply NoDup_app in Hnd as (_ & Hdisj & [Hk2 _]%NoDup_cons).
    rewrite Forall_app, Forall_cons in *. destruct Hall as (H1 & Hv & H2). simpl in *.
    rewrite Forall_forall in H1, H2.
    split; [|split].
    + apply Forall_forall. intros [k v'] Hv'. simpl.
      apply Hstep; [by apply (H1 (k, v'))|]. intros ->.
      apply Hm1. apply list_elem_of_fmap. by exists (key x, v').
    + rewrite filter_app, filter_cons_True, filter_nil by done.
      by rewrite fold_left_app, <- Hv.
    + apply Forall_forall. intros [k v'] Hv'. simpl.
      apply Hstep; [by apply (H2 (k, v'))|]. intros ->.
      apply Hk2. apply list_elem_of_fmap. by exists (key x, v').
  - rewrite step_miss by done. rewrite fmap_app. simpl.
    split; [|split].
    + apply NoDup_app. split; [done|]. split; [|apply NoDup_singleton].
      intros k Hk ->%list_elem_of_singleton. done.
    + intros k. rewrite <- Hcover. rewrite elem_of_app, list_elem_of_singleton. done.
    + rewrite Forall_app, Forall_singleton. rewrite Forall_forall in Hall. split.
      * apply Forall_forall. intros [k v'] Hv'. simpl.
        apply Hstep; [by apply (Hall (k, v'))|]. intros ->.
        apply Hout. apply list_elem_of_fmap. by exists (key x, v').
      * simpl. rewrite filter_app, filter_cons_True, filter_nil by done.
        destruct (filter _ l) as [|x' l'] eqn:E; [done|]. exfalso.
        assert (Hx' : x' ∈ filter (λ x', key x' = key x) l)
          by (rewrite E; apply list_elem_of_here).
        apply list_elem_of_filter in Hx' as [Hkey Hx'].
        apply Hout, Hkeys. eauto.
Qed.

Lemma fold_step_filed l : ∀ m l0, Filed m l0 → Filed (fold_left step l m) (l0 ++ l).
Proof.
  induction l as [|x l IH]; intros m l0 Hm; simpl.
  - by rewrite app_nil_r.
  - rewrite cons_middle, app_assoc. by apply IH, step_filed.
Qed.

Lemma grouping l : Filed (fold_left step l []) l.
Proof.
  apply (fold_step_filed l [] []).
  split; [constructor|]. split; [|constructor].
  intros k. csimpl. split; [by intros ?%elem_of_nil|].
  by intros (x & ?%elem_of_nil & _).
Qed.
End Grouping.

(** Lists filed under distinct keys that cover a list make up the list. *)
Lemma concat_by_key_out {K X} `{EqDecision K} (key : X → K) (ks : list K) x l :
  key x ∉ ks →
  (λ k, filter (λ x, key x = k) (x :: l)) <$> ks = (λ k, filter (λ x, key x = k) l) <$> ks.
Proof.
  induction ks as [|k ks IH]; [done|].
  rewrite not_elem_of_cons. intros [Hne Hk]. csimpl.
  by rewrite IH, filter_cons_False by done.
Qed.

Lemma concat_by_key_in {K X} `{EqDecision K} (key : X → K) (ks : list K) x l :
  NoDup ks → key x ∈ ks →
  concat ((λ k, filter (λ x, key x = k) (x :: l)) <$> ks)
  ≡ₚ x :: concat ((λ k, filter (λ x, key x = k) l) <$> ks).
Proof.
  induction ks as [|k ks IH]; [by intros _ ?%elem_of_nil|].
  rewrite NoDup_cons. intros [Hk Hnd] Hin. csimpl.
  destruct (decide (key x = k)) as [<-|Hne].
  - rewrite concat_by_key_out by done. by rewrite filter_cons_True.
  - apply elem_of_cons in Hin as [?|Hin]; [done|].
    rewrite IH by done. rewrite filter_cons_False by done.
    by rewrite Permutation_middle.
Qed.

Lemma concat_by_key {K X} `{EqDecision K} (key : X → K) (ks : list K) (l : list X) :
  NoDup ks → (∀ x, x ∈ l → key x ∈ ks) →
  concat ((λ k, filter (λ x, key x = k) l) <$> ks) ≡ₚ l.
Proof.
  intros Hnd. induction l as [|x l IH]; intros Hcover.
  - clear. induction ks as [|k ks IH]; [done|]. csimpl. by rewrite IH.
  - rewrite concat_by_key_in; [|done|apply Hcover; by left].
    f_equiv. apply IH. intros x' Hx'. apply Hcover. by right.
Qed.

Lemma concat_perm {A} (l l' : list (list A)) : l ≡ₚ l' → concat l ≡ₚ concat l'.
Proof.
  induction 1 as [|x l l' _ IH|x y l|l l' l'' _ IH1 _ IH2]; simpl.
  - done.
  - by rewrite IH.
  - rewrite !app_assoc. f_equiv. apply Permutation_app_comm.
  - by rewrite IH1.
Qed.

Lemma concat_fmap_perm {A B} (f g : A → list B) (l : list A) :
  Forall (λ x, f x ≡ₚ g x) l → concat (f <$> l) ≡ₚ concat (g <$> l).
Proof. induction 1 as [|x l Hx _ IH]; csimpl; [done|]. by rewrite Hx, IH. Qed.

Lemma fold_snoc {A} (l acc : list A) : fold_left (λ v x, v ++ [x]) l acc = acc ++ l.
Proof.
  revert acc. induction l as [|x l IH]; intros acc; simpl; [by rewrite app_nil_r|].
  by rewrite IH, <- app_assoc.
Qed.

(** The chamber map of a party after the members [ms]. *)
Lemma chambers_filed (ms : list DietMember) :
  let chambers := fold_left Directory.addToChamber ms [] in
  NoDup chambers.*1
  ∧ (∀ c, c ∈ chambers.*1 ↔ ∃ x, x ∈ ms ∧ Directory.chamberKey x = c)
  ∧ Forall (λ cv, cv.2 = filter (λ x, Directory.chamberKey x = cv.1) ms) chambers.
Proof.
  destruct (grouping Directory.chamberKey [] (λ x v, v ++ [x]) Directory.addToChamber
              (λ _ _, eq_refl) ms) as (Hnd & Hkeys & Hall).
  split; [done|]. split; [done|].
  eapply Forall_impl; [exact Hall|]. intros [c v] ->. simpl. apply fold_snoc.
Qed.

Lemma partyEntry_fold (ms : list DietMember) (e : PartyEntry) :
  fold_left (λ partyEntry member,
               {| pe_count := pe_count partyEntry + 1;
                  pe_chambers := Directory.addToChamber (pe_chambers partyEntry) member |})
    ms e
  = {| pe_count := pe_count e + Z.of_nat (length ms);
       pe_chambers := fold_left Directory.addToChamber ms (pe_chambers e) |}.
Proof.
  revert e. induction ms as [|x ms IH]; intros e; simpl.
  - destruct e. simpl. f_equal. lia.
  - rewrite IH. simpl. f_equal. lia.
Qed.

(** The party map after the members [list]. *)
Lemma parties_filed (list : list DietMember) :
  let partyMap := fold_left Directory.addMember list [] in
  NoDup partyMap.*1
  ∧ (∀ k, k ∈ partyMap.*1 ↔ ∃ x, x ∈ list ∧ Directory.partyKey x = k)
  ∧ Forall (λ kv : jsstring * PartyEntry,
              kv.2 = {| pe_count :=
                          Z.of_nat (length (filter (λ x, Directory.partyKey x = kv.1) list));
                        pe_chambers :=
                          fold_left Directory.addToChamber
                            (filter (λ x, Directory.partyKey x = kv.1) list) [] |})
      partyMap.
Proof.
  destruct (grouping Directory.partyKey {| pe_count := 0; pe_chambers := [] |}
              (λ member partyEntry,
                 {| pe_count := pe_count partyEntry + 1;
                    pe_chambers := Directory.addToChamber (pe_chambers partyEntry) member |})
              Directory.addMember (λ _ _, eq_refl) list) as (Hnd & Hkeys & Hall).
  split; [done|]. split; [done|].
  eapply Forall_impl; [exact Hall|]. intros [k e] ->. simpl.
  by rewrite partyEntry_fold.
Qed.

(** The rows under a party are the members filed under it. *)
Lemma rowsOfParty_perm compare searchValue (k : jsstring) (ms : list DietMember) :
  rowsOfParty
    (Directory.renderParty compare searchValue
       (k, fold_left Directory.addToChamber ms [], Z.of_nat (length ms)))
  ≡ₚ ms.
Proof.
  destruct (chambers_filed ms) as (Hnd & Hkeys & Hall).
  unfold rowsOfParty, Directory.renderParty, Directory.sortChambers. simpl.
  rewrite <- list_fmap_compose.
  rewrite (concat_perm _ (cs_rows ∘ Directory.renderChamber compare
                            <$> fold_left Directory.addToChamber ms []))
    by (by rewrite sortBy_perm).
  rewrite (concat_fmap_perm _ (λ cv, filter (λ x, Directory.chamberKey x = cv.1) ms)).
  - replace ((λ cv : jsstring * list DietMember,
                filter (λ x, Directory.chamberKey x = cv.1) ms)
             <$> fold_left Directory.addToChamber ms [])
      with ((λ c, filter (λ x, Directory.chamberKey x = c) ms)
            <$> (fold_left Directory.addToChamber ms []).*1)
      by (by rewrite <- list_fmap_compose).
    apply concat_by_key; [done|]. intros x Hx. apply Hkeys. eauto.
  - eapply Forall_impl; [exact Hall|]. intros [c v] Hv. simpl in *.
    by rewrite sortBy_perm, Hv.
Qed.

Lemma renderMembers_sections compare searchValue (list : list DietMember) :
  list ≠ [] →
  Directory.renderMembers compare searchValue list
  = Sections (Directory.renderParty compare searchValue
                <$> Directory.groupByPartyAndChamber compare list).
Proof. by destruct list. Qed.

(** The party map of a non-empty list, sorted. *)
Lemma sorted_parties_filed compare (list : list DietMember) :
  Forall (λ kv : jsstring * PartyEntry,
            kv.2 = {| pe_count :=
                        Z.of_nat (length (filter (λ x, Directory.partyKey x = kv.1) list));
                      pe_chambers :=
                        fold_left Directory.addToChamber
                          (filter (λ x, Directory.partyKey x = kv.1) list) [] |}
            ∧ kv.1 ∈ (fold_left Directory.addMember list []).*1)
    (sortBy (Directory.byPartyName compare) (fold_left Directory.addMember list [])).
Proof.
  destruct (parties_filed list) as (_ & _ & Hall).
  rewrite sortBy_perm. apply Forall_forall. intros kv Hkv. rewrite Forall_forall in Hall.
  split; [by apply Hall|]. apply list_elem_of_fmap. by exists kv.
Qed.

Lemma listedMembers_perm compare searchValue (list : list DietMember) :
  listedMembers (Directory.renderMembers compare searchValue list) ≡ₚ list.
Proof.
  destruct (decide (list = [])) as [->|Hlist]; [done|].
  rewrite renderMembers_sections by done. unfold listedMembers.
  unfold Directory.groupByPartyAndChamber.
  destruct (parties_filed list) as (Hnd & Hkeys & Hall).
  pose proof (sorted_parties_filed compare list) as Hsorted.
  set (partyMap := fold_left Directory.addMember list []) in *.
  rewrite <- !list_fmap_compose.
  rewrite (concat_fmap_perm _ (λ kv, filter (λ x, Directory.partyKey x = kv.1) list)).
  - rewrite (concat_perm _ ((λ kv : jsstring * PartyEntry,
                               filter (λ x, Directory.partyKey x = kv.1) list)
                            <$> partyMap)) by (by rewrite sortBy_perm).
    replace ((λ kv : jsstring * PartyEntry,
                filter (λ x, Directory.partyKey x = kv.1) list) <$> partyMap)
      with ((λ k, filter (λ x, Directory.partyKey x = k) list) <$> partyMap.*1)
      by (by rewrite <- list_fmap_compose).
    apply concat_by_key; [done|]. intros x Hx. apply Hkeys. eauto.
  - eapply Forall_impl; [exact Hsorted|]. intros [k e] [He _]. simpl in *. subst e.
    apply rowsOfParty_perm.
Qed.

(** X17: the directory lists every member of the list exactly once, in the block
    of its party and the table of its chamber: the rows taken together are
    a rearrangement of the list, party names are distinct, chamber names are
    distinct within a party, no block and no table is empty, and the head
    count of a party is the number of rows under it.  A member whose party
    is missing, empty or blank is filed under the default party, a member
    whose chamber is missing under the no-chamber label; the no-match
    notice is shown for the empty list only. *)
Theorem directory_lists_each_member_once (compare : jsstring → jsstring → Z)
    (searchValue : option jsstring) (list : list DietMember) :
  let result := Directory.renderMembers compare searchValue list in
  listedMembers result ≡ₚ list
  ∧ match result with
    | NoMatch => list = []
    | Sections sections =>
        list ≠ []
        ∧ NoDup (ps_name <$> sections)
        ∧ Forall (λ s,
                    ps_count s = Z.of_nat (length (rowsOfParty s))
                    ∧ ps_chambers s ≠ []
                    ∧ NoDup (cs_name <$> ps_chambers s)
                    ∧ Forall (λ c,
                                cs_rows c ≠ []
                                ∧ Forall (λ m, Directory.partyKey m = ps_name s
                                               ∧ Directory.chamberKey m = cs_name c)
                                    (cs_rows c))
                        (ps_chambers s))
            sections
    end.
Proof.
  intros result. subst result. split; [apply listedMembers_perm|].
  destruct (decide (list = [])) as [->|Hlist]; [done|].
  rewrite renderMembers_sections by done.
  unfold Directory.groupByPartyAndChamber.
  destruct (parties_filed list) as (Hnd & Hkeys & Hall).
  pose proof (sorted_parties_filed compare list) as Hsorted.
  set (partyMap := fold_left Directory.addMember list []) in *.
  split; [done|split].
  - rewrite <- !list_fmap_compose.
    rewrite (list_fmap_ext _ fst (sortBy (Directory.byPartyName compare) partyMap))
      by done.
    by rewrite sortBy_perm.
  - rewrite <- list_fmap_compose. apply Forall_fmap.
    eapply Forall_impl; [exact Hsorted|]. intros [k e] [He Hk]. simpl in *. subst e. simpl.
    set (ms := filter (λ x, Directory.partyKey x = k) list).
    destruct (chambers_filed ms) as (Hcnd & Hckeys & Hcall).
    split; [|split; [|split]].
    + pose proof (rowsOfParty_perm compare searchValue k ms) as Hrows.
      unfold Directory.renderParty in Hrows. simpl in Hrows.
      unfold rowsOfParty. simpl. by rewrite Hrows.
    + apply Hkeys in Hk as (x & Hx & Hkx).
      assert (Hc : Directory.chamberKey x ∈ (fold_left Directory.addToChamber ms []).*1).
      { apply Hckeys. exists x. split; [|done]. by apply list_elem_of_filter. }
      intros Hnil. apply fmap_nil_inv in Hnil. unfold Directory.sortChambers in Hnil.
      apply sortBy_nil_inv in Hnil. rewrite Hnil in Hc. by apply elem_of_nil in Hc.
    + rewrite <- list_fmap_compose. unfold Directory.sortChambers.
      rewrite (list_fmap_ext _ fst (sortBy (Directory.byChamber compare)
                                      (fold_left Directory.addToChamber ms [])))
        by done.
      by rewrite sortBy_perm.
    + apply Forall_fmap. unfold Directory.sortChambers. rewrite sortBy_perm.
      apply Forall_forall. intros [c v] Hcv. rewrite Forall_forall in Hcall.
      pose proof (Hcall _ Hcv) as Hv. simpl in *. subst v.
      assert (Hc : c ∈ (fold_left Directory.addToChamber ms []).*1)
        by (apply list_elem_of_fmap; by exists (c, filter (λ x, Directory.chamberKey x = c) ms)).
      apply Hckeys in Hc as (x & Hx & Hcx).
      split.
      * intros Hnil%sortBy_nil_inv.
        assert (x ∈ filter (λ x, Directory.chamberKey x = c) ms)
          by (by apply list_elem_of_filter).
        rewrite Hnil in *. by apply elem_of_nil in H.
      * rewrite sortBy_perm. apply Forall_forall.
        intros m [Hcm [Hpm _]%list_elem_of_filter]%list_elem_of_filter. done.
Qed.

Lemma byPartyName_consistent compare :
  Consistent compare → Consistent (Directory.byPartyName compare).
Proof.
  intros [Ha Ht]. split; unfold Directory.byPartyName.
  - intros a b. apply Ha.
  - intros a b c. apply Ht.
Qed.

Lemma byName_consistent compare : Consistent compare → Consistent (Directory.byName compare).
Proof.
  intros [Ha Ht]. split; unfold Directory.byName.
  - intros a b. apply Ha.
  - intros a b c. apply Ht.
Qed.

Lemma byChamber_cases compare (a b : jsstring * list DietMember) :
  (Directory.rank a.1 ≠ Directory.rank b.1
   ∧ Directory.byChamber compare a b = Directory.rank a.1 - Directory.rank b.1)
  ∨ (Directory.rank a.1 = Directory.rank b.1
     ∧ Directory.byChamber compare a b = compare a.1 b.1).
Proof.
  unfold Directory.byChamber. cbv zeta.
  destruct (Directory.rank a.1 =? Directory.rank b.1) eqn:E; simpl.
  - apply Z.eqb_eq in E. by right.
  - apply Z.eqb_neq in E. by left.
Qed.

Lemma byChamber_consistent compare :
  Consistent compare → Consistent (Directory.byChamber compare).
Proof.
  intros [Ha Ht]. split.
  - intros a b. pose proof (Ha a.1 b.1).
    destruct (byChamber_cases compare a b) as [[? ->]|[? ->]],
             (byChamber_cases compare b a) as [[? ->]|[? ->]]; lia.
  - intros a b c. pose proof (Ht a.1 b.1 c.1).
    destruct (byChamber_cases compare a b) as [[? ->]|[? ->]],
             (byChamber_cases compare b c) as [[? ->]|[? ->]],
             (byChamber_cases compare a c) as [[? ->]|[? ->]]; lia.
Qed.

(** X18: the order of the directory, for a collator that is a consistent
    comparator: the party blocks stand in the collator's order of their
    names; within a party the chamber of rank 0 (the lower house) comes
    first, the chamber of rank 1 (the upper house) second and every other
    chamber after them in the collator's order; and the rows of a table
    stand in the collator's order of the members' kana, or of their names
    where the kana is missing. *)
Theorem directory_order (compare : jsstring → jsstring → Z)
    (searchValue : option jsstring) (list : list DietMember) :
  Consistent compare →
  match Directory.renderMembers compare searchValue list with
  | NoMatch => list = []
  | Sections sections =>
      (∀ i j s t, (i < j)%nat → sections !! i = Some s → sections !! j = Some t →
         compare (ps_name s) (ps_name t) ≤ 0)
      ∧ Forall (λ s,
                  (∀ i j c d, (i < j)%nat →
                     ps_chambers s !! i = Some c → ps_chambers s !! j = Some d →
                     Directory.rank (cs_name c) < Directory.rank (cs_name d)
                     ∨ (Directory.rank (cs_name c) = Directory.rank (cs_name d)
                        ∧ compare (cs_name c) (cs_name d) ≤ 0))
                  ∧ Forall (λ c, ∀ i j a b, (i < j)%nat →
                              cs_rows c !! i = Some a → cs_rows c !! j = Some b →
                              compare (Directory.sortName a) (Directory.sortName b) ≤ 0)
                      (ps_chambers s))
          sections
  end.
Proof.
  intros Hcmp. destruct (decide (list = [])) as [->|Hlist]; [done|].
  rewrite renderMembers_sections by done. unfold Directory.groupByPartyAndChamber.
  rewrite <- list_fmap_compose. split.
  - intros i j s t Hij Hs Ht.
    apply list_lookup_fmap_Some in Hs as (a & -> & Ha).
    apply list_lookup_fmap_Some in Ht as (b & -> & Hb).
    exact (StronglySorted_lookup _ _ i j a b
             (sortBy_ordered _ (byPartyName_consistent _ Hcmp) _) Hij Ha Hb).
  - apply Forall_fmap, Forall_true. intros [k e]. simpl. split.
    + intros i j c d Hij Hc Hd.
      apply list_lookup_fmap_Some in Hc as (a & -> & Ha).
      apply list_lookup_fmap_Some in Hd as (b & -> & Hb).
      pose proof (StronglySorted_lookup _ _ i j a b
                    (sortBy_ordered _ (byChamber_consistent _ Hcmp) _) Hij Ha Hb) as H.
      unfold before in H. simpl.
      destruct (byChamber_cases compare a b) as [[? Heq]|[? Heq]]; rewrite Heq in H.
      * left. lia.
      * right. done.
    + apply Forall_fmap, Forall_true. intros [c ms]. simpl.
      intros i j a b Hij Ha Hb.
      exact (StronglySorted_lookup _ _ i j a b
               (sortBy_ordered _ (byName_consistent _ Hcmp) _) Hij Ha Hb).
Qed.

(** ** A concrete collation and case mapping *)

Lemma compareUnits_refl a : compareUnits a a = 0.
Proof. induction a as [|x a IH]; simpl; [done|]. by rewrite N.compare_refl. Qed.

Lemma compareUnits_consistent : Consistent compareUnits.
Proof.
  split.
  - intros a. induction a as [|x a IH]; intros [|y b]; simpl; try done.
    rewrite (N.compare_antisym x y). destruct (x ?= y)%N; simpl; [apply IH|done..].
  - intros a. induction a as [|x a IH]; intros [|y b] [|z c]; simpl; try done; try lia.
    destruct (x ?= y)%N eqn:Exy; [| |lia].
    + apply N.compare_eq in Exy as ->. destruct (y ?= z)%N; [apply IH|lia..].
    + intros _. destruct (y ?= z)%N eqn:Eyz; [| |lia].
      * apply N.compare_eq in Eyz as <-. rewrite Exy. lia.
      * intros _. rewrite N.compare_lt_iff in Exy, Eyz.
        pose proof (N.lt_trans _ _ _ Exy Eyz) as Hxz.
        apply N.compare_lt_iff in Hxz. rewrite Hxz. lia.
Qed.

(** ** The search box of the directory *)

Lemma filter_nil_iff {A} (f : A → bool) (l : list A) :
  List.filter f l = [] ↔ Forall (λ x, f x = false) l.
Proof.
  induction l as [|x l IH]; simpl; [done|].
  destruct (f x) eqn:E.
  - split; [done|]. intros [H _]%Forall_cons. congruence.
  - rewrite IH, Forall_cons. tauto.
Qed.

Lemma filter_all {A} (f : A → bool) (l : list A) :
  (∀ x, f x = true) → List.filter f l = l.
Proof. intros H. induction l as [|x l IH]; simpl; [done|]. by rewrite H, IH. Qed.

(** X19: after an input in the search box the directory lists exactly the members
    whose search text includes the lower-cased, trimmed input, each once,
    and shows the no-match notice exactly when there is none.  For a blank
    input, the lower-cased empty string being empty, it is the directory of
    all members, with no party block opened. *)
Theorem search_lists_matching_members (compare : jsstring → jsstring → Z)
    (toLowerCase : jsstring → jsstring)
    (searchValue : jsstring) (members : list DietMember) :
  let term := toLowerCase (Text.trim searchValue) in
  let matching :=
    List.filter (λ member,
                   if Text.nonEmpty term
                   then Directory.includes (Directory.haystack toLowerCase member) term
                   else true) members in
  let result := Directory.filterMembers compare toLowerCase searchValue members in
  listedMembers result ≡ₚ matching
  ∧ (result = NoMatch ↔ matching = [])
  ∧ (toLowerCase [] = [] →
     Forall (λ c, Text.isWhiteSpace c = true) searchValue →
     result = Directory.renderMembers compare (Some searchValue) members
     ∧ Directory.hasSearchTerm (Some searchValue) = false).
Proof.
  intros term matching result. subst result. unfold Directory.filterMembers.
  fold term. fold matching.
  split; [apply listedMembers_perm|]. split.
  - by destruct matching.
  - intros Hlower Hblank. apply SummaryBounds.trim_nil in Hblank.
    subst matching term. unfold Directory.hasSearchTerm.
    rewrite Hblank, Hlower. simpl. split; [|done].
    by rewrite filter_all.
Qed.

(** ** Social links of a member row *)

Lemma kmap_get_set {K V} `{EqDecision K} (k k' : K) (v : V) (m : list (K * V)) :
  kmap_get k (kmap_set k' v m) = if decide (k' = k) then Some v else kmap_get k m.
Proof.
  induction m as [|[k0 v0] m IH]; simpl.
  - by destruct (decide (k' = k)).
  - destruct (decide (k0 = k')) as [->|Hne]; simpl.
    + by destruct (decide (k' = k)).
    + destruct (decide (k0 = k)) as [->|Hne'].
      * by rewrite decide_False by done.
      * done.
Qed.

Lemma fromEntries_other {V} (key : string) (items : list (string * V)) : ∀ obj,
  key ∉ items.*1 →
  kmap_get key (fold_left (λ obj item, kmap_set item.1 item.2 obj) items obj)
  = kmap_get key obj.
Proof.
  induction items as [|[k v] items IH]; intros obj; csimpl; [done|].
  rewrite not_elem_of_cons. intros [Hne Hrest].
  rewrite IH, kmap_get_set by done. by rewrite decide_False by done.
Qed.

(** X20: the link of a platform in a member row is the url of the member's last
    social entry for that platform, empty or not, and is missing when the
    member has no entry for it or no [socials] at all. *)
Theorem social_link_last_entry_wins (member : DietMember) (key : string) :
  (key ∉ (nullish (dm_socials member) []).*1 →
     Directory.socialUrl member key = Undefined)
  ∧ (∀ earlier url later,
       nullish (dm_socials member) [] = earlier ++ (key, url) :: later →
       key ∉ later.*1 →
       Directory.socialUrl member key = url).
Proof.
  unfold Directory.socialUrl, Directory.socialsOf. split.
  - intros Hno. by rewrite fromEntries_other.
  - intros earlier url later -> Hlater.
    rewrite fold_left_app. simpl.
    rewrite fromEntries_other, kmap_get_set by done. by rewrite decide_True.
Qed.

(** ** Loading the members directory *)

(** X21: the outcomes of loading the directory.  An error is logged, once,
    and the failure paragraph shown exactly when the members fetch rejects,
    its response is not OK or its body is not JSON, or the index response is
    OK with a body that is not JSON.  When the members arrive, they are kept
    in [members] even in the last case, so that a later input in the search
    box lists them; and when the index fetch rejects or is not OK the
    directory is rendered all the same, with every count cell a dash. *)
Theorem directory_load_outcomes (compare : jsstring → jsstring → Z)
    (toLowerCase : jsstring → jsstring)
    (membersRes : Fetched RollPayload)
    (indexRes : Fetched (opt (list (jsstring * Stats)))) (p : DirectoryPage) :
  let q := DirectoryLoad.loadMembers compare membersRes indexRes p in
  (dp_console q = dp_console p
   ∨ ∃ message, dp_console q = dp_console p ++ [message] ∧ dp_results q = LoadFailed message)
  ∧ (dp_console q ≠ dp_console p ↔
     (∃ message, membersRes = Rejected message)
     ∨ ∃ status body, membersRes = Response status body
         ∧ (ok status = false
            ∨ (∃ message, body = Malformed message)
            ∨ ∃ indexStatus message,
                indexRes = Response indexStatus (Malformed message)
                ∧ ok indexStatus = true))
  ∧ (∀ status payload,
       membersRes = Response status (Json payload) → ok status = true →
       let members := match payload with
                      | RollArray entries => entries
                      | RollObject members => nullish members []
                      end in
       dp_members q = members
       ∧ (∀ searchValue,
            dp_results (DirectoryLoad.onSearchInput compare toLowerCase searchValue q)
            = Rendered (Directory.filterMembers compare toLowerCase searchValue members))
       ∧ ((∃ message, indexRes = Rejected message)
          ∨ (∃ indexStatus indexBody,
               indexRes = Response indexStatus indexBody ∧ ok indexStatus = false) →
          dp_results q
          = Rendered (Directory.renderMembers compare (dp_searchValue p) members)
          ∧ ∀ member,
              DirectoryLoad.speechCountCell (dp_speechStats q) member = None
              ∧ DirectoryLoad.questionCountCell (dp_speechStats q) member = None)).
Proof.
  intros q. subst q.
  assert (Hgrow : ∀ message, dp_console p ++ [message] ≠ dp_console p).
  { intros message H. apply (f_equal length) in H. rewrite length_app in H. simpl in H. lia. }
  assert (Hdash : ∀ member,
            DirectoryLoad.speechCountCell [] member = None
            ∧ DirectoryLoad.questionCountCell [] member = None).
  { intros member. unfold DirectoryLoad.speechCountCell, DirectoryLoad.questionCountCell,
      DirectoryLoad.statsOf.
    by destruct (dm_slug member) as [| |[|c slug]]. }
  unfold DirectoryLoad.loadMembers.
  destruct membersRes as [message|status [message|payload]].
  - split; [right; by exists message|]. split; [|done].
    split; [intros _; left; eauto|intros _; apply Hgrow].
  - destruct (ok status) eqn:E; simpl.
    + split; [right; by exists message|]. split; [|done].
      split; [intros _; right; exists status, (Malformed message); eauto|intros _; apply Hgrow].
    + split; [right; by eexists|]. split; [|done].
      split; [intros _; right; exists status, (Malformed message); eauto|intros _; apply Hgrow].
  - destruct (ok status) eqn:E; simpl.
    2: { split; [right; by eexists|]. split; [|intros ? ? [= <- <-]; congruence].
         split; [intros _; right; exists status, (Json payload); eauto|intros _; apply Hgrow]. }
    destruct indexRes as [imessage|indexStatus [imessage|index]]; simpl.
    + split; [by left|]. split.
      * split; [done|].
        intros [[m [=]]|(st & b & [= <- <-] & [?|[[m [=]]|(ist & m & [=] & _)]])]. congruence.
      * intros st pl [= <- <-] _. split; [done|]. split; [done|]. intros _. split; [done|].
        apply Hdash.
    + destruct (ok indexStatus) eqn:Ei; simpl.
      * split; [right; by exists imessage|]. split.
        -- split; [|intros _; apply Hgrow]. intros _. right. exists status, (Json payload).
           split; [done|]. right. right. eauto.
        -- intros st pl [= <- <-] _. split; [done|]. split; [done|].
           intros [[m [=]]|(ist & ib & [= <- <-] & ?)]. congruence.
      * split; [by left|]. split.
        -- split; [done|].
           intros [[m [=]]|(st & b & [= <- <-] & [?|[[m [=]]|(ist & m & [= <- <-] & ?)]])];
             congruence.
        -- intros st pl [= <- <-] _. split; [done|]. split; [done|]. intros _.
           split; [done|]. apply Hdash.
    + destruct (ok indexStatus) eqn:Ei; simpl.
      * split; [by left|]. split.
        -- split; [done|].
           intros [[m [=]]|(st & b & [= <- <-] & [?|[[m [=]]|(ist & m & [=] & _)]])].
           congruence.
        -- intros st pl [= <- <-] _. split; [done|]. split; [done|].
           intros [[m [=]]|(ist & ib & [= <- <-] & ?)]. congruence.
      * split; [by left|]. split.
        -- split; [done|].
           intros [[m [=]]|(st & b & [= <- <-] & [?|[[m [=]]|(ist & m & [=] & _)]])].
           congruence.
        -- intros st pl [= <- <-] _. split; [done|]. split; [done|]. intros _.
           split; [done|]. apply Hdash.
Qed.

(** ** The further theorems at the sample data *)

Lemma pager_after_clicks_witness :
  visibleCount
    (clicks Member.onLoadMoreClick 1
       (Member.render (Some "tanaka") compareBytes (Flat Archive.records) None
          (clicks Member.onLoadMoreClick 0 (initialPage Sample.element (λ _, Some Sample.element)))))
  = Z.min (5 * (Z.of_nat 1 + 1))
      (Z.of_nat (length (Member.groupsOf compareBytes (Flat Archive.records)))).
Proof.
  exact (proj1 (pager_after_clicks (Some "tanaka") compareBytes (Flat Archive.records) None
                  Sample.element (λ _, Some Sample.element) 0 1 eq_refl
                  (ex_intro _ Sample.element eq_refl))).
Defined.

Lemma click_without_more_is_noop_witness :
  speechList
    (Member.onLoadMoreClick
       (clicks Member.onLoadMoreClick 0
          (Member.render (Some "tanaka") compareBytes (Flat Sample.records) None
             (clicks Member.onLoadMoreClick 0
                (initialPage Sample.element (λ _, Some Sample.element))))))
  = speechList
      (clicks Member.onLoadMoreClick 0
         (Member.render (Some "tanaka") compareBytes (Flat Sample.records) None
            (clicks Member.onLoadMoreClick 0
               (initialPage Sample.element (λ _, Some Sample.element))))).
Proof.
  exact (proj1 (proj2 (proj2
           (click_without_more_is_noop (Some "tanaka") compareBytes (Flat Sample.records) None
              Sample.element (λ _, Some Sample.element) 0 0 eq_refl eq_refl)))).
Defined.


Lemma groupByMeeting_equal_dates_in_data_order_witness :
  ∃ i0 j0 r1 r2,
    head (mg_speeches (Member.push (Archive.record 1) (Member.newGroup (Archive.record 1))))
      = Some r1
    ∧ head (mg_speeches (Member.push (Archive.record 2) (Member.newGroup (Archive.record 2))))
      = Some r2
    ∧ list_find (λ r, Member.keyOf r = Member.keyOf r1) Archive.records = Some (i0, r1)
    ∧ list_find (λ r, Member.keyOf r = Member.keyOf r2) Archive.records = Some (j0, r2)
    ∧ (i0 < j0)%nat.
Proof.
  apply (groupByMeeting_equal_dates_in_data_order compareBytes Archive.records 0 1
           (Member.push (Archive.record 1) (Member.newGroup (Archive.record 1)))
           (Member.push (Archive.record 2) (Member.newGroup (Archive.record 2)))
           (collate_consistent _ compareBytes_collation));
    [lia | reflexivity | reflexivity | reflexivity].
Defined.

Lemma directory_order_witness :
  match Directory.renderMembers compareUnits None Archive.members with
  | NoMatch => Archive.members = []
  | Sections sections =>
      (∀ i j s t, (i < j)%nat → sections !! i = Some s → sections !! j = Some t →
         compareUnits (ps_name s) (ps_name t) ≤ 0)
      ∧ Forall (λ s,
                  (∀ i j c d, (i < j)%nat →
                     ps_chambers s !! i = Some c → ps_chambers s !! j = Some d →
                     Directory.rank (cs_name c) < Directory.rank (cs_name d)
                     ∨ (Directory.rank (cs_name c) = Directory.rank (cs_name d)
                        ∧ compareUnits (cs_name c) (cs_name d) ≤ 0))
                  ∧ Forall (λ c, ∀ i j a b, (i < j)%nat →
                              cs_rows c !! i = Some a → cs_rows c !! j = Some b →
                              compareUnits (Directory.sortName a) (Directory.sortName b) ≤ 0)
                      (ps_chambers s))
          sections
  end.
Proof. exact (directory_order compareUnits None Archive.members compareUnits_consistent). Defined.

Lemma copies_show_same_list_witness :
  SameList
    (clicks Member.onLoadMoreClick 1
       (Member.render (Some "tanaka") compareBytes (Flat Archive.records) None
          (clicks Member.onLoadMoreClick 1 (initialPage Sample.element (λ _, Some Sample.element)))))
    (clicks MemberLegacy.onLoadMoreClick 1
       (MemberLegacy.render (Some "tanaka") compareBytes (Flat Archive.records)
          (clicks MemberLegacy.onLoadMoreClick 1
             (initialPage Sample.element (λ _, Some Sample.element))))).
Proof.
  exact (copies_show_same_list (Some "tanaka") compareBytes (Flat Archive.records)
           Sample.element (λ _, Some Sample.element) 1 1 eq_refl).
Defined.

Lemma older_copy_empty_data_button_witness :
  nodes (MemberLegacy.render (Some "tanaka") compareBytes (Flat [])
           (initialPage Sample.element (λ _, Some Sample.element))) LoadMoreButton
  = Some Sample.element.
Proof.
  exact (proj1 (older_copy_empty_data_button (Some "tanaka") compareBytes (Flat [])
                  Sample.element (λ _, Some Sample.element) eq_refl)).
Defined.

Lemma session_visible_count_witness :
  0 ≤ visibleCount
        (clicks Member.onLoadMoreClick 1
           (Member.loadData (Some "tanaka") compareBytes
              (Response 200 (Json (Flat Archive.records))) (Rejected "Failed to fetch")
              (clicks Member.onLoadMoreClick 0
                 (initialPage Sample.element (λ _, Some Sample.element)))))
    ≤ Z.of_nat (length (meetingGroups
        (clicks Member.onLoadMoreClick 1
           (Member.loadData (Some "tanaka") compareBytes
              (Response 200 (Json (Flat Archive.records))) (Rejected "Failed to fetch")
              (clicks Member.onLoadMoreClick 0
                 (initialPage Sample.element (λ _, Some Sample.element))))))).
Proof.
  exact (proj1 (session_visible_count (Some "tanaka") compareBytes Sample.element
                  (λ _, Some Sample.element) _
                  (reach_loaded (Some "tanaka") compareBytes Sample.element
                     (λ _, Some Sample.element) 0 1
                     (Response 200 (Json (Flat Archive.records)))
                     (Rejected "Failed to fetch")))).
Defined.

(** The directory of the sample roll: party [A] with the lower house before
    the members without a chamber, then party [B]; the social link of a
    member listed twice for a platform is the last entry's, here empty. *)
Example scenario_directory :
  (λ s, (ps_name s, ps_count s, (λ c, (cs_name c, dm_member_name <$> cs_rows c))
                                  <$> ps_chambers s))
    <$> match Directory.renderMembers compareUnits None Archive.members with
        | NoMatch => []
        | Sections sections => sections
        end
  = [([65]%N, 2, [(Directory.SHUGIIN, [Val [97]%N]); (Directory.NO_CHAMBER, [Val [98]%N])]);
     ([66]%N, 1, [(Directory.SANGIIN, [Val [99]%N])])]
  ∧ Directory.socialUrl (Archive.member [99]%N [66]%N Undefined) "x" = Val [].
Proof. split; reflexivity. Qed.
